(** * DuckDB window operator and filter combiner: a shallow embedding

    Sources embedded here:
    - [src/execution/operator/aggregate/physical_window.cpp]
      (partition / peer-group sweep, frame boundaries, ranking counters,
      [WindowSegmentTree]);
    - [src/optimizer/filter_combiner.cpp]
      ([FilterCombiner], [CompareValueInformation]).

    The file has three parts: the definitions (modules [Values], [Window],
    [Combiner] and the modules of laws), the lemmas and theorems about
    them, and further properties of the two source files. *)

From Stdlib Require Import ZArith List String Ascii Bool Lia.
From stdpp Require Import base tactics option list sorting gmap strings.

Local Open Scope Z_scope.

(* ===================================================================== *)
(** * Part I: definitions                                                 *)
(* ===================================================================== *)

(** ** Machine integers and failures *)

Module Machine.

(** [size_t] and [ssize_t] are 64 bits wide; a conversion wraps around. *)
Definition to_size_t (z : Z) : Z := z mod 2 ^ 64.
Definition to_ssize_t (z : Z) : Z := (z + 2 ^ 63) mod 2 ^ 64 - 2 ^ 63.

(** An unsigned integer taken through a [double] and back ([floor] of an
    integer argument): the nearest number with a mantissa of 53 bits, the
    even one of two that are equally near.  Below 2^53 it is the number
    itself. *)
Definition round_to_double (z : Z) : Z :=
  let e := Z.log2 z - 52 in
  if e <=? 0 then z
  else
    let q := z / 2 ^ e in
    let rest := z mod 2 ^ e in
    let half := 2 ^ (e - 1) in
    let q := if rest <? half then q
             else if half <? rest then q + 1
             else if Z.even q then q else q + 1 in
    q * 2 ^ e.

(** What a call can end in besides a value: a C++ exception, a failed
    [assert], an access outside a vector or collection, or (for the loops
    modelled with a counter) an exhausted counter. *)
Inductive Failure : Type :=
  | NotImplementedException (what : string)
  | WindowBoundaryException          (* "Failed to compute window boundaries" *)
  | ConversionException
  | AssertionFailure
  | OutOfBounds
  | FuelExhausted.

Inductive result (A : Type) : Type :=
  | Ok (a : A)
  | Throw (f : Failure).
Arguments Ok {A} a.
Arguments Throw {A} f.

Definition bind {A B : Type} (c : result A) (k : A -> result B) : result B :=
  match c with
  | Ok a => k a
  | Throw f => Throw f
  end.

(** [v[i]] for a [std::vector] and a [size_t] index. *)
Definition vector_at {A : Type} (v : list A) (i : Z) : result A :=
  if i <? 0 then Throw OutOfBounds
  else match v !! Z.to_nat i with
       | Some x => Ok x
       | None => Throw OutOfBounds
       end.

(** The result is not the exhaustion of a loop counter of the model: it
    is a value or a failure of the program itself. *)
Definition fuel_suffices {A : Type} (r : result A) : Prop := r <> Throw FuelExhausted.

End Machine.
Export Machine.

#[global] Instance result_bind : MBind result := fun A B k c => bind c k.
#[global] Instance result_ret : MRet result := fun A a => Ok a.

(** ** Values *)

Module Values.

Inductive LogicalType : Type :=
  | SQLNULL | BOOLEAN | TINYINT | SMALLINT | INTEGER | BIGINT | HUGEINT | VARCHAR.

(** Modelled from the spec: the tagged scalar [Value] (common/types/value.hpp
    is not among the sources).  The fields are the ones the two source files
    read: [type()], [is_null], the numeric payload [value_] and [str_value].
    Floating-point and decimal payloads are left out. *)
Record Value : Type := mkValue {
  type_ : LogicalType;
  is_null : bool;
  value_ : Z;
  str_value : string
}.

(** [Value()] *)
Definition Value_default : Value := mkValue SQLNULL true 0 EmptyString.
(** [Value::Numeric(type, n)] *)
Definition Value_Numeric (t : LogicalType) (n : Z) : Value := mkValue t false n EmptyString.
(** [Value(string)] *)
Definition Value_String (s : string) : Value := mkValue VARCHAR false 0 s.
(** [Value(bool)] *)
Definition Value_Boolean (b : bool) : Value := mkValue BOOLEAN false (if b then 1 else 0) EmptyString.
(** [v.CastAs(type)] on a NULL [v]. *)
Definition Value_null_of (t : LogicalType) : Value := mkValue t true 0 EmptyString.

Definition TypeIsNumeric (t : LogicalType) : bool :=
  match t with
  | TINYINT | SMALLINT | INTEGER | BIGINT | HUGEINT => true
  | _ => false
  end.

Definition TypeIsIntegral (t : LogicalType) : bool := TypeIsNumeric t.

(** Modelled from the spec: "numeric-typed minimum/maximum sentinels". *)
Definition type_bits (t : LogicalType) : Z :=
  match t with
  | BOOLEAN => 1 | TINYINT => 8 | SMALLINT => 16 | INTEGER => 32
  | BIGINT => 64 | HUGEINT => 128 | _ => 0
  end.
Definition Value_MinimumValue (t : LogicalType) : Value :=
  Value_Numeric t (- 2 ^ (type_bits t - 1)).
Definition Value_MaximumValue (t : LogicalType) : Value :=
  Value_Numeric t (2 ^ (type_bits t - 1) - 1).

(** Modelled from the spec: comparison of two [Value]s.  "NULLs compare as
    incomparable (never less/greater/equal)"; numbers compare by value,
    strings byte-wise; a number and a string are incomparable. *)
Definition Value_compare (a b : Value) : option comparison :=
  if is_null a || is_null b then None
  else match type_ a, type_ b with
       | SQLNULL, _ | _, SQLNULL => None
       | VARCHAR, VARCHAR => Some (String.compare (str_value a) (str_value b))
       | VARCHAR, _ | _, VARCHAR => None
       | _, _ => Some (value_ a ?= value_ b)
       end.

Definition Value_eq (a b : Value) : bool :=
  match Value_compare a b with Some Eq => true | _ => false end.
Definition Value_ne (a b : Value) : bool := negb (Value_eq a b).
Definition Value_lt (a b : Value) : bool :=
  match Value_compare a b with Some Lt => true | _ => false end.
Definition Value_gt (a b : Value) : bool :=
  match Value_compare a b with Some Gt => true | _ => false end.
Definition Value_le (a b : Value) : bool :=
  match Value_compare a b with Some Lt | Some Eq => true | _ => false end.
Definition Value_ge (a b : Value) : bool :=
  match Value_compare a b with Some Gt | Some Eq => true | _ => false end.

(** Modelled from the spec: [Value] arithmetic.  A NULL operand gives NULL
    ("a NULL Value [produces] NULL results ... by convention of the
    underlying Value arithmetic"); there is "no checked arithmetic", so the
    payload is an unbounded integer; the result has the left operand's
    type.  Division truncates, and dividing by zero gives NULL. *)
Definition Value_arith (op : Z -> Z -> option Z) (a b : Value) : Value :=
  if is_null a || is_null b then Value_null_of (type_ a)
  else match op (value_ a) (value_ b) with
       | Some z => Value_Numeric (type_ a) z
       | None => Value_null_of (type_ a)
       end.
Definition Value_add : Value -> Value -> Value :=
  Value_arith (fun x y => Some (x + y)).
Definition Value_sub : Value -> Value -> Value :=
  Value_arith (fun x y => Some (x - y)).
Definition Value_div : Value -> Value -> Value :=
  Value_arith (fun x y => if y =? 0 then None else Some (Z.quot x y)).

(** Modelled from the spec: [v.CastAs(LogicalType::BOOLEAN)].  NULL stays
    NULL, a number is true when it is not zero, and of the strings only
    "true" and "false" convert. *)
Definition Value_CastAs_BOOLEAN (v : Value) : result Value :=
  if is_null v then Ok (Value_null_of BOOLEAN)
  else match type_ v with
       | SQLNULL => Ok (Value_null_of BOOLEAN)
       | VARCHAR =>
           if String.eqb (str_value v) "true" then Ok (Value_Boolean true)
           else if String.eqb (str_value v) "false" then Ok (Value_Boolean false)
           else Throw ConversionException
       | _ => Ok (Value_Boolean (negb (value_ v =? 0)))
       end.

(** [v.GetNumericValue()], an [int64_t]. *)
Definition GetNumericValue (v : Value) : Z := to_ssize_t (value_ v).

#[global] Instance LogicalType_eq_dec : EqDecision LogicalType.
Proof. solve_decision. Defined.
#[global] Instance Value_eq_dec : EqDecision Value.
Proof. solve_decision. Defined.

End Values.
Export Values.

(** ** Expression types shared by the two source files *)

Module Types.

Inductive ExpressionType : Type :=
  | INVALID
  | COMPARE_EQUAL | COMPARE_NOTEQUAL
  | COMPARE_LESSTHAN | COMPARE_GREATERTHAN
  | COMPARE_LESSTHANOREQUALTO | COMPARE_GREATERTHANOREQUALTO
  | COMPARE_IN | COMPARE_NOT_IN | COMPARE_DISTINCT_FROM | COMPARE_BETWEEN
  | CONJUNCTION_AND | CONJUNCTION_OR
  | OPERATOR_NOT | OPERATOR_IS_NULL
  | VALUE_CONSTANT | VALUE_PARAMETER
  | BOUND_COLUMN_REF | BOUND_FUNCTION
  | WINDOW_SUM | WINDOW_MIN | WINDOW_MAX | WINDOW_AVG | WINDOW_COUNT_STAR
  | WINDOW_ROW_NUMBER | WINDOW_RANK_DENSE | WINDOW_RANK
  | WINDOW_FIRST_VALUE | WINDOW_LAST_VALUE
  | WINDOW_NTILE.

#[global] Instance ExpressionType_eq_dec : EqDecision ExpressionType.
Proof. solve_decision. Defined.

End Types.
Export Types.

(** ** The window operator: physical_window.cpp *)

Module Window.

(** Modelled from the spec: a [ChunkCollection] read by row index
    (common/types/chunk_collection.hpp is not among the sources).  It is
    held as its rows; [GetRow] and [GetValue] fail outside the collection. *)
Definition ChunkCollection : Type := list (list Value).

Definition count (c : ChunkCollection) : Z := Z.of_nat (length c).
Definition column_count (c : ChunkCollection) : Z :=
  match c with
  | [] => 0
  | r :: _ => Z.of_nat (length r)
  end.
Definition GetRow (c : ChunkCollection) (index : Z) : result (list Value) :=
  vector_at c index.
Definition GetValue (c : ChunkCollection) (column index : Z) : result Value :=
  r ← GetRow c index; vector_at r column.

(** A one-column collection holding the given values. *)
Definition column_of (vs : list Value) : ChunkCollection := map (fun v => [v]) vs.

Inductive WindowBoundary : Type :=
  | WB_INVALID
  | UNBOUNDED_PRECEDING | UNBOUNDED_FOLLOWING
  | CURRENT_ROW_RANGE | CURRENT_ROW_ROWS
  | EXPR_PRECEDING | EXPR_FOLLOWING.

(** The fields of a [WindowExpression] that the operator reads.  The
    partition, ordering, payload and boundary expressions are evaluated by
    the expression executor into collections, which the functions below
    take as arguments; of the expressions themselves only their number and
    [IsScalar()] are kept. *)
Record WindowExpression : Type := mkWindowExpression {
  partitions : Z;                  (* partitions.size() *)
  orders : Z;                      (* ordering.orders.size() *)
  type : ExpressionType;
  return_type : LogicalType;
  children : Z;                    (* children.size() *)
  start : WindowBoundary;
  end_ : WindowBoundary;
  start_expr : option bool;        (* start_expr, as its IsScalar() *)
  end_expr : option bool           (* end_expr, as its IsScalar() *)
}.

(** [EqualsSubset], lines 20-28.  The loop is written over the number of
    columns still to compare. *)
Fixpoint EqualsSubset_loop (n : nat) (a b : list Value) (i : Z) : result bool :=
  match n with
  | O => Ok true
  | S n' =>
      x ← vector_at a i;
      y ← vector_at b i;
      if Value_ne x y then Ok false else EqualsSubset_loop n' a b (i + 1)
  end.

Definition EqualsSubset (a b : list Value) (start end_ : Z) : result bool :=
  if end_ <? start then Throw AssertionFailure
  else EqualsSubset_loop (Z.to_nat (end_ - start)) a b start.

(** The inner [for] of [BinarySearchRightmost], lines 36-42. *)
Fixpoint less_than_equals_loop (n : nat) (row_m row : list Value) (i : Z)
  : result bool :=
  match n with
  | O => Ok true
  | S n' =>
      x ← vector_at row_m i;
      y ← vector_at row i;
      if Value_gt x y then Ok false else less_than_equals_loop n' row_m row (i + 1)
  end.

(** The [while (l < r)] of [BinarySearchRightmost], lines 34-48.  [fuel]
    bounds the number of iterations.  [m] is [floor((l + r) / 2)]: the
    quotient is the unsigned integer one, [floor] takes it through a
    [double], and the result is stored in a [size_t]. *)
Fixpoint BinarySearchRightmost_loop (fuel : nat) (input : ChunkCollection)
    (row : list Value) (l r comp_cols : Z) : result Z :=
  match fuel with
  | O => Throw FuelExhausted
  | S fuel' =>
      if l <? r then
        let m := to_size_t (round_to_double (to_size_t (l + r) / 2)) in
        row_m ← GetRow input m;
        less_than_equals ← less_than_equals_loop (Z.to_nat comp_cols) row_m row 0;
        if less_than_equals : bool
        then BinarySearchRightmost_loop fuel' input row (to_size_t (m + 1)) r comp_cols
        else BinarySearchRightmost_loop fuel' input row l m comp_cols
      else Ok (to_size_t (l - 1))
  end.

Definition BinarySearchRightmost (input : ChunkCollection) (row : list Value)
    (l r comp_cols : Z) : result Z :=
  if comp_cols =? 0 then Ok (to_size_t (r - 1))
  else BinarySearchRightmost_loop (S (Z.to_nat (r - l))) input row l r comp_cols.

(** [struct WindowBoundariesState], lines 117-127. *)
Record WindowBoundariesState : Type := mkBounds {
  partition_start : Z;
  partition_end : Z;
  peer_start : Z;
  peer_end : Z;
  window_start : Z;
  window_end : Z;
  is_same_partition : bool;
  is_peer : bool;
  row_prev : list Value
}.

Definition WindowBoundariesState_init : WindowBoundariesState :=
  mkBounds 0 0 0 0 (-1) (-1) false false [].

(** The offset of an [EXPR_PRECEDING] / [EXPR_FOLLOWING] boundary:
    [collection.GetValue(0, expr->IsScalar() ? 0 : row_idx).GetNumericValue()]
    after [assert(collection.column_count() > 0)]. *)
Definition boundary_offset (collection : ChunkCollection) (expr : option bool)
    (row_idx : Z) : result Z :=
  if column_count collection >? 0 then
    match expr with
    | None => Throw OutOfBounds
    | Some IsScalar =>
        v ← GetValue collection 0 (if IsScalar then 0 else row_idx);
        Ok (GetNumericValue v)
    end
  else Throw AssertionFailure.

(** [UpdateWindowBoundaries], lines 129-235. *)
Definition UpdateWindowBoundaries (wexpr : WindowExpression) (input : ChunkCollection)
    (row_idx : Z) (boundary_start_collection boundary_end_collection : ChunkCollection)
    (bounds : WindowBoundariesState) : result WindowBoundariesState :=
  row_cur ← GetRow input row_idx;
  let sort_col_count := to_size_t (partitions wexpr + orders wexpr) in
  (* determine partition and peer group boundaries *)
  same ← EqualsSubset (row_prev bounds) row_cur 0 (partitions wexpr);
  peer ← (if same : bool
          then EqualsSubset (row_prev bounds) row_cur (partitions wexpr) sort_col_count
          else Ok false);
  (* when the partition changes, recompute the boundaries *)
  '(p_start, p_end, pr_start) ←
    (if negb same || (row_idx =? 0) then
       e ← BinarySearchRightmost input row_cur row_idx (count input) (partitions wexpr);
       Ok (row_idx, to_size_t (e + 1), row_idx)
     else if negb peer then Ok (partition_start bounds, partition_end bounds, row_idx)
     else Ok (partition_start bounds, partition_end bounds, peer_start bounds));
  pr_end ←
    (match end_ wexpr with
     | CURRENT_ROW_RANGE =>
         e ← BinarySearchRightmost input row_cur row_idx p_end sort_col_count;
         Ok (to_size_t (e + 1))
     | _ => Ok (peer_end bounds)
     end);
  (* determine window boundaries depending on the type of expression *)
  w_start ←
    (match start wexpr with
     | UNBOUNDED_PRECEDING => Ok (to_ssize_t p_start)
     | CURRENT_ROW_ROWS => Ok (to_ssize_t row_idx)
     | CURRENT_ROW_RANGE => Ok (to_ssize_t pr_start)
     | UNBOUNDED_FOLLOWING => Throw AssertionFailure
     | EXPR_PRECEDING =>
         v ← boundary_offset boundary_start_collection (start_expr wexpr) row_idx;
         Ok (to_ssize_t (to_ssize_t row_idx - v))
     | EXPR_FOLLOWING =>
         v ← boundary_offset boundary_start_collection (start_expr wexpr) row_idx;
         Ok (to_ssize_t (to_size_t (row_idx + v)))
     | WB_INVALID => Throw (NotImplementedException "Unsupported boundary")
     end);
  w_end ←
    (match end_ wexpr with
     | UNBOUNDED_PRECEDING => Throw AssertionFailure
     | CURRENT_ROW_ROWS => Ok (to_ssize_t (to_size_t (row_idx + 1)))
     | CURRENT_ROW_RANGE => Ok (to_ssize_t pr_end)
     | UNBOUNDED_FOLLOWING => Ok (to_ssize_t p_end)
     | EXPR_PRECEDING =>
         v ← boundary_offset boundary_end_collection (end_expr wexpr) row_idx;
         Ok (to_ssize_t (to_ssize_t row_idx - v + 1))
     | EXPR_FOLLOWING =>
         v ← boundary_offset boundary_end_collection (end_expr wexpr) row_idx;
         Ok (to_ssize_t (to_size_t (row_idx + v + 1)))
     | WB_INVALID => Throw (NotImplementedException "Unsupported boundary")
     end);
  (* clamp windows to partitions if they should exceed: the first test
     compares two [ssize_t], the second an [ssize_t] with a [size_t], which
     C++ compares as unsigned *)
  let w_start := if w_start <? to_ssize_t p_start then to_ssize_t p_start else w_start in
  let w_end := if to_size_t w_end >? p_end then to_ssize_t p_end else w_end in
  if (w_start <? 0) || (w_end <? 0) then Throw WindowBoundaryException
  else Ok (mkBounds p_start p_end pr_start pr_end w_start w_end same peer row_cur).

(** *** WindowSegmentTree, lines 418-532 *)

Record WindowSegmentTree : Type := mkTree {
  window_type : ExpressionType;
  payload_type : LogicalType;
  fanout : Z;
  aggregate : Value;
  n_aggregated : Z;
  levels : list (list Value);
  input_ref : option ChunkCollection
}.

(** [WindowSegmentTree(window_type, payload_type, fanout)] *)
Definition WindowSegmentTree_new (t : ExpressionType) (p : LogicalType) (f : Z)
  : WindowSegmentTree := mkTree t p f Value_default 0 [] None.

Definition set_aggregate (t : WindowSegmentTree) (a : Value) (n : Z) : WindowSegmentTree :=
  mkTree (window_type t) (payload_type t) (fanout t) a n (levels t) (input_ref t).

Definition AggregateInit (t : WindowSegmentTree) : result WindowSegmentTree :=
  match window_type t with
  | WINDOW_SUM | WINDOW_AVG => Ok (set_aggregate t (Value_Numeric (payload_type t) 0) 0)
  | WINDOW_MIN => Ok (set_aggregate t (Value_MaximumValue (payload_type t)) 0)
  | WINDOW_MAX => Ok (set_aggregate t (Value_MinimumValue (payload_type t)) 0)
  | _ => Throw (NotImplementedException "Window Type")
  end.

Definition AggregateAccum (t : WindowSegmentTree) (val : Value) : result WindowSegmentTree :=
  let n := to_size_t (n_aggregated t + 1) in
  match window_type t with
  | WINDOW_SUM | WINDOW_AVG => Ok (set_aggregate t (Value_add (aggregate t) val) n)
  | WINDOW_MIN =>
      Ok (set_aggregate t (if Value_lt val (aggregate t) then val else aggregate t) n)
  | WINDOW_MAX =>
      Ok (set_aggregate t (if Value_gt val (aggregate t) then val else aggregate t) n)
  | _ => Throw (NotImplementedException "Window Type")
  end.

Definition AggegateFinal (t : WindowSegmentTree) : result Value :=
  if n_aggregated t =? 0 then Ok (Value_null_of (payload_type t))
  else match window_type t with
       | WINDOW_SUM | WINDOW_MIN | WINDOW_MAX => Ok (aggregate t)
       | WINDOW_AVG =>
           Ok (Value_div (aggregate t) (Value_Numeric (payload_type t) (n_aggregated t)))
       | _ => Throw (NotImplementedException "Window Type")
       end.

(** The values of level [l_idx]: level 0 is the data itself, level
    [l_idx > 0] is [levels[l_idx - 1]]. *)
Definition level_value (t : WindowSegmentTree) (l_idx pos : Z) : result Value :=
  if l_idx =? 0 then
    match input_ref t with
    | Some input => GetValue input 0 pos
    | None => Throw AssertionFailure
    end
  else
    lvl ← vector_at (levels t) (l_idx - 1);
    vector_at lvl pos.

(** The [for (pos ...)] of [Construct], lines 485-493, over the values of
    the level below.  It returns the tree, the new level [nl] and
    [fanout_count]. *)
Fixpoint Construct_level (vals : list Value) (t : WindowSegmentTree)
    (nl : list Value) (fanout_count : Z)
  : result (WindowSegmentTree * list Value * Z) :=
  match vals with
  | [] => Ok (t, nl, fanout_count)
  | v :: vals' =>
      t ← AggregateAccum t v;
      let fanout_count := to_size_t (fanout_count + 1) in
      if fanout_count =? fanout t then
        f ← AggegateFinal t;
        t ← AggregateInit t;
        Construct_level vals' t (nl ++ [f]) 0
      else Construct_level vals' t nl fanout_count
  end.

Definition push_level (t : WindowSegmentTree) (nl : list Value) : WindowSegmentTree :=
  mkTree (window_type t) (payload_type t) (fanout t) (aggregate t) (n_aggregated t)
         (levels t ++ [nl]) (input_ref t).

(** The [while] of [Construct], lines 482-498; [fuel] bounds the number of
    levels built. *)
Fixpoint Construct_loop (fuel : nat) (input : ChunkCollection) (t : WindowSegmentTree)
  : result WindowSegmentTree :=
  match fuel with
  | O => Throw FuelExhausted
  | S fuel' =>
      vals ← (match last (levels t) with
              | None => mapM (M := result) (fun r => vector_at r 0) input
              | Some lvl => Ok lvl
              end);
      if Z.of_nat (length vals) >? 1 then
        '(t, nl, fanout_count) ← Construct_level vals t [] 0;
        nl ← (if fanout_count >? 0 then f ← AggegateFinal t; Ok (nl ++ [f]) else Ok nl);
        Construct_loop fuel' input (push_level t nl)
      else Ok t
  end.

Definition Construct (t : WindowSegmentTree) (input : ChunkCollection)
  : result WindowSegmentTree :=
  if column_count input =? 1 then
    t ← AggregateInit t;
    let t := mkTree (window_type t) (payload_type t) (fanout t) (aggregate t)
                    (n_aggregated t) (levels t) (Some input) in
    Construct_loop (S (length input)) input t
  else Throw AssertionFailure.

(** [WindowSegmentValue], lines 501-506. *)
Fixpoint WindowSegmentValue_loop (n : nat) (t : WindowSegmentTree) (l_idx pos : Z)
  : result WindowSegmentTree :=
  match n with
  | O => Ok t
  | S n' =>
      v ← level_value t l_idx pos;
      t ← AggregateAccum t v;
      WindowSegmentValue_loop n' t l_idx (pos + 1)
  end.

Definition WindowSegmentValue (t : WindowSegmentTree) (l_idx begin end_ : Z)
  : result WindowSegmentTree :=
  if end_ <? begin then Throw AssertionFailure
  else WindowSegmentValue_loop (Z.to_nat (end_ - begin)) t l_idx begin.

(** The [for (l_idx ...)] of [Compute], lines 511-531; [n] is the number of
    levels still to visit, [levels.size() + 1] at the start. *)
Fixpoint Compute_loop (n : nat) (t : WindowSegmentTree) (l_idx begin end_ : Z)
  : result (WindowSegmentTree * Value) :=
  match n with
  | O => v ← AggegateFinal t; Ok (t, v)
  | S n' =>
      let parent_begin := begin / fanout t in
      let parent_end := end_ / fanout t in
      if parent_begin =? parent_end then
        t ← WindowSegmentValue t l_idx begin end_;
        v ← AggegateFinal t;
        Ok (t, v)
      else
        let group_begin := to_size_t (parent_begin * fanout t) in
        '(t, parent_begin) ←
          (if negb (begin =? group_begin) then
             t ← WindowSegmentValue t l_idx begin (to_size_t (group_begin + fanout t));
             Ok (t, to_size_t (parent_begin + 1))
           else Ok (t, parent_begin));
        let group_end := to_size_t (parent_end * fanout t) in
        t ← (if negb (end_ =? group_end)
             then WindowSegmentValue t l_idx group_end end_
             else Ok t);
        Compute_loop n' t (to_size_t (l_idx + 1)) parent_begin parent_end
  end.

Definition Compute (t : WindowSegmentTree) (begin end_ : Z)
  : result (WindowSegmentTree * Value) :=
  match input_ref t with
  | None => Throw AssertionFailure
  | Some _ =>
      t ← AggregateInit t;
      Compute_loop (S (length (levels t))) t 0 begin end_
  end.

(** The naive linear accumulation over [begin, end): the
    [AggregateInit] / [AggregateAccum] / [AggegateFinal] fold applied
    directly to the payload values. *)
Definition naive_aggregate (t : ExpressionType) (p : LogicalType)
    (payload : ChunkCollection) (begin end_ : Z) : result Value :=
  let tree := mkTree t p 0 Value_default 0 [] (Some payload) in
  tree ← AggregateInit tree;
  tree ← WindowSegmentValue tree 0 begin end_;
  AggegateFinal tree.

(** *** ComputeWindowExpression, lines 237-352 *)

(** The state of the main loop: the boundaries, the segment tree (built
    for SUM, MIN, MAX and AVG only), the three ranking counters and the
    output column written so far. *)
Record SweepState : Type := mkSweep {
  bounds : WindowBoundariesState;
  segment_tree : option WindowSegmentTree;
  dense_rank : Z;
  rank_equal : Z;
  rank : Z;
  output : list Value
}.

(** Lines 295-303: the ranking counters of the row, from the flags that
    [UpdateWindowBoundaries] has just set. *)
Definition update_ranks (b : WindowBoundariesState) (row_idx : Z)
    (dense_rank rank_equal rank : Z) : Z * Z * Z :=
  if negb (is_same_partition b) || (row_idx =? 0) then (1, 0, 1)
  else if negb (is_peer b)
       then (to_size_t (dense_rank + 1), 0, to_size_t (rank + rank_equal))
       else (dense_rank, rank_equal, rank).

(** One iteration of the main loop, lines 290-351. *)
Definition ComputeWindowRow (wexpr : WindowExpression)
    (sort_collection payload_collection : ChunkCollection)
    (boundary_start_collection boundary_end_collection : ChunkCollection)
    (row_idx : Z) (st : SweepState) : result SweepState :=
  b ← UpdateWindowBoundaries wexpr sort_collection row_idx
        boundary_start_collection boundary_end_collection (bounds st);
  let '(dense_rank, rank_equal, rank) :=
    update_ranks b row_idx (dense_rank st) (rank_equal st) (rank st) in
  (* if no values are read for window, result is NULL *)
  if window_start b >=? window_end b then
    Ok (mkSweep b (segment_tree st) dense_rank rank_equal rank
                (output st ++ [Value_default]))
  else
    match type wexpr with
    | WINDOW_SUM | WINDOW_MIN | WINDOW_MAX | WINDOW_AVG =>
        match segment_tree st with
        | None => Throw AssertionFailure
        | Some t =>
            '(t, res) ← Compute t (to_size_t (window_start b)) (to_size_t (window_end b));
            Ok (mkSweep b (Some t) dense_rank rank_equal rank (output st ++ [res]))
        end
    | WINDOW_COUNT_STAR =>
        let res := Value_Numeric (return_type wexpr)
                     (to_ssize_t (window_end b - window_start b)) in
        Ok (mkSweep b (segment_tree st) dense_rank rank_equal rank (output st ++ [res]))
    | WINDOW_ROW_NUMBER =>
        let res := Value_Numeric (return_type wexpr)
                     (to_ssize_t (to_size_t (row_idx - window_start b + 1))) in
        Ok (mkSweep b (segment_tree st) dense_rank rank_equal rank (output st ++ [res]))
    | WINDOW_RANK_DENSE =>
        let res := Value_Numeric (return_type wexpr) (to_ssize_t dense_rank) in
        Ok (mkSweep b (segment_tree st) dense_rank rank_equal rank (output st ++ [res]))
    | WINDOW_RANK =>
        let res := Value_Numeric (return_type wexpr) (to_ssize_t rank) in
        Ok (mkSweep b (segment_tree st) dense_rank (to_size_t (rank_equal + 1)) rank
                    (output st ++ [res]))
    | WINDOW_FIRST_VALUE =>
        res ← GetValue payload_collection 0 (to_size_t (window_start b));
        Ok (mkSweep b (segment_tree st) dense_rank rank_equal rank (output st ++ [res]))
    | WINDOW_LAST_VALUE =>
        res ← GetValue payload_collection 0 (to_size_t (window_end b - 1));
        Ok (mkSweep b (segment_tree st) dense_rank rank_equal rank (output st ++ [res]))
    | _ => Throw (NotImplementedException "Window aggregate type")
    end.

(** The main loop over [row_idx]; [n] is the number of rows left. *)
Fixpoint ComputeWindowLoop (n : nat) (wexpr : WindowExpression)
    (sort_collection payload_collection : ChunkCollection)
    (boundary_start_collection boundary_end_collection : ChunkCollection)
    (row_idx : Z) (st : SweepState) : result SweepState :=
  match n with
  | O => Ok st
  | S n' =>
      st ← ComputeWindowRow wexpr sort_collection payload_collection
             boundary_start_collection boundary_end_collection row_idx st;
      ComputeWindowLoop n' wexpr sort_collection payload_collection
        boundary_start_collection boundary_end_collection (row_idx + 1) st
  end.

(** [ComputeWindowExpression] after the sort and the materialisation of
    the payload and boundary expressions, which the sorted
    [sort_collection], [payload_collection] and the two boundary
    collections stand for.  [input_count] is [input.count].  The result is
    the output column of the window expression. *)
Definition ComputeWindowExpression (wexpr : WindowExpression) (input_count : Z)
    (sort_collection payload_collection : ChunkCollection)
    (boundary_start_collection boundary_end_collection : ChunkCollection)
  : result (list Value) :=
  tree ← (match type wexpr with
          | WINDOW_SUM | WINDOW_MIN | WINDOW_MAX | WINDOW_AVG =>
              t ← Construct (WindowSegmentTree_new (type wexpr) (return_type wexpr) 16)
                    payload_collection;
              Ok (Some t)
          | _ => Ok None
          end);
  row0 ← GetRow sort_collection 0;
  let bounds := mkBounds 0 0 0 0 (-1) (-1) false false row0 in
  st ← ComputeWindowLoop (Z.to_nat input_count) wexpr sort_collection payload_collection
         boundary_start_collection boundary_end_collection 0
         (mkSweep bounds tree 0 0 0 []);
  Ok (output st).

End Window.

(** ** The filter combiner: filter_combiner.cpp *)

Module Combiner.

Inductive ExpressionClass : Type :=
  | CLASS_BOUND_COLUMN_REF | CLASS_BOUND_CONSTANT | CLASS_BOUND_COMPARISON
  | CLASS_BOUND_BETWEEN | CLASS_BOUND_CONJUNCTION | CLASS_BOUND_OPERATOR
  | CLASS_BOUND_FUNCTION | CLASS_BOUND_PARAMETER.

(** Modelled from the spec: the bound expressions the combiner reasons
    about (the planner's expression headers are not among the sources):
    "BoundComparison{type, left, right}, BoundBetween{input, lower, upper,
    lower_inclusive, upper_inclusive}, BoundConjunction{AND|OR, children},
    BoundOperator{IN, children}, BoundFunction{name, children},
    BoundColumnRef{binding}, BoundConstant{value}", and a parameter. *)
#[warnings="-register-all"]
Inductive Expression : Type :=
  | BoundColumnRef (table_index column_index : Z)
  | BoundConstant (value : Value)
  | BoundComparison (type : ExpressionType) (left right : Expression)
  | BoundBetween (input lower upper : Expression) (lower_inclusive upper_inclusive : bool)
  | BoundConjunction (type : ExpressionType) (children : list Expression)
  | BoundOperator (type : ExpressionType) (children : list Expression)
  | BoundFunction (name : string) (children : list Expression)
  | BoundParameter (parameter_nr : Z).

(** [expr->type] *)
Definition type (e : Expression) : ExpressionType :=
  match e with
  | BoundColumnRef _ _ => BOUND_COLUMN_REF
  | BoundConstant _ => VALUE_CONSTANT
  | BoundComparison t _ _ => t
  | BoundBetween _ _ _ _ _ => COMPARE_BETWEEN
  | BoundConjunction t _ => t
  | BoundOperator t _ => t
  | BoundFunction _ _ => BOUND_FUNCTION
  | BoundParameter _ => VALUE_PARAMETER
  end.

(** [expr->expression_class], [expr->GetExpressionClass()] *)
Definition expression_class (e : Expression) : ExpressionClass :=
  match e with
  | BoundColumnRef _ _ => CLASS_BOUND_COLUMN_REF
  | BoundConstant _ => CLASS_BOUND_CONSTANT
  | BoundComparison _ _ _ => CLASS_BOUND_COMPARISON
  | BoundBetween _ _ _ _ _ => CLASS_BOUND_BETWEEN
  | BoundConjunction _ _ => CLASS_BOUND_CONJUNCTION
  | BoundOperator _ _ => CLASS_BOUND_OPERATOR
  | BoundFunction _ _ => CLASS_BOUND_FUNCTION
  | BoundParameter _ => CLASS_BOUND_PARAMETER
  end.

#[global] Instance ExpressionClass_eq_dec : EqDecision ExpressionClass.
Proof. solve_decision. Defined.

(** Structural equality of expressions, which [Expression::Equals] and the
    hash maps keyed by expressions ([expression_map_t]) decide. *)
Fixpoint Expression_eq_dec (a b : Expression) {struct a} : {a = b} + {a <> b}.
Proof.
  decide equality;
    try (apply (List.list_eq_dec Expression_eq_dec));
    try (apply Z.eq_dec); try (apply Bool.bool_dec);
    try (apply String.string_dec); try (apply ExpressionType_eq_dec);
    try (apply Value_eq_dec).
Defined.
#[global] Instance Expression_eqdec : EqDecision Expression := Expression_eq_dec.

Definition Equals (a b : Expression) : bool := bool_decide (a = b).

(** A map keyed by expressions, as an association list without repeated
    keys. *)
Definition expression_map_t (V : Type) : Type := list (Expression * V).

Fixpoint expr_find {V : Type} (m : expression_map_t V) (k : Expression) : option V :=
  match m with
  | [] => None
  | (k', v) :: m' => if Equals k' k then Some v else expr_find m' k
  end.

(** [m[k] = v] *)
Fixpoint expr_assign {V : Type} (m : expression_map_t V) (k : Expression) (v : V)
  : expression_map_t V :=
  match m with
  | [] => [(k, v)]
  | (k', v') :: m' => if Equals k' k then (k, v) :: m' else (k', v') :: expr_assign m' k v
  end.

Record ExpressionValueInformation : Type := mkInfo {
  constant : Value;
  comparison_type : ExpressionType
}.

Inductive ValueComparisonResult : Type :=
  | PRUNE_LEFT | PRUNE_RIGHT | UNSATISFIABLE_CONDITION | PRUNE_NOTHING.

Inductive FilterResult : Type := UNSATISFIABLE | SUCCESS | UNSUPPORTED.

#[global] Instance FilterResult_eq_dec : EqDecision FilterResult.
Proof. solve_decision. Defined.

Record TableFilter : Type := mkTableFilter {
  tf_constant : Value;
  tf_comparison_type : ExpressionType;
  tf_column_index : Z
}.

(** The state of a [FilterCombiner].  [stored_expressions] owns a copy of
    every expression used as a key; with structural keys the stored copy is
    the key itself.  [set_index] counts the equivalence sets created (one
    per stored expression at most, so the [idx_t] does not wrap). *)
Record FilterCombiner : Type := mkCombiner {
  remaining_filters : list Expression;
  stored_expressions : list Expression;
  equivalence_set_map : expression_map_t nat;
  constant_values : gmap nat (list ExpressionValueInformation);
  equivalence_map : gmap nat (list Expression);
  set_index : nat
}.

Definition FilterCombiner_new : FilterCombiner := mkCombiner [] [] [] ∅ ∅ 0%nat.

Definition IsGreaterThan (t : ExpressionType) : bool :=
  bool_decide (t = COMPARE_GREATERTHAN) || bool_decide (t = COMPARE_GREATERTHANOREQUALTO).

Definition IsLessThan (t : ExpressionType) : bool :=
  bool_decide (t = COMPARE_LESSTHAN) || bool_decide (t = COMPARE_LESSTHANOREQUALTO).

(** Lines 698-706. *)
Definition InvertValueComparisonResult (r : ValueComparisonResult) : ValueComparisonResult :=
  match r with
  | PRUNE_RIGHT => PRUNE_LEFT
  | PRUNE_LEFT => PRUNE_RIGHT
  | _ => r
  end.

(** The body of [CompareValueInformation], lines 708-831, with the
    recursive calls going through [rec].  A [D_ASSERT] that does not hold
    is a failure. *)
Definition CompareValueInformation_body
    (rec : ExpressionValueInformation -> ExpressionValueInformation ->
           result ValueComparisonResult)
    (left right : ExpressionValueInformation) : result ValueComparisonResult :=
  let lc := constant left in
  let rc := constant right in
  if bool_decide (comparison_type left = COMPARE_EQUAL) then
    prune_right_side ←
      (match comparison_type right with
       | COMPARE_LESSTHAN => Ok (Value_lt lc rc)
       | COMPARE_LESSTHANOREQUALTO => Ok (Value_le lc rc)
       | COMPARE_GREATERTHAN => Ok (Value_gt lc rc)
       | COMPARE_GREATERTHANOREQUALTO => Ok (Value_ge lc rc)
       | COMPARE_NOTEQUAL => Ok (Value_ne lc rc)
       | COMPARE_EQUAL => Ok (Value_eq lc rc)
       | _ => Throw AssertionFailure
       end);
    Ok (if prune_right_side : bool then PRUNE_RIGHT else UNSATISFIABLE_CONDITION)
  else if bool_decide (comparison_type right = COMPARE_EQUAL) then
    r ← rec right left; Ok (InvertValueComparisonResult r)
  else if bool_decide (comparison_type left = COMPARE_NOTEQUAL) then
    prune_left_side ←
      (match comparison_type right with
       | COMPARE_LESSTHAN => Ok (Value_ge lc rc)
       | COMPARE_LESSTHANOREQUALTO => Ok (Value_gt lc rc)
       | COMPARE_GREATERTHAN => Ok (Value_le lc rc)
       | COMPARE_GREATERTHANOREQUALTO => Ok (Value_lt lc rc)
       | COMPARE_NOTEQUAL => Ok (Value_eq lc rc)
       | _ => Throw AssertionFailure
       end);
    Ok (if prune_left_side : bool then PRUNE_LEFT else PRUNE_NOTHING)
  else if bool_decide (comparison_type right = COMPARE_NOTEQUAL) then
    r ← rec right left; Ok (InvertValueComparisonResult r)
  else if IsGreaterThan (comparison_type left) && IsGreaterThan (comparison_type right) then
    if Value_gt lc rc then Ok PRUNE_RIGHT
    else if Value_lt lc rc then Ok PRUNE_LEFT
    else if bool_decide (comparison_type left = COMPARE_GREATERTHANOREQUALTO)
         then Ok PRUNE_LEFT else Ok PRUNE_RIGHT
  else if IsLessThan (comparison_type left) && IsLessThan (comparison_type right) then
    if Value_lt lc rc then Ok PRUNE_RIGHT
    else if Value_gt lc rc then Ok PRUNE_LEFT
    else if bool_decide (comparison_type left = COMPARE_LESSTHANOREQUALTO)
         then Ok PRUNE_LEFT else Ok PRUNE_RIGHT
  else if IsLessThan (comparison_type left) then
    if IsGreaterThan (comparison_type right) then
      (* the SMALLER THAN constant has to be greater than the BIGGER THAN constant *)
      if Value_ge lc rc then Ok PRUNE_NOTHING else Ok UNSATISFIABLE_CONDITION
    else Throw AssertionFailure
  else
    if IsLessThan (comparison_type right) && IsGreaterThan (comparison_type left) then
      r ← rec right left; Ok (InvertValueComparisonResult r)
    else Throw AssertionFailure.

(** [CompareValueInformation]: no call nests more than one recursive call
    (lemma [CompareValueInformation_unfold] below), so the recursion is
    unrolled twice. *)
Definition CompareValueInformation
  : ExpressionValueInformation -> ExpressionValueInformation -> result ValueComparisonResult :=
  CompareValueInformation_body
    (CompareValueInformation_body (fun _ _ => Throw FuelExhausted)).

(** The loop of [AddConstantComparison], lines 53-71, over the entries not
    yet visited.  It returns the list as the loop leaves it and the result
    of an early [return], if any. *)
Fixpoint AddConstantComparison_loop (info_list : list ExpressionValueInformation)
    (info : ExpressionValueInformation)
  : result (list ExpressionValueInformation * option FilterResult) :=
  match info_list with
  | [] => Ok ([], None)
  | x :: rest =>
      comparison ← CompareValueInformation x info;
      match comparison with
      | PRUNE_LEFT => AddConstantComparison_loop rest info
      | PRUNE_RIGHT => Ok (x :: rest, Some SUCCESS)
      | UNSATISFIABLE_CONDITION => Ok (x :: rest, Some UNSATISFIABLE)
      | PRUNE_NOTHING =>
          '(rest', r) ← AddConstantComparison_loop rest info;
          Ok (x :: rest', r)
      end
  end.

(** [AddConstantComparison], lines 51-75: the updated [info_list] and the
    result. *)
Definition AddConstantComparison (info_list : list ExpressionValueInformation)
    (info : ExpressionValueInformation)
  : result (list ExpressionValueInformation * FilterResult) :=
  '(l, r) ← AddConstantComparison_loop info_list info;
  match r with
  | Some fr => Ok (l, fr)
  | None => Ok (l ++ [info], SUCCESS)
  end.

Definition set_remaining (c : FilterCombiner) (r : list Expression) : FilterCombiner :=
  mkCombiner r (stored_expressions c) (equivalence_set_map c) (constant_values c)
             (equivalence_map c) (set_index c).

Definition set_constants (c : FilterCombiner) (set : nat)
    (l : list ExpressionValueInformation) : FilterCombiner :=
  mkCombiner (remaining_filters c) (stored_expressions c) (equivalence_set_map c)
             (<[set := l]> (constant_values c)) (equivalence_map c) (set_index c).

(** [constant_values.find(set)->second]; dereferencing [end()] is a failure. *)
Definition get_constants (c : FilterCombiner) (set : nat)
  : result (list ExpressionValueInformation) :=
  match constant_values c !! set with
  | Some l => Ok l
  | None => Throw OutOfBounds
  end.

(** [equivalence_map.find(set)->second] *)
Definition get_bucket (c : FilterCombiner) (set : nat) : result (list Expression) :=
  match equivalence_map c !! set with
  | Some l => Ok l
  | None => Throw OutOfBounds
  end.

(** [GetNode], lines 21-33: the stored copy of [expr], stored now if it was
    not. *)
Definition GetNode (c : FilterCombiner) (expr : Expression) : FilterCombiner * Expression :=
  if bool_decide (expr ∈ stored_expressions c) then (c, expr)
  else (mkCombiner (remaining_filters c) (expr :: stored_expressions c)
                   (equivalence_set_map c) (constant_values c) (equivalence_map c)
                   (set_index c), expr).

(** [GetEquivalenceSet], lines 35-49. *)
Definition GetEquivalenceSet (c : FilterCombiner) (expr : Expression)
  : result (FilterCombiner * nat) :=
  if bool_decide (expr ∈ stored_expressions c) then
    match expr_find (equivalence_set_map c) expr with
    | None =>
        let index := set_index c in
        Ok (mkCombiner (remaining_filters c) (stored_expressions c)
              (expr_assign (equivalence_set_map c) expr index)
              (match constant_values c !! index with
               | None => <[index := []]> (constant_values c)
               | Some _ => constant_values c
               end)
              (<[index := default [] (equivalence_map c !! index) ++ [expr]]>
                 (equivalence_map c))
              (S index),
            index)
    | Some index => Ok (c, index)
    end
  else Throw AssertionFailure.

(** [FindTransitiveFilter], lines 681-696: the filter found, if any, and
    the remaining filters without it. *)
Fixpoint FindTransitiveFilter_loop (expr : Expression) (remaining : list Expression)
  : option Expression * list Expression :=
  match remaining with
  | [] => (None, [])
  | f :: rest =>
      match f with
      | BoundComparison t _ rhs =>
          if Equals expr rhs && negb (bool_decide (t = COMPARE_NOTEQUAL))
          then (Some f, rest)
          else let '(r, rest') := FindTransitiveFilter_loop expr rest in (r, f :: rest')
      | _ => let '(r, rest') := FindTransitiveFilter_loop expr rest in (r, f :: rest')
      end
  end.

Definition FindTransitiveFilter (c : FilterCombiner) (expr : Expression)
  : FilterCombiner * option Expression :=
  if bool_decide (type expr = BOUND_COLUMN_REF) then
    let '(r, rest) := FindTransitiveFilter_loop expr (remaining_filters c) in
    (set_remaining c rest, r)
  else (c, None).

(** [FlipComparisionExpression]. Modelled from the spec: "flip the
    comparison if the scalar is on the left". *)
Definition FlipComparisionExpression (t : ExpressionType) : ExpressionType :=
  match t with
  | COMPARE_LESSTHAN => COMPARE_GREATERTHAN
  | COMPARE_GREATERTHAN => COMPARE_LESSTHAN
  | COMPARE_LESSTHANOREQUALTO => COMPARE_GREATERTHANOREQUALTO
  | COMPARE_GREATERTHANOREQUALTO => COMPARE_LESSTHANOREQUALTO
  | _ => t
  end.

(** *** AddTransitiveFilters, lines 588-674 *)

(** The loop over [right_constants], lines 611-659.  [filter] is the copy
    of the comparison that the loop may push into the remaining filters.
    It returns [left_constants], the remaining filters, [isSuccessful] and
    the result of an early [return], if any. *)
Fixpoint AddTransitiveFilters_loop (ctype : ExpressionType) (filter : Expression)
    (right_constants left_constants : list ExpressionValueInformation)
    (remaining : list Expression) (isSuccessful isInserted : bool)
  : result (list ExpressionValueInformation * list Expression * bool * option FilterResult) :=
  match right_constants with
  | [] => Ok (left_constants, remaining, isSuccessful, None)
  | right_constant :: rest =>
      let rtype := comparison_type right_constant in
      let derived : option (ExpressionType * bool) :=
        if bool_decide (rtype = COMPARE_EQUAL) then Some (ctype, false)
        else if (bool_decide (ctype = COMPARE_GREATERTHANOREQUALTO) && IsGreaterThan rtype)
                || (bool_decide (ctype = COMPARE_LESSTHANOREQUALTO) && IsLessThan rtype)
        then Some (rtype, true)
        else if (bool_decide (ctype = COMPARE_GREATERTHAN) && IsGreaterThan rtype)
                || (bool_decide (ctype = COMPARE_LESSTHAN) && IsLessThan rtype)
        then Some (ctype, true)
        else None in
      match derived with
      | None => (* we cannot add a new filter *)
          AddTransitiveFilters_loop ctype filter rest left_constants remaining
            isSuccessful isInserted
      | Some (info_type, retain) =>
          let remaining :=
            if retain && negb isInserted then remaining ++ [filter] else remaining in
          let isInserted := isInserted || retain in
          '(left_constants, r) ←
            AddConstantComparison left_constants (mkInfo (constant right_constant) info_type);
          if bool_decide (r = UNSATISFIABLE)
          then Ok (left_constants, remaining, isSuccessful, Some UNSATISFIABLE)
          else AddTransitiveFilters_loop ctype filter rest left_constants remaining
                 true isInserted
      end
  end.

(** [AddTransitiveFilters] on the comparison [cleft ctype cright].  The
    function calls itself on a filter taken from the remaining filters;
    [fuel] bounds the depth of these calls. *)
Fixpoint AddTransitiveFilters (fuel : nat) (c : FilterCombiner)
    (ctype : ExpressionType) (cleft cright : Expression)
  : result (FilterCombiner * FilterResult) :=
  match fuel with
  | O => Throw FuelExhausted
  | S fuel' =>
      if negb (IsGreaterThan ctype || IsLessThan ctype) then Throw AssertionFailure
      else
        (* get the LHS and RHS nodes *)
        let '(c, left_node) := GetNode c cleft in
        let '(c, right_node) := GetNode c cright in
        if Equals left_node right_node then Ok (c, UNSUPPORTED)
        else
          (* get the equivalence sets of the LHS and RHS *)
          '(c, left_equivalence_set) ← GetEquivalenceSet c left_node;
          '(c, right_equivalence_set) ← GetEquivalenceSet c right_node;
          if bool_decide (left_equivalence_set = right_equivalence_set)
          then Ok (c, SUCCESS)
          else
            left_constants ← get_constants c left_equivalence_set;
            right_constants ← get_constants c right_equivalence_set;
            '(left_constants, remaining, isSuccessful, early) ←
              AddTransitiveFilters_loop ctype (BoundComparison ctype cleft cright)
                right_constants left_constants (remaining_filters c) false false;
            let c := set_remaining (set_constants c left_equivalence_set left_constants)
                                   remaining in
            match early with
            | Some r => Ok (c, r)
            | None =>
                if isSuccessful : bool then
                  (* now check for remaining transitive filters from the left column *)
                  let '(c, transitive_filter) := FindTransitiveFilter c cleft in
                  match transitive_filter with
                  | None => Ok (c, SUCCESS)
                  | Some (BoundComparison t l r as f) =>
                      '(c, res) ← AddTransitiveFilters fuel' c t l r;
                      if bool_decide (res = UNSUPPORTED)
                      then Ok (set_remaining c (remaining_filters c ++ [f]), SUCCESS)
                      else Ok (c, SUCCESS)
                  | Some _ => Throw AssertionFailure
                  end
                else Ok (c, UNSUPPORTED)
            end
  end.

(** The loop of lines 509-513: every constant of the right bucket is added
    to the left bucket. *)
Fixpoint merge_constants (right_constant_bucket left_constant_bucket :
                            list ExpressionValueInformation)
  : result (list ExpressionValueInformation * option FilterResult) :=
  match right_constant_bucket with
  | [] => Ok (left_constant_bucket, None)
  | i :: rest =>
      '(left_constant_bucket, r) ← AddConstantComparison left_constant_bucket i;
      if bool_decide (r = UNSATISFIABLE) then Ok (left_constant_bucket, Some UNSATISFIABLE)
      else merge_constants rest left_constant_bucket
  end.

Section Engine.

(** What the combiner consumes from the surrounding engine as a black box:
    [Expression::IsFoldable], [Expression::HasParameter] and the value a
    foldable expression evaluates to. *)
Variable IsFoldable : Expression -> bool.
Variable HasParameter : Expression -> bool.
Variable scalar_value : Expression -> Value.

(** Modelled from the spec: "[EvaluateScalar(expr) → Value] (only when
    [expr.IsFoldable()])". *)
Definition EvaluateScalar (expr : Expression) : result Value :=
  if IsFoldable expr then Ok (scalar_value expr) else Throw AssertionFailure.

(** Lines 461-467 and 662-669: a transitive filter found in the remaining
    filters is tried, and put back when it is unsupported. *)
Definition try_transitive (fuel : nat) (c : FilterCombiner)
    (transitive_filter : option Expression) : result FilterCombiner :=
  match transitive_filter with
  | None => Ok c
  | Some (BoundComparison t l r as f) =>
      '(c, res) ← AddTransitiveFilters fuel c t l r;
      if bool_decide (res = UNSUPPORTED)
      then Ok (set_remaining c (remaining_filters c ++ [f]))
      else Ok c
  | Some _ => Throw AssertionFailure
  end.

(** [AddBoundComparisonFilter], lines 428-516. *)
Definition AddBoundComparisonFilter (fuel : nat) (c : FilterCombiner) (expr : Expression)
  : result (FilterCombiner * FilterResult) :=
  match expr with
  | BoundComparison ctype cleft cright =>
      if negb (bool_decide (ctype = COMPARE_LESSTHAN)
               || bool_decide (ctype = COMPARE_LESSTHANOREQUALTO)
               || bool_decide (ctype = COMPARE_GREATERTHAN)
               || bool_decide (ctype = COMPARE_GREATERTHANOREQUALTO)
               || bool_decide (ctype = COMPARE_EQUAL)
               || bool_decide (ctype = COMPARE_NOTEQUAL))
      then Ok (c, UNSUPPORTED)
      else
        let left_is_scalar := IsFoldable cleft in
        let right_is_scalar := IsFoldable cright in
        if left_is_scalar || right_is_scalar then
          (* comparison with scalar *)
          let '(c, node) := GetNode c (if left_is_scalar then cright else cleft) in
          '(c, equivalence_set) ← GetEquivalenceSet c node;
          let scalar := if left_is_scalar then cleft else cright in
          constant_value ← EvaluateScalar scalar;
          let info := mkInfo constant_value
                        (if left_is_scalar then FlipComparisionExpression ctype else ctype) in
          info_list ← get_constants c equivalence_set;
          '(info_list, ret) ← AddConstantComparison info_list info;
          let c := set_constants c equivalence_set info_list in
          let non_scalar := if left_is_scalar then cright else cleft in
          let '(c, transitive_filter) := FindTransitiveFilter c non_scalar in
          c ← try_transitive fuel c transitive_filter;
          Ok (c, ret)
        else if negb (bool_decide (ctype = COMPARE_EQUAL)) then
          (* comparison between two non-scalars *)
          if IsGreaterThan ctype || IsLessThan ctype
          then AddTransitiveFilters fuel c ctype cleft cright
          else Ok (c, UNSUPPORTED)
        else
          let '(c, left_node) := GetNode c cleft in
          let '(c, right_node) := GetNode c cright in
          if Equals left_node right_node then Ok (c, UNSUPPORTED)
          else
            '(c, left_equivalence_set) ← GetEquivalenceSet c left_node;
            '(c, right_equivalence_set) ← GetEquivalenceSet c right_node;
            if bool_decide (left_equivalence_set = right_equivalence_set)
            then Ok (c, SUCCESS)
            else
              (* add the right bucket into the left bucket *)
              left_bucket ← get_bucket c left_equivalence_set;
              right_bucket ← get_bucket c right_equivalence_set;
              let c := mkCombiner (remaining_filters c) (stored_expressions c)
                         (fold_left (fun m i => expr_assign m i left_equivalence_set)
                                    right_bucket (equivalence_set_map c))
                         (constant_values c)
                         (<[left_equivalence_set := left_bucket ++ right_bucket]>
                            (equivalence_map c))
                         (set_index c) in
              (* now add all constant values from the right bucket to the left bucket *)
              left_constant_bucket ← get_constants c left_equivalence_set;
              right_constant_bucket ← get_constants c right_equivalence_set;
              '(left_constant_bucket, early) ←
                merge_constants right_constant_bucket left_constant_bucket;
              let c := set_constants c left_equivalence_set left_constant_bucket in
              match early with
              | Some r => Ok (c, r)
              | None => Ok (c, SUCCESS)
              end
  | _ => Throw AssertionFailure
  end.

(** [AddFilter(Expression *expr)], lines 518-582. *)
Definition AddFilter_expr (fuel : nat) (c : FilterCombiner) (expr : Expression)
  : result (FilterCombiner * FilterResult) :=
  if HasParameter expr then Ok (c, UNSUPPORTED)
  else if IsFoldable expr then
    (* scalar condition, evaluate it *)
    v ← EvaluateScalar expr;
    result ← Value_CastAs_BOOLEAN v;
    if is_null result || (value_ result =? 0) then Ok (c, UNSATISFIABLE)
    else Ok (c, SUCCESS)
  else
    match expr with
    | BoundBetween input lower upper lower_inclusive upper_inclusive =>
        let left_is_scalar := IsFoldable lower in
        let right_is_scalar := IsFoldable upper in
        if left_is_scalar || right_is_scalar then
          let '(c, node) := GetNode c input in
          '(c, equivalence_set) ← GetEquivalenceSet c node;
          constant_value ← EvaluateScalar lower;
          let info := mkInfo constant_value
                        (if lower_inclusive then COMPARE_GREATERTHANOREQUALTO
                         else COMPARE_GREATERTHAN) in
          info_list ← get_constants c equivalence_set;
          '(info_list, _) ← AddConstantComparison info_list info;
          let c := set_constants c equivalence_set info_list in
          constant_value ← EvaluateScalar upper;
          let info := mkInfo constant_value
                        (if upper_inclusive then COMPARE_LESSTHANOREQUALTO
                         else COMPARE_LESSTHAN) in
          info_list ← get_constants c equivalence_set;
          '(info_list, ret) ← AddConstantComparison info_list info;
          Ok (set_constants c equivalence_set info_list, ret)
        else Ok (c, UNSUPPORTED)
    | BoundComparison _ _ _ => AddBoundComparisonFilter fuel c expr
    | _ => Ok (c, UNSUPPORTED)
    end.

(** [AddFilter(unique_ptr<Expression> expr)], lines 77-86. *)
Definition AddFilter (fuel : nat) (c : FilterCombiner) (expr : Expression)
  : result (FilterCombiner * FilterResult) :=
  '(c, result) ← AddFilter_expr fuel c expr;
  if bool_decide (result = UNSUPPORTED)
  then Ok (set_remaining c (remaining_filters c ++ [expr]), SUCCESS)
  else Ok (c, result).

(** A sequence of [AddFilter] calls on one combiner: the results of the
    calls, in order, and the combiner afterwards. *)
Fixpoint AddFilters (fuel : nat) (c : FilterCombiner) (exprs : list Expression)
  : result (FilterCombiner * list FilterResult) :=
  match exprs with
  | [] => Ok (c, [])
  | e :: rest =>
      '(c, r) ← AddFilter fuel c e;
      '(c, rs) ← AddFilters fuel c rest;
      Ok (c, r :: rs)
  end.

End Engine.

(** *** GenerateFilters and HasFilters, lines 88-158 *)

(** The loop over [constant_list] of lines 109-125 for the entry [entry]:
    [k] is the index of the head of [l]; [lower] and [upper] hold
    [lower_index] / [upper_index] with their inclusive flags ([None] for
    the initial -1); [acc] collects the comparisons passed to the
    callback. *)
Fixpoint GenerateFilters_constants (entry : Expression) (k : nat)
    (l : list ExpressionValueInformation) (lower upper : option (nat * bool))
    (acc : list Expression) : option (nat * bool) * option (nat * bool) * list Expression :=
  match l with
  | [] => (lower, upper, acc)
  | info :: l' =>
      let t := comparison_type info in
      if IsGreaterThan t then
        GenerateFilters_constants entry (S k) l'
          (Some (k, bool_decide (t = COMPARE_GREATERTHANOREQUALTO))) upper acc
      else if IsLessThan t then
        GenerateFilters_constants entry (S k) l' lower
          (Some (k, bool_decide (t = COMPARE_LESSTHANOREQUALTO))) acc
      else
        GenerateFilters_constants entry (S k) l' lower upper
          (acc ++ [BoundComparison t entry (BoundConstant (constant info))])
  end.

(** [constant_list[index]] *)
Definition constant_at (constant_list : list ExpressionValueInformation) (index : nat)
  : result ExpressionValueInformation :=
  match constant_list !! index with
  | Some info => Ok info
  | None => Throw OutOfBounds
  end.

(** Lines 100-146 for the entries [entries[i..]] of one equivalence set:
    what the callback receives. *)
Fixpoint GenerateFilters_entries (entries : list Expression)
    (constant_list : list ExpressionValueInformation) : result (list Expression) :=
  match entries with
  | [] => Ok []
  | entry :: later =>
      (* for each entry generate an equality expression comparing to each other *)
      let equalities := map (fun e => BoundComparison COMPARE_EQUAL entry e) later in
      (* for each entry also create a comparison with each constant *)
      let '(lower, upper, comparisons) :=
        GenerateFilters_constants entry 0 constant_list None None [] in
      bound ←
        (match lower, upper with
         | Some (lower_index, lower_inclusive), Some (upper_index, upper_inclusive) =>
             lo ← constant_at constant_list lower_index;
             up ← constant_at constant_list upper_index;
             Ok [BoundBetween entry (BoundConstant (constant lo))
                   (BoundConstant (constant up)) lower_inclusive upper_inclusive]
         | Some (lower_index, _), None =>
             lo ← constant_at constant_list lower_index;
             Ok [BoundComparison (comparison_type lo) entry (BoundConstant (constant lo))]
         | None, Some (upper_index, _) =>
             up ← constant_at constant_list upper_index;
             Ok [BoundComparison (comparison_type up) entry (BoundConstant (constant up))]
         | None, None => Ok []
         end);
      rest ← GenerateFilters_entries later constant_list;
      Ok (equalities ++ comparisons ++ bound ++ rest)
  end.

(** The loop over [equivalence_map], lines 95-147. *)
Fixpoint GenerateFilters_sets (c : FilterCombiner) (sets : list (nat * list Expression))
  : result (list Expression) :=
  match sets with
  | [] => Ok []
  | (equivalence_set, entries) :: sets' =>
      constant_list ← get_constants c equivalence_set;
      here ← GenerateFilters_entries entries constant_list;
      rest ← GenerateFilters_sets c sets';
      Ok (here ++ rest)
  end.

(** [GenerateFilters]: the filters passed to the callback, in order, and
    the combiner afterwards.  The sets are visited in the order in which
    the map lists them. *)
Definition GenerateFilters (c : FilterCombiner) : result (list Expression * FilterCombiner) :=
  generated ← GenerateFilters_sets c (map_to_list (equivalence_map c));
  Ok (remaining_filters c ++ generated, mkCombiner [] [] [] ∅ ∅ (set_index c)).

(** [HasFilters], lines 154-158: the callback sets [has_filters]. *)
Definition HasFilters (c : FilterCombiner) : result (bool * FilterCombiner) :=
  '(filters, c) ← GenerateFilters c;
  Ok (match filters with [] => false | _ :: _ => true end, c).

(** *** GenerateTableScanFilters, lines 262-418 *)

(** Modelled from the spec: "the row-id sentinel"
    [COLUMN_IDENTIFIER_ROW_ID], the largest [column_t]. *)
Definition COLUMN_IDENTIFIER_ROW_ID : Z := 2 ^ 64 - 1.

(** [c++] on a [char]. *)
Definition char_succ (c : ascii) : ascii :=
  ascii_of_N ((N_of_ascii c + 1) mod 256).

(** [s[s.size() - 1]++] *)
Fixpoint increment_last (s : string) : string :=
  match s with
  | EmptyString => EmptyString
  | String c EmptyString => String (char_succ c) EmptyString
  | String c s' => String c (increment_last s')
  end.

Definition increment_last_char (s : string) : result string :=
  match s with
  | EmptyString => Throw OutOfBounds
  | _ => Ok (increment_last s)
  end.

(** [v.str_value = s] on a copy of [v]. *)
Definition with_str_value (v : Value) (s : string) : Value :=
  mkValue (type_ v) (is_null v) (value_ v) s.

(** [like_string[0]]: the terminating zero on an empty string. *)
Definition first_char (s : string) : ascii :=
  match s with
  | EmptyString => zero
  | String c _ => c
  end.

Definition is_wildcard (c : ascii) : bool :=
  Ascii.eqb c "%" || Ascii.eqb c "_".

(** Lines 334-342: the characters before the first wildcard, and whether
    the loop ended without finding one. *)
Fixpoint like_prefix (like_string : string) : string * bool :=
  match like_string with
  | EmptyString => (EmptyString, true)
  | String c s' =>
      if is_wildcard c then (EmptyString, false)
      else let '(prefix, equality) := like_prefix s' in (String c prefix, equality)
  end.

(** The first loop, lines 265-298, over the entries of [constant_values]:
    the table filters and [equivalence_map] afterwards. *)
Fixpoint scan_constant_values (column_ids : list Z)
    (entries : list (nat * list ExpressionValueInformation))
    (tableFilters : list TableFilter) (equivalence_map : gmap nat (list Expression))
  : result (list TableFilter * gmap nat (list Expression)) :=
  match entries with
  | [] => Ok (tableFilters, equivalence_map)
  | (set, constant_list) :: entries' =>
      match constant_list with
      | [] => scan_constant_values column_ids entries' tableFilters equivalence_map
      | first :: _ =>
          let t := comparison_type first in
          if (bool_decide (t = COMPARE_EQUAL) || bool_decide (t = COMPARE_GREATERTHAN)
              || bool_decide (t = COMPARE_GREATERTHANOREQUALTO)
              || bool_decide (t = COMPARE_LESSTHAN)
              || bool_decide (t = COMPARE_LESSTHANOREQUALTO))
             && (TypeIsNumeric (type_ (constant first))
                 || bool_decide (type_ (constant first) = VARCHAR))
          then
            match equivalence_map !! set with
            | None => Throw OutOfBounds
            | Some [BoundColumnRef _ column_index] =>
                column_id ← vector_at column_ids column_index;
                if column_id =? COLUMN_IDENTIFIER_ROW_ID then Ok (tableFilters, equivalence_map)
                else
                  scan_constant_values column_ids entries'
                    (tableFilters ++
                       map (fun info => mkTableFilter (constant info) (comparison_type info)
                                          column_index) constant_list)
                    (delete set equivalence_map)
            | Some _ => scan_constant_values column_ids entries' tableFilters equivalence_map
            end
          else scan_constant_values column_ids entries' tableFilters equivalence_map
      end
  end.

(** [func.children[0]->expression_class == BOUND_COLUMN_REF &&
    func.children[1]->type == VALUE_CONSTANT], with the column index and
    the constant when it holds. *)
Definition column_and_constant (children : list Expression) : result (option (Z * Value)) :=
  c0 ← vector_at children 0;
  match c0 with
  | BoundColumnRef _ column_index =>
      c1 ← vector_at children 1;
      match c1 with
      | BoundConstant v => Ok (Some (column_index, v))
      | _ => Ok None
      end
  | _ => Ok None
  end.

(** [sort(in_values.begin(), in_values.end())] with [Value::operator<]. *)
Fixpoint sort_insert (v : Value) (sorted : list Value) : list Value :=
  match sorted with
  | [] => [v]
  | x :: rest => if Value_lt v x then v :: sorted else x :: sort_insert v rest
  end.
Definition sort_values (in_values : list Value) : list Value :=
  fold_right sort_insert [] in_values.

(** Lines 389-394: [is_consecutive] after the loop over the sorted values. *)
Fixpoint check_consecutive (in_values : list Value) : bool :=
  match in_values with
  | prev :: ((cur :: _) as rest) =>
      if Value_gt (Value_sub cur prev) (Value_Numeric INTEGER 1) || is_null prev
      then false
      else check_consecutive rest
  | _ => true
  end.

Definition constant_of (e : Expression) : result Value :=
  match e with
  | BoundConstant v => Ok v
  | _ => Throw AssertionFailure
  end.

(** How an iteration of the second loop ends: it falls through or
    [continue]s to the next index, or it [break]s. *)
Inductive LoopExit : Type := NextIteration | BreakLoop.

(** The body of the second loop, lines 301-414, on
    [remaining_filters[rem_fil_idx]]. *)
Definition scan_remaining_body (column_ids : list Z) (rem_fil_idx : nat)
    (remaining_filter : Expression) (tableFilters : list TableFilter)
    (remaining : list Expression)
  : result (LoopExit * list TableFilter * list Expression) :=
  match remaining_filter with
  | BoundFunction name children =>
      prefix_match ← (if String.eqb name "prefix" then column_and_constant children
                      else Ok None);
      match prefix_match with
      | Some (column_index, value) =>
          let like_string := str_value value in
          match like_string with
          | EmptyString => Ok (NextIteration, tableFilters, remaining)
          | _ =>
              let const_value := with_str_value value like_string in
              upper ← increment_last_char (str_value const_value);
              Ok (NextIteration,
                  tableFilters ++
                    [mkTableFilter const_value COMPARE_GREATERTHANOREQUALTO column_index;
                     mkTableFilter (with_str_value const_value upper) COMPARE_LESSTHAN
                                   column_index],
                  remaining)
          end
      | None =>
          like_match ← (if String.eqb name "~~" then column_and_constant children
                        else Ok None);
          match like_match with
          | Some (column_index, value) =>
              let like_string := str_value value in
              if is_wildcard (first_char like_string) then
                (* We have no prefix so nothing to pushdown *)
                Ok (BreakLoop, tableFilters, remaining)
              else
                let '(prefix, equality) := like_prefix like_string in
                let const_value := with_str_value value prefix in
                if equality : bool then
                  Ok (NextIteration,
                      tableFilters ++ [mkTableFilter const_value COMPARE_EQUAL column_index],
                      remaining)
                else
                  upper ← increment_last_char (str_value const_value);
                  Ok (NextIteration,
                      tableFilters ++
                        [mkTableFilter const_value COMPARE_GREATERTHANOREQUALTO column_index;
                         mkTableFilter (with_str_value const_value upper) COMPARE_LESSTHAN
                                       column_index],
                      remaining)
          | None => Ok (NextIteration, tableFilters, remaining)
          end
      end
  | BoundOperator COMPARE_IN children =>
      if Z.of_nat (length children) >? 1 then
        c0 ← vector_at children 0;
        match c0 with
        | BoundColumnRef _ column_index =>
            column_id ← vector_at column_ids column_index;
            if column_id =? COLUMN_IDENTIFIER_ROW_ID
            then Ok (BreakLoop, tableFilters, remaining)
            else
              (* check if all children are const expr *)
              let children_constant :=
                forallb (fun e => bool_decide (type e = VALUE_CONSTANT)) (drop 1 children) in
              if children_constant then
                fst_const_value_expr ← vector_at children 1;
                fst_value ← constant_of fst_const_value_expr;
                (* only for integers *)
                if bool_decide (type_ fst_value = BIGINT)
                   || bool_decide (type_ fst_value = INTEGER)
                   || bool_decide (type_ fst_value = SMALLINT)
                   || bool_decide (type_ fst_value = TINYINT)
                   || bool_decide (type_ fst_value = HUGEINT)
                then
                  in_values ← mapM (M := result) constant_of (drop 1 children);
                  let in_values := sort_values in_values in
                  let is_consecutive := check_consecutive in_values in
                  match head in_values, last in_values with
                  | Some front, Some back =>
                      if is_consecutive then
                        Ok (NextIteration,
                            tableFilters ++
                              [mkTableFilter front COMPARE_GREATERTHANOREQUALTO column_index;
                               mkTableFilter back COMPARE_LESSTHANOREQUALTO column_index],
                            delete rem_fil_idx remaining)
                      else Ok (NextIteration, tableFilters, remaining)
                  | _, _ => Ok (NextIteration, tableFilters, remaining)
                  end
                else Ok (NextIteration, tableFilters, remaining)
              else Ok (NextIteration, tableFilters, remaining)
        | _ => Ok (NextIteration, tableFilters, remaining)
        end
      else Throw AssertionFailure
  | _ =>
      if bool_decide (type remaining_filter = COMPARE_IN) then Throw AssertionFailure
      else Ok (NextIteration, tableFilters, remaining)
  end.

(** The second loop, lines 300-415, from index [rem_fil_idx] on; [fuel]
    bounds the number of iterations. *)
Fixpoint scan_remaining_filters (fuel : nat) (column_ids : list Z) (rem_fil_idx : nat)
    (tableFilters : list TableFilter) (remaining : list Expression)
  : result (list TableFilter * list Expression) :=
  match fuel with
  | O => Throw FuelExhausted
  | S fuel' =>
      match remaining !! rem_fil_idx with
      | None => Ok (tableFilters, remaining)
      | Some remaining_filter =>
          '(exit, tableFilters, remaining) ←
            scan_remaining_body column_ids rem_fil_idx remaining_filter tableFilters remaining;
          match exit with
          | BreakLoop => Ok (tableFilters, remaining)
          | NextIteration =>
              scan_remaining_filters fuel' column_ids (S rem_fil_idx) tableFilters remaining
          end
      end
  end.

(** [GenerateTableScanFilters]: the table filters and the combiner
    afterwards.  The entries of [constant_values] are visited in the order
    in which the map lists them. *)
Definition GenerateTableScanFilters (column_ids : list Z) (c : FilterCombiner)
  : result (list TableFilter * FilterCombiner) :=
  '(tableFilters, equivalence_map) ←
    scan_constant_values column_ids (map_to_list (constant_values c)) []
      (equivalence_map c);
  '(tableFilters, remaining) ←
    scan_remaining_filters (S (length (remaining_filters c))) column_ids 0 tableFilters
      (remaining_filters c);
  Ok (tableFilters,
      mkCombiner remaining (stored_expressions c) (equivalence_set_map c)
                 (constant_values c) equivalence_map (set_index c)).

(** *** A small engine for the examples

    An instance of the three black boxes of section [Engine]: an
    expression is foldable when it has no column reference and no
    parameter; constants evaluate to themselves and a comparison of two
    foldable operands to its truth value. *)

Fixpoint example_HasParameter (e : Expression) : bool :=
  match e with
  | BoundParameter _ => true
  | BoundColumnRef _ _ | BoundConstant _ => false
  | BoundComparison _ l r => example_HasParameter l || example_HasParameter r
  | BoundBetween i l u _ _ =>
      example_HasParameter i || example_HasParameter l || example_HasParameter u
  | BoundConjunction _ cs | BoundOperator _ cs | BoundFunction _ cs =>
      existsb example_HasParameter cs
  end.

Fixpoint example_IsFoldable (e : Expression) : bool :=
  match e with
  | BoundParameter _ | BoundColumnRef _ _ => false
  | BoundConstant _ => true
  | BoundComparison _ l r => example_IsFoldable l && example_IsFoldable r
  | BoundBetween i l u _ _ =>
      example_IsFoldable i && example_IsFoldable l && example_IsFoldable u
  | BoundConjunction _ cs | BoundOperator _ cs | BoundFunction _ cs =>
      forallb example_IsFoldable cs
  end.

Definition compare_values (t : ExpressionType) (a b : Value) : Value :=
  if is_null a || is_null b then Value_null_of BOOLEAN
  else match t with
       | COMPARE_EQUAL => Value_Boolean (Value_eq a b)
       | COMPARE_NOTEQUAL => Value_Boolean (Value_ne a b)
       | COMPARE_LESSTHAN => Value_Boolean (Value_lt a b)
       | COMPARE_GREATERTHAN => Value_Boolean (Value_gt a b)
       | COMPARE_LESSTHANOREQUALTO => Value_Boolean (Value_le a b)
       | COMPARE_GREATERTHANOREQUALTO => Value_Boolean (Value_ge a b)
       | _ => Value_null_of BOOLEAN
       end.

Fixpoint example_scalar_value (e : Expression) : Value :=
  match e with
  | BoundConstant v => v
  | BoundComparison t l r =>
      compare_values t (example_scalar_value l) (example_scalar_value r)
  | _ => Value_default
  end.

Definition example_AddFilters : nat -> FilterCombiner -> list Expression ->
                                result (FilterCombiner * list FilterResult) :=
  AddFilters example_IsFoldable example_HasParameter example_scalar_value.

End Combiner.

(** ** Properties stated over the window operator *)

Module WindowLaws.
Import Window.

(** Row [k] and the row before it agree on the sort columns
    [start .. end_), as [EqualsSubset] decides it; false on the first row. *)
Definition row_equal_on (rows : ChunkCollection) (k : nat) (start end_ : Z) : bool :=
  match k with
  | O => false
  | S j =>
      match rows !! j, rows !! k with
      | Some p, Some r =>
          match EqualsSubset p r start end_ with
          | Ok true => true
          | _ => false
          end
      | _, _ => false
      end
  end.

(** Row [k] continues the partition of the row before it. *)
Definition same_partition (wexpr : WindowExpression) (rows : ChunkCollection) (k : nat)
  : bool := row_equal_on rows k 0 (partitions wexpr).

(** Row [k] is a peer of the row before it. *)
Definition peer (wexpr : WindowExpression) (rows : ChunkCollection) (k : nat) : bool :=
  same_partition wexpr rows k
  && row_equal_on rows k (partitions wexpr) (to_size_t (partitions wexpr + orders wexpr)).






(** The window functions whose result is a function of the frame alone. *)
Definition frame_function (t : ExpressionType) : bool :=
  match t with
  | WINDOW_SUM | WINDOW_MIN | WINDOW_MAX | WINDOW_AVG | WINDOW_COUNT_STAR
  | WINDOW_FIRST_VALUE | WINDOW_LAST_VALUE => true
  | _ => false
  end.

(** The value that lines 305-349 compute for the frame
    [window_start, window_end). *)
Definition frame_value (wexpr : WindowExpression) (payload_collection : ChunkCollection)
    (tree : option WindowSegmentTree) (window_start window_end : Z) : result Value :=
  if window_start >=? window_end then Ok Value_default
  else match type wexpr with
       | WINDOW_SUM | WINDOW_MIN | WINDOW_MAX | WINDOW_AVG =>
           match tree with
           | None => Throw AssertionFailure
           | Some t =>
               '(_, res) ← Compute t (to_size_t window_start) (to_size_t window_end);
               Ok res
           end
       | WINDOW_COUNT_STAR =>
           Ok (Value_Numeric (return_type wexpr) (to_ssize_t (window_end - window_start)))
       | WINDOW_FIRST_VALUE => GetValue payload_collection 0 (to_size_t window_start)
       | WINDOW_LAST_VALUE => GetValue payload_collection 0 (to_size_t (window_end - 1))
       | _ => Throw (NotImplementedException "Window aggregate type")
       end.

(** The fields of a segment tree that [Compute] does not write. *)
Definition tree_shape (t : WindowSegmentTree)
  : ExpressionType * LogicalType * Z * list (list Value) * option ChunkCollection :=
  (window_type t, payload_type t, fanout t, levels t, input_ref t).

(** Example inputs. *)
Definition bigint (n : Z) : Value := Value_Numeric BIGINT n.
Definition keyed_rows (rows : list (string * Z)) : ChunkCollection :=
  map (fun r => [Value_String (fst r); bigint (snd r)]) rows.

(** The segment tree of the operator (fanout 16) over a BIGINT payload,
    and the result of one [Compute] on it. *)
Definition build_tree (t : ExpressionType) (payload : list Value) : result WindowSegmentTree :=
  Construct (WindowSegmentTree_new t BIGINT 16) (column_of payload).

Definition tree_result (t : ExpressionType) (payload : list Value) (begin end_ : Z)
  : result Value :=
  tree ← build_tree t payload;
  '(_, v) ← Compute tree begin end_;
  Ok v.

(** The payloads 0, 1, ..., 16 and 257 ones. *)
Definition payload_0_to_16 : list Value := map (fun n => bigint (Z.of_nat n)) (seq 0 17).
Definition payload_257_ones : list Value := repeat (bigint 1) 257.

(** The frame ROWS BETWEEN UNBOUNDED PRECEDING AND 5 PRECEDING. *)
Definition wexpr_5_preceding : WindowExpression :=
  mkWindowExpression 0 1 WINDOW_COUNT_STAR BIGINT 0
    UNBOUNDED_PRECEDING EXPR_PRECEDING None (Some true).

(** The rows A 10, A 20, A 20, B 5 of the specification's scenarios. *)
Definition scenario_rows : ChunkCollection :=
  keyed_rows [("A", 10); ("A", 20); ("A", 20); ("B", 5)]%string.
Definition scenario_payload : ChunkCollection := column_of (map bigint [10; 20; 20; 5]).

(** The state of the sweep after [k] rows of a frame function with the
    frame UNBOUNDED PRECEDING .. UNBOUNDED FOLLOWING: the output has [k]
    values, the last of them is the value of the current partition's
    frame, and two neighbours of one partition have the same value. *)
Definition unbounded_invariant (wexpr : WindowExpression)
    (rows payload : ChunkCollection) (k : nat) (st : SweepState) : Prop :=
  length (output st) = k /\
  (k <> 0%nat ->
   rows !! (k - 1)%nat = Some (row_prev (bounds st)) /\
   exists v, output st !! (k - 1)%nat = Some v /\
     frame_value wexpr payload (segment_tree st)
       (to_ssize_t (partition_start (bounds st)))
       (to_ssize_t (partition_end (bounds st))) = Ok v) /\
  (forall i, (S i < k)%nat -> same_partition wexpr rows (S i) = true ->
     output st !! i = output st !! S i).





Definition wexpr_dense_rank : WindowExpression :=
  mkWindowExpression 1 1 WINDOW_RANK_DENSE BIGINT 0
    UNBOUNDED_PRECEDING CURRENT_ROW_RANGE None None.
Definition wexpr_rank_1_preceding : WindowExpression :=
  mkWindowExpression 1 1 WINDOW_RANK BIGINT 0
    UNBOUNDED_PRECEDING EXPR_PRECEDING None (Some true).

(** The rows A 10, A 10, A 20. *)
Definition tied_rows : ChunkCollection :=
  keyed_rows [("A", 10); ("A", 10); ("A", 20)]%string.

End WindowLaws.

(** ** Properties stated over the filter combiner *)

Module CombinerLaws.
Import Combiner.

(** The six comparisons the combiner absorbs. *)
Definition is_comparison (t : ExpressionType) : bool :=
  match t with
  | COMPARE_EQUAL | COMPARE_NOTEQUAL | COMPARE_LESSTHAN | COMPARE_GREATERTHAN
  | COMPARE_LESSTHANOREQUALTO | COMPARE_GREATERTHANOREQUALTO => true
  | _ => false
  end.

(** [holds v t c]: the value [v] satisfies the bound "[t] [c]" on a row.
    A comparison with NULL, or of a number with a string, is not true. *)
Definition holds (v : Value) (t : ExpressionType) (c : Value) : bool :=
  match t, Value_compare v c with
  | COMPARE_EQUAL, Some Eq => true
  | COMPARE_NOTEQUAL, Some Lt | COMPARE_NOTEQUAL, Some Gt => true
  | COMPARE_LESSTHAN, Some Lt => true
  | COMPARE_GREATERTHAN, Some Gt => true
  | COMPARE_LESSTHANOREQUALTO, Some Lt | COMPARE_LESSTHANOREQUALTO, Some Eq => true
  | COMPARE_GREATERTHANOREQUALTO, Some Gt | COMPARE_GREATERTHANOREQUALTO, Some Eq => true
  | _, _ => false
  end.

Definition holds_info (v : Value) (info : ExpressionValueInformation) : bool :=
  holds v (comparison_type info) (constant info).

(** A value passes as a filter: it casts to a boolean that is neither NULL
    nor false. *)
Definition truthy (v : Value) : bool :=
  match Value_CastAs_BOOLEAN v with
  | Ok b => negb (is_null b || (value_ b =? 0))
  | Throw _ => false
  end.

(** Two values that no bound tells apart. *)
Definition same_value (a b : Value) : Prop :=
  forall t c, holds a t c = holds b t c.

Section Semantics.

Variable IsFoldable : Expression -> bool.
Variable HasParameter : Expression -> bool.
Variable scalar_value : Expression -> Value.

(** An assignment of values to the non-scalar expressions. *)
Variable assignment : Expression -> Value.

(** The value of an operand: the scalar it folds to, or what the
    assignment gives it. *)
Definition operand_value (e : Expression) : Value :=
  if IsFoldable e then scalar_value e else assignment e.

(** The truth of a comparison or BETWEEN from the values of its operands;
    any other predicate is an atom of the assignment. *)
Definition structural (e : Expression) : bool :=
  match e with
  | BoundComparison t l r =>
      if is_comparison t then holds (operand_value l) t (operand_value r)
      else truthy (assignment e)
  | BoundBetween i lo up lower_inclusive upper_inclusive =>
      holds (operand_value i)
            (if lower_inclusive then COMPARE_GREATERTHANOREQUALTO else COMPARE_GREATERTHAN)
            (operand_value lo)
      && holds (operand_value i)
               (if upper_inclusive then COMPARE_LESSTHANOREQUALTO else COMPARE_LESSTHAN)
               (operand_value up)
  | _ => truthy (assignment e)
  end.

(** The assignment satisfies the predicate [e]: a parameter-free foldable
    predicate is the scalar it evaluates to. *)
Definition satisfies (e : Expression) : bool :=
  if HasParameter e then structural e
  else if IsFoldable e then truthy (scalar_value e)
  else structural e.

(** What an inequality kept in the remaining filters says. *)
Definition comparison_holds (f : Expression) : Prop :=
  match f with
  | BoundComparison t l r =>
      IsGreaterThan t || IsLessThan t = true ->
      holds (operand_value l) t (operand_value r) = true
  | _ => True
  end.

(** The combiner agrees with an assignment: expressions of one
    equivalence set have the same value, the constant bounds of a set hold
    of its expressions, the remaining inequalities hold, and the set
    indices in use are below [set_index]. *)
Record consistent (c : FilterCombiner) : Prop := mkConsistent {
  cons_set : forall e e' s,
    expr_find (equivalence_set_map c) e = Some s ->
    expr_find (equivalence_set_map c) e' = Some s ->
    same_value (operand_value e) (operand_value e');
  cons_bucket : forall s es e e',
    equivalence_map c !! s = Some es -> e ∈ es ->
    expr_find (equivalence_set_map c) e' = Some s ->
    same_value (operand_value e) (operand_value e');
  cons_bounds : forall e s cs info,
    expr_find (equivalence_set_map c) e = Some s ->
    constant_values c !! s = Some cs -> info ∈ cs ->
    holds_info (operand_value e) info = true;
  cons_remaining : Forall comparison_holds (remaining_filters c);
  cons_fresh_set : forall e s,
    expr_find (equivalence_set_map c) e = Some s -> (s < set_index c)%nat;
  cons_fresh_bucket : forall s,
    is_Some (equivalence_map c !! s) -> (s < set_index c)%nat;
  cons_fresh_bounds : forall s,
    is_Some (constant_values c !! s) -> (s < set_index c)%nat
}.

End Semantics.

(** Example inputs. *)
Definition int_constant (z : Z) : Expression := BoundConstant (Value_Numeric INTEGER z).
Definition string_constant (s : string) : Expression := BoundConstant (Value_String s).
Definition column (i : Z) : Expression := BoundColumnRef 0 i.
Definition like (c : Expression) (pattern : string) : Expression :=
  BoundFunction "~~" [c; string_constant pattern].
Definition in_list (c : Expression) (t : LogicalType) (zs : list Z) : Expression :=
  BoundOperator COMPARE_IN (c :: map (fun z => BoundConstant (Value_Numeric t z)) zs).
Definition with_remaining (remaining : list Expression) : FilterCombiner :=
  mkCombiner remaining [] [] ∅ ∅ 0%nat.

(** A bound of the <-family on [U] and one of the >-family on [L]. *)
Definition upper_bound (U : Value) (strict : bool) : ExpressionValueInformation :=
  mkInfo U (if strict then COMPARE_LESSTHAN else COMPARE_LESSTHANOREQUALTO).
Definition lower_bound (L : Value) (strict : bool) : ExpressionValueInformation :=
  mkInfo L (if strict then COMPARE_GREATERTHAN else COMPARE_GREATERTHANOREQUALTO).

(** What the specification's truth table gives for such a pair:
    "unsatisfiable iff lower > upper (or equal with any side strict); else
    prune nothing". *)
Definition opposite_bounds_table (U L : Value) (strict_u strict_l : bool)
  : ValueComparisonResult :=
  if Value_gt L U || (Value_eq L U && (strict_u || strict_l))
  then UNSATISFIABLE_CONDITION else PRUNE_NOTHING.



(** The least and the greatest of the integers [z :: zs]. *)
Definition minimum (z : Z) (zs : list Z) : Z := fold_right Z.min z zs.
Definition maximum (z : Z) (zs : list Z) : Z := fold_right Z.max z zs.


Definition integer_type (t : LogicalType) : bool :=
  match t with
  | BIGINT | INTEGER | SMALLINT | TINYINT | HUGEINT => true
  | _ => false
  end.


(** Every field of the combiner that [GenerateFilters] clears is empty. *)
Definition cleared (c : FilterCombiner) : Prop :=
  remaining_filters c = [] /\ stored_expressions c = [] /\
  equivalence_set_map c = [] /\ constant_values c = ∅ /\ equivalence_map c = ∅.

(** Whoever has an equivalence set listed in [equivalence_map] also has its
    list of constants, as [GetEquivalenceSet] arranges. *)
Definition sets_have_constants (c : FilterCombiner) : Prop :=
  forall s, is_Some (equivalence_map c !! s) -> is_Some (constant_values c !! s).

(** The combiner after the filters [a = 5] and [b ~~ 'abc%']. *)
Definition example_combiner : FilterCombiner :=
  mkCombiner [like (column 1) "abc%"] [column 0] [(column 0, 0%nat)]
    {[ 0%nat := [mkInfo (Value_Numeric INTEGER 5) COMPARE_EQUAL] ]}
    {[ 0%nat := [column 0] ]} 1.


(** What [Value_compare] looks at in a value: nothing in a NULL, the
    number or the string otherwise. *)
Inductive ValueKey : Type :=
  | KeyNone
  | KeyNumber (z : Z)
  | KeyString (s : string).

Definition value_key (v : Value) : ValueKey :=
  if is_null v then KeyNone
  else match type_ v with
       | SQLNULL => KeyNone
       | VARCHAR => KeyString (str_value v)
       | _ => KeyNumber (value_ v)
       end.

Definition key_compare (a b : ValueKey) : option comparison :=
  match a, b with
  | KeyNumber x, KeyNumber y => Some (x ?= y)
  | KeyString s, KeyString t => Some (String.compare s t)
  | _, _ => None
  end.

End CombinerLaws.

(** ** More properties stated over the window operator *)

Module SweepLaws.
Import Window WindowLaws.

(** The first row of the partition of row [k]: row [k] itself when it does
    not continue the partition of the row before it. *)
Fixpoint partition_first (wexpr : WindowExpression) (rows : ChunkCollection) (k : nat)
  : nat :=
  match k with
  | O => O
  | S j => if same_partition wexpr rows k then partition_first wexpr rows j else k
  end.

(** What the binary search compares: no value of the first [comp_cols]
    columns of row [m] is greater than the value of [row] in that column
    (the inner [for] of [BinarySearchRightmost]). *)
Definition not_greater (input : ChunkCollection) (row : list Value) (comp_cols m : Z)
  : result bool :=
  row_m ← GetRow input m;
  less_than_equals_loop (Z.to_nat comp_cols) row_m row 0.

(** ROW_NUMBER over the rows A 10, A 20, A 20, B 5, partitioned by the
    first column. *)
Definition wexpr_row_number : WindowExpression :=
  mkWindowExpression 1 1 WINDOW_ROW_NUMBER BIGINT 0
    UNBOUNDED_PRECEDING CURRENT_ROW_ROWS None None.

(** FIRST_VALUE over the same rows, with the frame ROWS BETWEEN UNBOUNDED
    PRECEDING AND CURRENT ROW. *)
Definition wexpr_first_value : WindowExpression :=
  mkWindowExpression 1 1 WINDOW_FIRST_VALUE BIGINT 1
    UNBOUNDED_PRECEDING CURRENT_ROW_ROWS None None.

End SweepLaws.

(** ** The segment tree on a range inside one group *)

Module TreeLaws.
Import Window.

(** Two trees with the same aggregate function, accumulator and input;
    their fanout and upper levels may differ. *)
Definition same_accumulator (a b : WindowSegmentTree) : Prop :=
  window_type a = window_type b /\ payload_type a = payload_type b /\
  aggregate a = aggregate b /\ n_aggregated a = n_aggregated b /\
  input_ref a = input_ref b.

(** The value that [Compute] returns. *)
Definition Compute_value (t : WindowSegmentTree) (begin end_ : Z) : result Value :=
  '(_, v) ← Compute t begin end_;
  Ok v.

End TreeLaws.

(** ** More properties stated over the filter combiner *)

Module BoundLaws.
Import Combiner CombinerLaws.

(** The number of bounds of a list whose comparison is of the family
    [f]. *)
Definition family_count (f : ExpressionType -> bool)
    (l : list ExpressionValueInformation) : nat :=
  length (List.filter (fun x => f (comparison_type x)) l).

(** A list of bounds holds at most one lower bound ([>] or [>=]), at most
    one upper bound ([<] or [<=]) and at most one equality. *)
Definition bounds_unique (l : list ExpressionValueInformation) : Prop :=
  (family_count IsGreaterThan l <= 1)%nat /\
  (family_count IsLessThan l <= 1)%nat /\
  (family_count (fun t => bool_decide (t = COMPARE_EQUAL)) l <= 1)%nat.

End BoundLaws.

(** ** Zonemap checks: filter_combiner.cpp, lines 160-260 *)

Module Zonemap.
Import Combiner.

(** [checks] (a [gmap] here) maps a column id to the least and the
    greatest constant seen for it; [not_constants] (a [gset]) holds the
    column ids compared with something that is not a constant.

    Lines 182-193 and 207-218: the constant [value] widens the pair of the
    column. *)
Definition widen_check (checks : gmap Z (Value * Value)) (column_id : Z) (value : Value)
  : gmap Z (Value * Value) :=
  match checks !! column_id with
  | None => <[column_id := (value, value)]> checks
  | Some (first, second) =>
      let first := if Value_gt first value then value else first in
      let second := if Value_lt second value then value else second in
      <[column_id := (first, second)]> checks
  end.

(** The loop over [children[1..]] of the COMPARE_IN case, lines 179-196. *)
Fixpoint in_children_loop (column_ids : list Z) (column_index : Z)
    (children : list Expression) (checks : gmap Z (Value * Value)) (not_constants : gset Z)
  : result (gmap Z (Value * Value) * gset Z) :=
  match children with
  | [] => Ok (checks, not_constants)
  | child :: children' =>
      column_id ← vector_at column_ids column_index;
      match child with
      | BoundConstant value =>
          in_children_loop column_ids column_index children'
            (widen_check checks column_id value) not_constants
      | _ =>
          (* a comparison that is not with a constant *)
          Ok (checks, not_constants ∪ {[ column_id ]})
      end
  end.

(** A [switch] case whose cast does not fit the expression. *)
Definition other_class (t : ExpressionType) (st : gmap Z (Value * Value) * gset Z)
  : result (gmap Z (Value * Value) * gset Z) :=
  match t with
  | CONJUNCTION_OR | CONJUNCTION_AND | COMPARE_IN
  | COMPARE_EQUAL | COMPARE_LESSTHAN | COMPARE_LESSTHANOREQUALTO
  | COMPARE_GREATERTHANOREQUALTO | COMPARE_GREATERTHAN => Throw AssertionFailure
  | _ => Ok st
  end.

(** [FindZonemapChecks], lines 160-237, on the pair of [checks] and
    [not_constants]. *)
Fixpoint FindZonemapChecks (column_ids : list Z) (filter : Expression)
    (st : gmap Z (Value * Value) * gset Z) {struct filter}
  : result (gmap Z (Value * Value) * gset Z) :=
  match filter with
  | BoundConjunction t children =>
      if bool_decide (t = CONJUNCTION_OR) || bool_decide (t = CONJUNCTION_AND) then
        (fix children_loop (cs : list Expression) (st : gmap Z (Value * Value) * gset Z)
           : result (gmap Z (Value * Value) * gset Z) :=
           match cs with
           | [] => Ok st
           | child :: cs' =>
               st ← FindZonemapChecks column_ids child st;
               children_loop cs' st
           end) children st
      else other_class t st
  | BoundOperator t children =>
      if bool_decide (t = COMPARE_IN) then
        c0 ← vector_at children 0;
        match c0 with
        | BoundColumnRef _ column_index =>
            in_children_loop column_ids column_index (drop 1 children) st.1 st.2
        | _ => Ok st
        end
      else other_class t st
  | BoundComparison t cleft cright =>
      if bool_decide (t = COMPARE_EQUAL) || bool_decide (t = COMPARE_LESSTHAN)
         || bool_decide (t = COMPARE_LESSTHANOREQUALTO)
         || bool_decide (t = COMPARE_GREATERTHANOREQUALTO)
         || bool_decide (t = COMPARE_GREATERTHAN)
      then
        match cleft, cright with
        | BoundColumnRef _ column_index, BoundConstant value =>
            column_id ← vector_at column_ids column_index;
            Ok (widen_check st.1 column_id value, st.2)
        | BoundColumnRef _ column_index, _ =>
            (* a comparison that is not with a constant *)
            column_id ← vector_at column_ids column_index;
            Ok (st.1, st.2 ∪ {[ column_id ]})
        | _, _ => Ok st
        end
      else other_class t st
  | _ => Ok st
  end.

(** The first loop of [GenerateZonemapChecks], lines 245-247. *)
Fixpoint find_all (column_ids : list Z) (filters : list Expression)
    (st : gmap Z (Value * Value) * gset Z) : result (gmap Z (Value * Value) * gset Z) :=
  match filters with
  | [] => Ok st
  | filter :: filters' =>
      st ← FindZonemapChecks column_ids filter st;
      find_all column_ids filters' st
  end.

(** Lines 252-254: the columns of the pushed filters are erased. *)
Fixpoint erase_pushed (column_ids : list Z) (pushed_filters : list TableFilter)
    (checks : gmap Z (Value * Value)) : result (gmap Z (Value * Value)) :=
  match pushed_filters with
  | [] => Ok checks
  | pushed_filter :: pushed' =>
      column_id ← vector_at column_ids (tf_column_index pushed_filter);
      erase_pushed column_ids pushed' (delete column_id checks)
  end.

(** Lines 255-258: two table filters for a check. *)
Definition check_filters (check : Z * (Value * Value)) : list TableFilter :=
  [mkTableFilter check.2.1 COMPARE_GREATERTHANOREQUALTO check.1;
   mkTableFilter check.2.2 COMPARE_LESSTHANOREQUALTO check.1].

(** [GenerateZonemapChecks], lines 239-260.  The checks are listed in the
    order in which the map lists them. *)
Definition GenerateZonemapChecks (column_ids : list Z) (pushed_filters : list TableFilter)
    (c : FilterCombiner) : result (list TableFilter) :=
  '(checks, not_constants) ← find_all column_ids (remaining_filters c) (∅, ∅);
  let checks := set_fold (fun not_constant m => delete not_constant m) checks not_constants in
  checks ← erase_pushed column_ids pushed_filters checks;
  Ok (flat_map check_filters (map_to_list checks)).

End Zonemap.

(** ** What GenerateFilters emits *)

Module GeneratedLaws.
Import Combiner CombinerLaws.

Section Generated.

Variable IsFoldable : Expression -> bool.
Variable scalar_value : Expression -> Value.
Variable assignment : Expression -> Value.

(** The members of a bucket are equal on the row, a bucket of one member
    apart (nothing is known about a lone member). *)
Definition bucket_equal (es : list Expression) : Prop :=
  (exists x, es = [x]) \/
  forall x y, x ∈ es -> y ∈ es ->
    holds (operand_value IsFoldable scalar_value assignment x) COMPARE_EQUAL
          (operand_value IsFoldable scalar_value assignment y) = true.

(** What [GenerateFilters] reads holds on the row: the members of every
    bucket of [equivalence_map] are equal, and satisfy the bounds that
    [constant_values] lists under the index of the bucket. *)
Definition buckets_hold (c : FilterCombiner) : Prop :=
  (forall s es, equivalence_map c !! s = Some es -> bucket_equal es) /\
  (forall s es cs e info,
     equivalence_map c !! s = Some es -> constant_values c !! s = Some cs ->
     e ∈ es -> info ∈ cs ->
     holds_info (operand_value IsFoldable scalar_value assignment e) info = true).

(** Each member of a list is equal, on the row, to the members after it. *)
Fixpoint pairs_hold (es : list Expression) : Prop :=
  match es with
  | [] => True
  | x :: es' =>
      Forall (fun y => holds (operand_value IsFoldable scalar_value assignment x)
                         COMPARE_EQUAL
                         (operand_value IsFoldable scalar_value assignment y) = true) es'
      /\ pairs_hold es'
  end.

(** A comparison or BETWEEN whose operands have values on the row that
    make it true. *)
Definition implied (g : Expression) : bool :=
  match g with
  | BoundComparison t l r =>
      holds (operand_value IsFoldable scalar_value assignment l) t
            (operand_value IsFoldable scalar_value assignment r)
  | BoundBetween i lo up lower_inclusive upper_inclusive =>
      holds (operand_value IsFoldable scalar_value assignment i)
            (if lower_inclusive then COMPARE_GREATERTHANOREQUALTO else COMPARE_GREATERTHAN)
            (operand_value IsFoldable scalar_value assignment lo)
      && holds (operand_value IsFoldable scalar_value assignment i)
               (if upper_inclusive then COMPARE_LESSTHANOREQUALTO else COMPARE_LESSTHAN)
               (operand_value IsFoldable scalar_value assignment up)
  | _ => false
  end.

(** What [lower_index] / [upper_index] and the inclusive flag say of the
    value [v]: the index is in [constant_list] and [v] is within the bound
    found there, read as [inclusive] or [strict] after the flag. *)
Definition index_holds (v : Value) (constant_list : list ExpressionValueInformation)
    (strict inclusive : ExpressionType) (found : option (nat * bool)) : Prop :=
  forall i flag, found = Some (i, flag) ->
    exists info, constant_list !! i = Some info /\
      holds v (comparison_type info) (constant info) = true /\
      holds v (if flag then inclusive else strict) (constant info) = true.

End Generated.

End GeneratedLaws.

(** ** The first loop of GenerateTableScanFilters *)

Module ScanLaws.
Import Combiner CombinerLaws.

(** A table filter that the first loop took from the combiner: its
    constant and comparison are listed in [constant_values] under a set
    whose bucket in [equivalence_map] is one column reference, to the
    column of the filter, and the loop has erased that bucket ([left] is
    the map that the loop leaves). *)
Definition pushed (constant_values : gmap nat (list ExpressionValueInformation))
    (equivalence_map left : gmap nat (list Expression)) (tf : TableFilter) : Prop :=
  exists set constant_list table_index,
    constant_values !! set = Some constant_list /\
    mkInfo (tf_constant tf) (tf_comparison_type tf) ∈ constant_list /\
    equivalence_map !! set = Some [BoundColumnRef table_index (tf_column_index tf)] /\
    left !! set = None.

(** A bucket that the first loop erased: it was a single column
    reference, and every bound that [constant_values] lists for its set is
    among the table filters, on the column of the reference. *)
Definition pushed_out (constant_values : gmap nat (list ExpressionValueInformation))
    (equivalence_map : gmap nat (list Expression)) (tableFilters : list TableFilter)
    (set : nat) : Prop :=
  exists constant_list table_index column_index,
    constant_values !! set = Some constant_list /\
    equivalence_map !! set = Some [BoundColumnRef table_index column_index] /\
    forall info, info ∈ constant_list ->
      mkTableFilter (constant info) (comparison_type info) column_index ∈ tableFilters.

(** The combiner after the filters [a > 3], [b = c], [a <= 9] and
    [c = 7]: the set of [c] was merged into the set of [b], and its bucket
    is still listed. *)
Definition scan_example : FilterCombiner :=
  mkCombiner [] [column 2; column 1; column 0]
    [(column 0, 0%nat); (column 1, 1%nat); (column 2, 1%nat)]
    (<[ 0%nat := [mkInfo (Value_Numeric INTEGER 3) COMPARE_GREATERTHAN;
                  mkInfo (Value_Numeric INTEGER 9) COMPARE_LESSTHANOREQUALTO] ]>
       (<[ 1%nat := [mkInfo (Value_Numeric INTEGER 7) COMPARE_EQUAL] ]>
          {[ 2%nat := [] ]}))
    (<[ 0%nat := [column 0] ]>
       (<[ 1%nat := [column 1; column 2] ]> {[ 2%nat := [column 2] ]}))
    3.

(** The buckets that the first loop leaves of it. *)
Definition scan_example_left : gmap nat (list Expression) :=
  <[ 1%nat := [column 1; column 2] ]> {[ 2%nat := [column 2] ]}.

End ScanLaws.

(* ===================================================================== *)
(** * Part II: lemmas and theorems                                        *)
(* ===================================================================== *)

Import Window WindowLaws Combiner CombinerLaws.

(** ** The error monad *)

Lemma bind_Ok {A B : Type} (c : result A) (k : A -> result B) (b : B) :
  c ≫= k = Ok b -> exists a, c = Ok a /\ k a = Ok b.
Proof. destruct c as [a|f]; simpl; [eauto | discriminate]. Qed.

Lemma bind_Ok_l {A B : Type} (a : A) (k : A -> result B) : Ok a ≫= k = k a.
Proof. reflexivity. Qed.

(** Inverts the binds of a hypothesis [H : (x ← c; k) = Ok _]. *)
Ltac inv_bind H :=
  let a := fresh "a" in
  let E := fresh "E" in
  apply bind_Ok in H; destruct H as (a & E & H).

Ltac case_result H :=
  match type of H with
  | context [match ?c with Ok _ => _ | Throw _ => _ end] =>
      destruct c eqn:?; try discriminate H
  end.

(** ** Frame boundaries: the clamp and the boundary check *)

Lemma to_ssize_t_small (z : Z) : - 2 ^ 63 <= z < 2 ^ 63 -> to_ssize_t z = z.
Proof. intros H. unfold to_ssize_t. rewrite Z.mod_small; lia. Qed.

Lemma to_size_t_small (z : Z) : 0 <= z < 2 ^ 64 -> to_size_t z = z.
Proof. intros H. unfold to_size_t. apply Z.mod_small; lia. Qed.

Lemma to_size_t_range (z : Z) : 0 <= to_size_t z < 2 ^ 64.
Proof. unfold to_size_t. apply Z.mod_pos_bound. lia. Qed.

Lemma to_ssize_t_range (z : Z) : - 2 ^ 63 <= to_ssize_t z < 2 ^ 63.
Proof.
  unfold to_ssize_t.
  pose proof (Z.mod_pos_bound (z + 2 ^ 63) (2 ^ 64) ltac:(lia)). lia.
Qed.

(** A negative [ssize_t] read as a [size_t] is at least 2^63. *)
Lemma to_size_t_negative (z : Z) : - 2 ^ 63 <= z < 0 -> to_size_t z = z + 2 ^ 64.
Proof.
  intros H. unfold to_size_t.
  replace z with (z + 2 ^ 64 + (-1) * 2 ^ 64) at 1 by lia.
  rewrite Z.mod_add by lia. apply Z.mod_small. lia.
Qed.

(** C6 (code defect): on the first row of a three-row partition the end
    boundary "5 PRECEDING" resolves to 0 - 5 + 1 = -4.  Clamping it down to
    [partition_end] would leave min(-4, 3) = -4, which is negative, so the
    boundary failure is due.  The code compares the signed [window_end]
    with the unsigned [partition_end] as unsigned numbers, takes -4 for a
    number above [partition_end], sets [window_end] to 3 and raises
    nothing: the frame is the whole partition. *)
Theorem C6_negative_end_is_clamped_up :
  to_ssize_t (to_ssize_t 0 - GetNumericValue (bigint 5) + 1) = -4 /\
  Z.min (-4) 3 < 0 /\
  exists b,
    UpdateWindowBoundaries wexpr_5_preceding (column_of (map bigint [1; 2; 3])) 0
      [] [[bigint 5]] (mkBounds 0 0 0 0 (-1) (-1) false false [bigint 1]) = Ok b /\
    partition_start b = 0 /\ partition_end b = 3 /\
    window_start b = 0 /\ window_end b = 3.
Proof.
  split; [reflexivity|]. split; [reflexivity|].
  eexists. split; [vm_compute; reflexivity|]. repeat split.
Qed.

(** The same frame through the operator: COUNT( * ) is 3 on the first row,
    where the frame has no row. *)
Lemma C6_count_over_clamped_frame :
  ComputeWindowExpression wexpr_5_preceding 3 (column_of (map bigint [1; 2; 3]))
    [] [] [[bigint 5]]
  = Ok [bigint 3; bigint 3; bigint 3].
Proof. vm_compute. reflexivity. Qed.

(** ** The segment tree against the naive accumulation *)

(** C1 (code defect): the segment tree does not return the naive
    accumulation.  With fanout 16, AVG over the 17 values 0..16 on the
    frame [0, 17) is 11 where the naive average is 8, because the upper
    levels hold the averages of the groups; SUM over 257 ones on [0, 256)
    is 257 where the naive sum is 256, because [Construct] does not reset
    the accumulator after the short last group of a level. *)
Theorem C1_segment_tree_differs_from_naive :
  tree_result WINDOW_AVG payload_0_to_16 0 17 = Ok (bigint 11) /\
  naive_aggregate WINDOW_AVG BIGINT (column_of payload_0_to_16) 0 17 = Ok (bigint 8) /\
  tree_result WINDOW_SUM payload_257_ones 0 256 = Ok (bigint 257) /\
  naive_aggregate WINDOW_SUM BIGINT (column_of payload_257_ones) 0 256 = Ok (bigint 256).
Proof. repeat split; vm_compute; reflexivity. Qed.

(** ** Indexing *)

Lemma vector_at_lookup {A : Type} (v : list A) (k : nat) :
  vector_at v (Z.of_nat k) = match v !! k with Some x => Ok x | None => Throw OutOfBounds end.
Proof.
  unfold vector_at. destruct (Z.ltb_spec (Z.of_nat k) 0); [lia|].
  rewrite Nat2Z.id. reflexivity.
Qed.

Lemma vector_at_Ok {A : Type} (v : list A) (k : nat) (x : A) :
  vector_at v (Z.of_nat k) = Ok x <-> v !! k = Some x.
Proof.
  rewrite vector_at_lookup. destruct (v !! k); split; intros H; congruence.
Qed.

(** *** The segment tree keeps its shape *)

Lemma AggregateInit_shape t t' : AggregateInit t = Ok t' -> tree_shape t' = tree_shape t.
Proof.
  unfold AggregateInit. destruct (window_type t); intros H; inversion H; reflexivity.
Qed.

Lemma AggregateAccum_shape t v t' : AggregateAccum t v = Ok t' -> tree_shape t' = tree_shape t.
Proof.
  unfold AggregateAccum. destruct (window_type t); intros H; inversion H; reflexivity.
Qed.

Lemma level_value_shape t1 t2 l pos :
  tree_shape t1 = tree_shape t2 -> level_value t1 l pos = level_value t2 l pos.
Proof.
  unfold tree_shape, level_value. intros H. inversion H as [[H1 H2 H3 H4 H5]].
  rewrite H4, H5. reflexivity.
Qed.

Lemma WindowSegmentValue_loop_shape n : forall t l pos t',
  WindowSegmentValue_loop n t l pos = Ok t' -> tree_shape t' = tree_shape t.
Proof.
  induction n as [|n IH]; simpl; intros t l pos t' H.
  - inversion H. reflexivity.
  - inv_bind H. inv_bind H. apply IH in H. rewrite H.
    eapply AggregateAccum_shape; eauto.
Qed.

Lemma WindowSegmentValue_shape t l b e t' :
  WindowSegmentValue t l b e = Ok t' -> tree_shape t' = tree_shape t.
Proof.
  unfold WindowSegmentValue. destruct (e <? b); [discriminate|].
  apply WindowSegmentValue_loop_shape.
Qed.

Lemma fanout_shape t t' : tree_shape t' = tree_shape t -> fanout t' = fanout t.
Proof. unfold tree_shape. intros H. inversion H. reflexivity. Qed.

Lemma Compute_loop_shape n : forall t l b e t' v,
  Compute_loop n t l b e = Ok (t', v) -> tree_shape t' = tree_shape t.
Proof.
  induction n as [|n IH]; simpl; intros t l b e t' v H.
  - inv_bind H. inversion H. reflexivity.
  - destruct (b / fanout t =? e / fanout t).
    + inv_bind H. inv_bind H. inversion H; subst.
      eapply WindowSegmentValue_shape; eauto.
    + inv_bind H. destruct a as [t1 pb].
      inv_bind H. apply IH in H. rewrite H. clear H.
      assert (H1 : tree_shape t1 = tree_shape t).
      { destruct (negb _) in E.
        - inv_bind E. inversion E; subst. eapply WindowSegmentValue_shape; eauto.
        - inversion E. reflexivity. }
      rewrite <- H1.
      destruct (negb _) in E0.
      * eapply WindowSegmentValue_shape; eauto.
      * inversion E0. reflexivity.
Qed.

Lemma Compute_shape t b e t' v :
  Compute t b e = Ok (t', v) -> tree_shape t' = tree_shape t.
Proof.
  unfold Compute. destruct (input_ref t); [|discriminate].
  intros H. inv_bind H. apply Compute_loop_shape in H. rewrite H.
  eapply AggregateInit_shape; eauto.
Qed.

(** [Compute] starts from [AggregateInit]: its result does not depend on
    what earlier calls left in the accumulator. *)
Lemma Compute_from_shape t1 t2 b e :
  tree_shape t1 = tree_shape t2 -> Compute t1 b e = Compute t2 b e.
Proof.
  unfold tree_shape. intros H. inversion H as [[H1 H2 H3 H4 H5]].
  unfold Compute, AggregateInit, set_aggregate.
  rewrite H1, H2, H3, H4, H5. reflexivity.
Qed.

(** ** The sweep over the sorted rows *)

Lemma GetRow_Ok (rows : ChunkCollection) (k : nat) (r : list Value) :
  GetRow rows (Z.of_nat k) = Ok r <-> rows !! k = Some r.
Proof. apply vector_at_Ok. Qed.

(** What [UpdateWindowBoundaries] leaves in the state, whatever the frame:
    the current row, the two flags as [EqualsSubset] decides them, and the
    partition boundaries of the row before when the partition goes on. *)
Lemma UpdateWindowBoundaries_partition wexpr rows (k : nat) bsc bec b b' :
  UpdateWindowBoundaries wexpr rows (Z.of_nat k) bsc bec b = Ok b' ->
  rows !! k = Some (row_prev b') /\
  EqualsSubset (row_prev b) (row_prev b') 0 (partitions wexpr)
    = Ok (is_same_partition b') /\
  (if is_same_partition b'
   then EqualsSubset (row_prev b) (row_prev b') (partitions wexpr)
          (to_size_t (partitions wexpr + orders wexpr)) = Ok (is_peer b')
   else is_peer b' = false) /\
  (is_same_partition b' = true -> k <> 0%nat ->
   partition_start b' = partition_start b /\ partition_end b' = partition_end b) /\
  0 <= window_start b' /\ 0 <= window_end b'.
Proof.
  unfold UpdateWindowBoundaries. intros H.
  inv_bind H. rename a into row_cur. apply GetRow_Ok in E.
  inv_bind H. rename a into same.
  inv_bind H. rename a into peer.
  inv_bind H. destruct a as [[p_start p_end] pr_start].
  inv_bind H. inv_bind H. inv_bind H.
  match type of H with (if ?c then _ else _) = _ => destruct c eqn:Hneg end;
    [discriminate|].
  inversion H; subst; clear H; simpl.
  apply orb_false_iff in Hneg. destruct Hneg as [Hs He].
  apply Z.ltb_ge in Hs, He.
  repeat split; try assumption.
  - destruct same; [assumption | congruence].
  - simpl in H. subst same. simpl in E2.
    destruct (Z.eqb_spec (Z.of_nat k) 0); [lia|].
    destruct (negb peer); inversion E2; reflexivity.
  - simpl in H. subst same. simpl in E2.
    destruct (Z.eqb_spec (Z.of_nat k) 0); [lia|].
    destruct (negb peer); inversion E2; reflexivity.
Qed.

(** With the frame UNBOUNDED PRECEDING .. UNBOUNDED FOLLOWING the window is
    the partition. *)
Lemma UpdateWindowBoundaries_unbounded wexpr rows idx bsc bec b b' :
  start wexpr = UNBOUNDED_PRECEDING -> end_ wexpr = UNBOUNDED_FOLLOWING ->
  UpdateWindowBoundaries wexpr rows idx bsc bec b = Ok b' ->
  window_start b' = to_ssize_t (partition_start b') /\
  window_end b' = to_ssize_t (partition_end b').
Proof.
  unfold UpdateWindowBoundaries. intros Hs He H. rewrite Hs, He in H.
  inv_bind H. inv_bind H. inv_bind H.
  inv_bind H. destruct a2 as [[p_start p_end] pr_start].
  inv_bind H. inv_bind H. inv_bind H.
  inversion E4; subst. inversion E5; subst. clear E4 E5.
  match type of H with (if ?c then _ else _) = _ => destruct c end; [discriminate|].
  inversion H; subst; clear H; simpl.
  rewrite Z.ltb_irrefl. split; [reflexivity|].
  destruct (_ >? _); reflexivity.
Qed.


Lemma ComputeWindowLoop_invariant (P : nat -> SweepState -> Prop)
    wexpr rows payload bsc bec :
  (forall k st st', P k st ->
     ComputeWindowRow wexpr rows payload bsc bec (Z.of_nat k) st = Ok st' -> P (S k) st') ->
  forall n k st st', P k st ->
    ComputeWindowLoop n wexpr rows payload bsc bec (Z.of_nat k) st = Ok st' ->
    P (k + n)%nat st'.
Proof.
  intros Hstep. induction n as [|n IH]; simpl; intros k st st' HP H.
  - inversion H; subst. rewrite Nat.add_0_r. assumption.
  - inv_bind H. replace (Z.of_nat k + 1) with (Z.of_nat (S k)) in H by lia.
    replace (k + S n)%nat with (S k + n)%nat by lia.
    eapply IH; [|eassumption]. eapply Hstep; eassumption.
Qed.

Lemma frame_value_shape wexpr payload t1 t2 ws we :
  option_map tree_shape t1 = option_map tree_shape t2 ->
  frame_value wexpr payload t1 ws we = frame_value wexpr payload t2 ws we.
Proof.
  intros H. unfold frame_value. destruct (ws >=? we); [reflexivity|].
  destruct t1 as [t1|], t2 as [t2|]; simpl in H; try discriminate; [|reflexivity].
  assert (Hs : tree_shape t1 = tree_shape t2) by congruence.
  rewrite (Compute_from_shape _ _ _ _ Hs). reflexivity.
Qed.

(** One row of a frame function: the value appended is [frame_value] of the
    window, and the tree keeps its shape. *)
Lemma ComputeWindowRow_frame wexpr rows payload bsc bec idx st st' :
  frame_function (Window.type wexpr) = true ->
  ComputeWindowRow wexpr rows payload bsc bec idx st = Ok st' ->
  UpdateWindowBoundaries wexpr rows idx bsc bec (bounds st) = Ok (bounds st') /\
  option_map tree_shape (segment_tree st') = option_map tree_shape (segment_tree st) /\
  exists res,
    output st' = output st ++ [res] /\
    frame_value wexpr payload (segment_tree st)
      (window_start (bounds st')) (window_end (bounds st')) = Ok res.
Proof.
  unfold ComputeWindowRow, frame_value. intros Hf H.
  inv_bind H. rename a into b.
  destruct (update_ranks _ _ _ _ _) as [[d e] r].
  destruct (window_start b >=? window_end b) eqn:Hcmp.
  { inversion H; subst; simpl. rewrite Hcmp. repeat split; eauto. }
  destruct (Window.type wexpr); try discriminate Hf.
  1-4: destruct (segment_tree st) as [t|]; [|discriminate];
       inv_bind H; destruct a as [t' res]; inversion H; subst; simpl;
       apply Compute_shape in E0 as Hsh; rewrite Hsh, Hcmp;
       repeat split; try assumption; exists res; rewrite E0; auto.
  - inversion H; subst; simpl. rewrite Hcmp. repeat split; eauto.
  - inv_bind H. inversion H; subst; simpl. rewrite Hcmp. repeat split; eauto.
  - inv_bind H. inversion H; subst; simpl. rewrite Hcmp. repeat split; eauto.
Qed.

Section UnboundedFrame.

Variable wexpr : WindowExpression.
Variables rows payload bsc bec : ChunkCollection.
Hypothesis Hframe : frame_function (Window.type wexpr) = true.
Hypothesis Hstart : start wexpr = UNBOUNDED_PRECEDING.
Hypothesis Hend : end_ wexpr = UNBOUNDED_FOLLOWING.

Lemma unbounded_invariant_step k st st' :
  unbounded_invariant wexpr rows payload k st ->
  ComputeWindowRow wexpr rows payload bsc bec (Z.of_nat k) st = Ok st' ->
  unbounded_invariant wexpr rows payload (S k) st'.
Proof.
  intros (Hlen & Hlast & Hadj) H.
  apply ComputeWindowRow_frame in H; [|assumption].
  destruct H as (Hu & Hsh & res & Hout & Hval).
  pose proof (UpdateWindowBoundaries_unbounded _ _ _ _ _ _ _ Hstart Hend Hu) as [Hws Hwe].
  pose proof (UpdateWindowBoundaries_partition _ _ _ _ _ _ _ Hu)
    as (Hrow & Hsame & _ & Hkeep & _).
  rewrite Hws, Hwe in Hval.
  split; [|split].
  - rewrite Hout, length_app. simpl. lia.
  - intros _. replace (S k - 1)%nat with k by lia. split; [assumption|].
    exists res. split.
    + rewrite Hout, lookup_app_r by lia. rewrite Hlen, Nat.sub_diag. reflexivity.
    + rewrite (frame_value_shape _ _ _ _ _ _ Hsh). assumption.
  - intros i Hi Hpart. rewrite Hout.
    destruct (decide (k = S i)) as [->|Hne].
    + destruct Hlast as (Hprev & v & Hv & Hfv); [lia|].
      replace (S i - 1)%nat with i in * by lia.
      rewrite lookup_app_l by lia. rewrite lookup_app_r by lia.
      rewrite Hlen, Nat.sub_diag. simpl. rewrite Hv. f_equal.
      unfold same_partition, row_equal_on in Hpart.
      rewrite Hprev, Hrow, Hsame in Hpart.
      destruct (is_same_partition (bounds st')) eqn:Hflag; [|discriminate].
      destruct (Hkeep eq_refl) as [Hps Hpe]; [lia|].
      rewrite Hps, Hpe in Hval. congruence.
    + rewrite !lookup_app_l by lia. apply Hadj; [lia | assumption].
Qed.

Lemma unbounded_adjacent input_count out :
  ComputeWindowExpression wexpr input_count rows payload bsc bec = Ok out ->
  forall i, (S i < length out)%nat -> same_partition wexpr rows (S i) = true ->
    out !! i = out !! S i.
Proof.
  unfold ComputeWindowExpression. intros H.
  inv_bind H. inv_bind H. inv_bind H. inversion H; subst; clear H.
  assert (Hinv : unbounded_invariant wexpr rows payload (0 + Z.to_nat input_count) a1).
  { eapply ComputeWindowLoop_invariant; [| |exact E1].
    - intros k st st'. apply unbounded_invariant_step.
    - split; [reflexivity|]. split; [congruence|]. intros i Hi. lia. }
  destruct Hinv as (Hlen & _ & Hadj). intros i Hi. apply Hadj. lia.
Qed.

End UnboundedFrame.

(** C5: with the frame UNBOUNDED PRECEDING .. UNBOUNDED FOLLOWING, rows
    [i <= j] of the output that lie in one partition (every row after [i]
    up to [j] continues the partition of the row before it) hold the same
    value, for SUM, MIN, MAX, AVG, COUNT( * ), FIRST_VALUE and LAST_VALUE. *)
Theorem C5_unbounded_frame_constant_on_partition
    wexpr input_count rows payload bsc bec out (i j : nat) :
  frame_function (Window.type wexpr) = true ->
  start wexpr = UNBOUNDED_PRECEDING -> end_ wexpr = UNBOUNDED_FOLLOWING ->
  ComputeWindowExpression wexpr input_count rows payload bsc bec = Ok out ->
  (i <= j < length out)%nat ->
  (forall k, (i < k <= j)%nat -> same_partition wexpr rows k = true) ->
  out !! i = out !! j.
Proof.
  intros Hf Hs He H [Hij Hj] Hpart.
  induction j as [|j IH]; [replace i with 0%nat by lia; reflexivity|].
  destruct (decide (i = S j)) as [->|Hne]; [reflexivity|].
  rewrite IH; [| lia | lia | intros k Hk; apply Hpart; lia].
  eapply unbounded_adjacent; eauto. apply Hpart. lia.
Qed.

Lemma C5_unbounded_frame_constant_on_partition_witness :
  exists out,
    ComputeWindowExpression
      (mkWindowExpression 1 1 WINDOW_SUM BIGINT 1
         UNBOUNDED_PRECEDING UNBOUNDED_FOLLOWING None None)
      4 scenario_rows scenario_payload [] [] = Ok out /\
    out = map bigint [50; 50; 50; 5] /\
    out !! 0%nat = out !! 2%nat.
Proof.
  eexists. split; [vm_compute; reflexivity|]. split; [reflexivity|].
  eapply (C5_unbounded_frame_constant_on_partition
            (mkWindowExpression 1 1 WINDOW_SUM BIGINT 1
               UNBOUNDED_PRECEDING UNBOUNDED_FOLLOWING None None)
            4 scenario_rows scenario_payload [] [] _ 0 2).
  - reflexivity.
  - reflexivity.
  - reflexivity.
  - vm_compute. reflexivity.
  - simpl. lia.
  - intros k Hk. assert (Hc : k = 1%nat \/ k = 2%nat) by lia.
    destruct Hc as [-> | ->]; vm_compute; reflexivity.
Defined.

(** ** The ranking counters *)





(** The flags that [UpdateWindowBoundaries] sets on row [k > 0] are the
    relations [same_partition] and [peer] of the sorted rows. *)
Lemma UpdateWindowBoundaries_flags wexpr rows (k : nat) bsc bec b b' :
  k <> 0%nat -> rows !! (k - 1)%nat = Some (row_prev b) ->
  UpdateWindowBoundaries wexpr rows (Z.of_nat k) bsc bec b = Ok b' ->
  same_partition wexpr rows k = is_same_partition b' /\
  peer wexpr rows k = is_peer b'.
Proof.
  intros Hk Hprev H.
  apply UpdateWindowBoundaries_partition in H as (Hrow & Hsame & Hpeer & _).
  destruct k as [|j]; [congruence|]. replace (S j - 1)%nat with j in Hprev by lia.
  unfold peer, same_partition, row_equal_on. rewrite Hprev, Hrow, Hsame.
  destruct (is_same_partition b').
  - rewrite Hpeer. split; [reflexivity|]. destruct (is_peer b'); reflexivity.
  - split; [reflexivity|]. simpl. congruence.
Qed.









Section Ranking.

Variable wexpr : WindowExpression.
Variables rows payload bsc bec : ChunkCollection.
Hypothesis Hrows : Z.of_nat (length rows) < 2 ^ 63.



End Ranking.




(** ** The loop counters of the window model suffice *)

Lemma fuel_suffices_Ok {A : Type} (a : A) : fuel_suffices (Ok a).
Proof. discriminate. Qed.

Lemma fuel_suffices_bind {A B : Type} (c : result A) (k : A -> result B) :
  fuel_suffices c -> (forall a, c = Ok a -> fuel_suffices (k a)) ->
  fuel_suffices (c ≫= k).
Proof.
  unfold fuel_suffices. destruct c as [a|f]; simpl; intros Hc Hk.
  - apply Hk. reflexivity.
  - congruence.
Qed.

Lemma fuel_suffices_vector_at {A : Type} (v : list A) (i : Z) :
  fuel_suffices (vector_at v i).
Proof.
  unfold fuel_suffices, vector_at. destruct (i <? 0); [discriminate|].
  destruct (v !! Z.to_nat i); discriminate.
Qed.

Lemma fuel_suffices_GetValue c col i : fuel_suffices (GetValue c col i).
Proof.
  unfold GetValue, GetRow. apply fuel_suffices_bind.
  - apply fuel_suffices_vector_at.
  - intros. apply fuel_suffices_vector_at.
Qed.

Ltac fuel_step :=
  first
    [ apply fuel_suffices_Ok
    | apply fuel_suffices_vector_at
    | apply fuel_suffices_GetValue
    | (unfold fuel_suffices; discriminate)
    | apply fuel_suffices_bind; [|intros ? ?] ].

Lemma fuel_suffices_EqualsSubset a b s e : fuel_suffices (EqualsSubset a b s e).
Proof.
  unfold EqualsSubset. destruct (e <? s); [discriminate|].
  generalize (Z.to_nat (e - s)) as n. intros n. revert s.
  induction n as [|n IH]; simpl; intros s; [fuel_step|].
  repeat fuel_step. destruct (Value_ne _ _); [fuel_step | apply IH].
Qed.

Lemma fuel_suffices_less_than_equals n : forall a b i,
  fuel_suffices (less_than_equals_loop n a b i).
Proof.
  induction n as [|n IH]; simpl; intros a b i; [fuel_step|].
  repeat fuel_step. destruct (Value_gt _ _); [fuel_step | apply IH].
Qed.

Lemma vector_at_range {A : Type} (v : list A) (i : Z) (x : A) :
  vector_at v i = Ok x -> 0 <= i < Z.of_nat (length v).
Proof.
  unfold vector_at. destruct (Z.ltb_spec i 0); [discriminate|].
  destruct (v !! Z.to_nat i) eqn:E; [|discriminate]. intros _.
  apply lookup_lt_Some in E. lia.
Qed.

(** Below 2^53 the [double] holds the quotient exactly. *)
Lemma round_to_double_small (z : Z) : 0 <= z < 2 ^ 53 -> round_to_double z = z.
Proof.
  intros Hz. unfold round_to_double.
  destruct (Z.leb_spec (Z.log2 z - 52) 0) as [_|He]; [reflexivity|].
  destruct (Z.eq_dec z 0) as [->|Hn]; [discriminate He|].
  assert (Z.log2 z < 53) by (apply Z.log2_lt_pow2; lia). lia.
Qed.

Lemma midpoint_exact (l r : Z) :
  0 <= l -> l < r -> r < 2 ^ 53 ->
  to_size_t (round_to_double (to_size_t (l + r) / 2)) = (l + r) / 2 /\
  l <= (l + r) / 2 < r.
Proof.
  intros Hl Hlr Hr.
  assert (Hm : l <= (l + r) / 2 < r).
  { split; [apply Z.div_le_lower_bound | apply Z.div_lt_upper_bound]; lia. }
  split; [|exact Hm].
  rewrite (to_size_t_small (l + r)) by lia.
  rewrite round_to_double_small by lia. apply to_size_t_small. lia.
Qed.

Lemma BinarySearchRightmost_loop_fuel fuel : forall input row l r cc,
  0 <= l -> r < 2 ^ 53 -> (Z.to_nat (r - l) < fuel)%nat ->
  fuel_suffices (BinarySearchRightmost_loop fuel input row l r cc).
Proof.
  induction fuel as [|fuel IH]; intros input row l r cc Hl Hr Hf; [lia|].
  cbn [BinarySearchRightmost_loop]. destruct (Z.ltb_spec l r); [|fuel_step].
  destruct (midpoint_exact l r) as [-> Hm]; try lia.
  apply fuel_suffices_bind; [apply fuel_suffices_vector_at|]. intros row_m _.
  apply fuel_suffices_bind; [apply fuel_suffices_less_than_equals|]. intros [|] _.
  - rewrite to_size_t_small by lia. apply IH; lia.
  - apply IH; lia.
Qed.

Lemma BinarySearchRightmost_loop_range fuel : forall input row l r cc e,
  0 <= l <= r -> r < 2 ^ 53 ->
  BinarySearchRightmost_loop fuel input row l r cc = Ok e ->
  l <= to_size_t (e + 1) <= r.
Proof.
  induction fuel as [|fuel IH]; intros input row l r cc e Hl Hr H; [discriminate|].
  cbn [BinarySearchRightmost_loop] in H. destruct (Z.ltb_spec l r).
  - destruct (midpoint_exact l r) as [Hmid Hm]; try lia. rewrite Hmid in H.
    inv_bind H. inv_bind H. destruct a0.
    + rewrite to_size_t_small in H by lia. apply IH in H; lia.
    + apply IH in H; lia.
  - inversion H; subst. assert (l = r) by lia. subst r.
    destruct (Z.eq_dec l 0) as [->|Hn].
    + vm_compute. split; discriminate.
    + rewrite (to_size_t_small (l - 1)) by lia.
      replace (l - 1 + 1) with l by lia. rewrite to_size_t_small by lia. lia.
Qed.

Lemma BinarySearchRightmost_fuel input row l r cc :
  0 <= l -> r < 2 ^ 53 -> fuel_suffices (BinarySearchRightmost input row l r cc).
Proof.
  intros Hl Hr. unfold BinarySearchRightmost. destruct (cc =? 0); [fuel_step|].
  apply BinarySearchRightmost_loop_fuel; lia.
Qed.

Lemma BinarySearchRightmost_range input row l r cc e :
  0 <= l <= r -> r < 2 ^ 53 ->
  BinarySearchRightmost input row l r cc = Ok e ->
  0 <= to_size_t (e + 1) <= r.
Proof.
  intros Hl Hr. unfold BinarySearchRightmost. destruct (cc =? 0).
  - intros H. inversion H; subst.
    destruct (Z.eq_dec r 0) as [->|Hn].
    + vm_compute. split; discriminate.
    + rewrite (to_size_t_small (r - 1)) by lia.
      replace (r - 1 + 1) with r by lia. rewrite to_size_t_small by lia. lia.
  - intros H. apply BinarySearchRightmost_loop_range in H; lia.
Qed.

Lemma fuel_suffices_boundary_offset c e i : fuel_suffices (boundary_offset c e i).
Proof.
  unfold boundary_offset. destruct (_ >? 0); [|fuel_step].
  destruct e; repeat fuel_step.
Qed.

(** [UpdateWindowBoundaries] keeps [partition_end] within the collection. *)
Lemma UpdateWindowBoundaries_partition_end wexpr rows idx bsc bec b b' :
  count rows < 2 ^ 53 -> 0 <= partition_end b <= count rows ->
  UpdateWindowBoundaries wexpr rows idx bsc bec b = Ok b' ->
  0 <= partition_end b' <= count rows.
Proof.
  intros Hc Hp H. unfold UpdateWindowBoundaries in H.
  inv_bind H. apply vector_at_range in E as Hidx. fold (count rows) in Hidx.
  inv_bind H. inv_bind H. inv_bind H. destruct a2 as [[p_start p_end] pr_start].
  inv_bind H. inv_bind H. inv_bind H.
  match type of H with (if ?c then _ else _) = _ => destruct c end; [discriminate|].
  inversion H; subst; simpl. clear H.
  destruct (negb a0 || _).
  - inv_bind E2. inversion E2; subst.
    eapply BinarySearchRightmost_range; [| |exact E6]; lia.
  - destruct (negb a1); inversion E2; subst; assumption.
Qed.

(** [UpdateWindowBoundaries] needs no more iterations than the model
    allows. *)
Lemma UpdateWindowBoundaries_fuel wexpr rows idx bsc bec b :
  count rows < 2 ^ 53 -> 0 <= partition_end b <= count rows ->
  fuel_suffices (UpdateWindowBoundaries wexpr rows idx bsc bec b).
Proof.
  intros Hc Hp. unfold UpdateWindowBoundaries.
  apply fuel_suffices_bind; [apply fuel_suffices_vector_at|]. intros row_cur Hrow.
  apply vector_at_range in Hrow as Hidx. fold (count rows) in Hidx.
  apply fuel_suffices_bind; [apply fuel_suffices_EqualsSubset|]. intros same _.
  apply fuel_suffices_bind.
  { destruct same; [apply fuel_suffices_EqualsSubset | fuel_step]. }
  intros peer _.
  apply fuel_suffices_bind.
  { destruct (negb same || _).
    - apply fuel_suffices_bind; [apply BinarySearchRightmost_fuel; lia|].
      intros. fuel_step.
    - destruct (negb peer); fuel_step. }
  intros [[p_start p_end] pr_start] Hsearch.
  assert (Hpe : 0 <= p_end <= count rows).
  { destruct (negb same || _).
    - inv_bind Hsearch. inversion Hsearch; subst.
      eapply BinarySearchRightmost_range; [| |exact E]; lia.
    - destruct (negb peer); inversion Hsearch; subst; assumption. }
  apply fuel_suffices_bind.
  { destruct (end_ wexpr); try fuel_step.
    - apply BinarySearchRightmost_fuel; lia.
    - fuel_step. }
  intros pr_end _.
  apply fuel_suffices_bind.
  { destruct (start wexpr); repeat fuel_step; try apply fuel_suffices_boundary_offset. }
  intros w_start _.
  apply fuel_suffices_bind.
  { destruct (end_ wexpr); repeat fuel_step; try apply fuel_suffices_boundary_offset. }
  intros w_end _. simpl.
  match goal with |- fuel_suffices (if ?c then _ else _) => destruct c end; fuel_step.
Qed.

Lemma fuel_suffices_AggregateInit t : fuel_suffices (AggregateInit t).
Proof. unfold AggregateInit. destruct (window_type t); fuel_step. Qed.

Lemma fuel_suffices_AggregateAccum t v : fuel_suffices (AggregateAccum t v).
Proof. unfold AggregateAccum. destruct (window_type t); fuel_step. Qed.

Lemma fuel_suffices_AggegateFinal t : fuel_suffices (AggegateFinal t).
Proof.
  unfold AggegateFinal. destruct (_ =? 0); [fuel_step|].
  destruct (window_type t); fuel_step.
Qed.

Lemma fuel_suffices_Construct_level vals : forall t nl fc,
  fuel_suffices (Construct_level vals t nl fc).
Proof.
  induction vals as [|v vals IH]; simpl; intros t nl fc; [fuel_step|].
  apply fuel_suffices_bind; [apply fuel_suffices_AggregateAccum|]. intros t1 _.
  destruct (_ =? fanout t1); [|apply IH].
  apply fuel_suffices_bind; [apply fuel_suffices_AggegateFinal|]. intros f _.
  apply fuel_suffices_bind; [apply fuel_suffices_AggregateInit|]. intros t2 _.
  apply IH.
Qed.

(** Each [fanout] values of a level give one value of the next. *)
Lemma Construct_level_count F vals : forall t nl fc t' nl' fc',
  2 <= F < 2 ^ 64 -> fanout t = F -> 0 <= fc < F ->
  Construct_level vals t nl fc = Ok (t', nl', fc') ->
  fanout t' = F /\ 0 <= fc' < F /\
  F * Z.of_nat (length nl') + fc'
  = F * Z.of_nat (length nl) + fc + Z.of_nat (length vals).
Proof.
  induction vals as [|v vals IH]; simpl; intros t nl fc t' nl' fc' HF Ht Hfc H.
  - inversion H; subst. repeat split; lia.
  - inv_bind H. rename a into t1.
    assert (Ht1 : fanout t1 = F).
    { apply AggregateAccum_shape in E. apply fanout_shape in E. congruence. }
    rewrite (to_size_t_small (fc + 1)) in H by lia. rewrite Ht1 in H.
    destruct (Z.eqb_spec (fc + 1) F).
    + inv_bind H. inv_bind H. rename a0 into t2.
      assert (Ht2 : fanout t2 = F).
      { apply AggregateInit_shape in E1. apply fanout_shape in E1. congruence. }
      apply IH in H; [|assumption|assumption|lia].
      destruct H as (H1 & H2 & H3). rewrite length_app in H3. simpl in H3.
      repeat split; try lia.
    + apply IH in H; [|assumption|assumption|lia].
      destruct H as (H1 & H2 & H3). repeat split; lia.
Qed.

Lemma mapM_result_length {A B : Type} (f : A -> result B) (l : list A) (k : list B) :
  mapM f l = Ok k -> length k = length l.
Proof.
  revert k. induction l as [|x l IH]; simpl; intros k H.
  - inversion H. reflexivity.
  - inv_bind H. inv_bind H. inversion H; subst. simpl. f_equal. apply IH. assumption.
Qed.

Lemma fuel_suffices_mapM {A B : Type} (f : A -> result B) (l : list A) :
  (forall x, fuel_suffices (f x)) -> fuel_suffices (mapM f l).
Proof.
  intros Hf. induction l as [|x l IH]; simpl; [fuel_step|].
  apply fuel_suffices_bind; [apply Hf|]. intros y _.
  apply fuel_suffices_bind; [apply IH|]. intros k _. fuel_step.
Qed.

Lemma Construct_loop_fuel input fuel : forall t,
  2 <= fanout t < 2 ^ 64 ->
  (match last (levels t) with
   | None => length input
   | Some lvl => length lvl
   end < fuel)%nat ->
  fuel_suffices (Construct_loop fuel input t).
Proof.
  induction fuel as [|fuel IH]; intros t HF Hlen; [lia|].
  simpl. apply fuel_suffices_bind.
  { destruct (last (levels t)); [fuel_step|].
    apply fuel_suffices_mapM. intros. apply fuel_suffices_vector_at. }
  intros vals Hvals.
  assert (Hv : (length vals < S fuel)%nat).
  { destruct (last (levels t)).
    - inversion Hvals; subst. assumption.
    - apply mapM_result_length in Hvals. lia. }
  destruct (Z.gtb_spec (Z.of_nat (length vals)) 1); [|fuel_step].
  apply fuel_suffices_bind; [apply fuel_suffices_Construct_level|].
  intros [[t1 nl] fc] Hlevel.
  apply (Construct_level_count (fanout t)) in Hlevel; [|lia|reflexivity|lia].
  destruct Hlevel as (Ht1 & Hfc & Hcount). simpl in Hcount.
  apply fuel_suffices_bind.
  { destruct (fc >? 0); [|fuel_step].
    apply fuel_suffices_bind; [apply fuel_suffices_AggegateFinal|]. intros. fuel_step. }
  intros nl2 Hnl2. apply IH.
  - simpl. lia.
  - simpl. rewrite last_snoc.
    destruct (Z.gtb_spec fc 0).
    + inv_bind Hnl2. inversion Hnl2; subst. rewrite length_app. simpl. nia.
    + inversion Hnl2; subst. nia.
Qed.

Lemma Construct_fuel t input :
  2 <= fanout t < 2 ^ 64 -> levels t = [] -> fuel_suffices (Construct t input).
Proof.
  intros HF Hl. unfold Construct. destruct (_ =? 1); [|fuel_step].
  apply fuel_suffices_bind; [apply fuel_suffices_AggregateInit|]. intros t1 Ht1.
  apply AggregateInit_shape in Ht1. unfold tree_shape in Ht1. inversion Ht1.
  apply Construct_loop_fuel; simpl.
  - lia.
  - rewrite H3, Hl. simpl. lia.
Qed.

Lemma fuel_suffices_level_value t l pos : fuel_suffices (level_value t l pos).
Proof.
  unfold level_value. destruct (l =? 0).
  - destruct (input_ref t); fuel_step.
  - repeat fuel_step.
Qed.

Lemma fuel_suffices_WindowSegmentValue t l b e :
  fuel_suffices (WindowSegmentValue t l b e).
Proof.
  unfold WindowSegmentValue. destruct (e <? b); [fuel_step|].
  generalize (Z.to_nat (e - b)) as n. intros n. revert t b.
  induction n as [|n IH]; simpl; intros t b; [fuel_step|].
  apply fuel_suffices_bind; [apply fuel_suffices_level_value|]. intros v _.
  apply fuel_suffices_bind; [apply fuel_suffices_AggregateAccum|]. intros t1 _.
  apply IH.
Qed.

Lemma fuel_suffices_Compute_loop n : forall t l b e,
  fuel_suffices (Compute_loop n t l b e).
Proof.
  induction n as [|n IH]; simpl; intros t l b e.
  - apply fuel_suffices_bind; [apply fuel_suffices_AggegateFinal|]. intros. fuel_step.
  - destruct (_ =? _).
    + apply fuel_suffices_bind; [apply fuel_suffices_WindowSegmentValue|]. intros t1 _.
      apply fuel_suffices_bind; [apply fuel_suffices_AggegateFinal|]. intros. fuel_step.
    + apply fuel_suffices_bind.
      { destruct (negb _); [|fuel_step].
        apply fuel_suffices_bind; [apply fuel_suffices_WindowSegmentValue|].
        intros. fuel_step. }
      intros [t1 pb] _.
      apply fuel_suffices_bind.
      { destruct (negb _); [apply fuel_suffices_WindowSegmentValue | fuel_step]. }
      intros t2 _. apply IH.
Qed.

Lemma fuel_suffices_Compute t b e : fuel_suffices (Compute t b e).
Proof.
  unfold Compute. destruct (input_ref t); [|fuel_step].
  apply fuel_suffices_bind; [apply fuel_suffices_AggregateInit|]. intros t1 _.
  apply fuel_suffices_Compute_loop.
Qed.

Lemma ComputeWindowRow_bounds wexpr rows payload bsc bec idx st st' :
  ComputeWindowRow wexpr rows payload bsc bec idx st = Ok st' ->
  UpdateWindowBoundaries wexpr rows idx bsc bec (bounds st) = Ok (bounds st').
Proof.
  unfold ComputeWindowRow. intros H. inv_bind H. rewrite E. f_equal.
  destruct (update_ranks _ _ _ _ _) as [[d e] r].
  destruct (_ >=? _); [inversion H; reflexivity|].
  destruct (Window.type wexpr); try discriminate;
    try (inversion H; reflexivity);
    try (inv_bind H; inversion H; reflexivity).
  all: destruct (segment_tree st); [|discriminate];
       inv_bind H; destruct a0; inversion H; reflexivity.
Qed.

Lemma ComputeWindowRow_fuel wexpr rows payload bsc bec idx st :
  count rows < 2 ^ 53 -> 0 <= partition_end (bounds st) <= count rows ->
  fuel_suffices (ComputeWindowRow wexpr rows payload bsc bec idx st).
Proof.
  intros Hc Hp. unfold ComputeWindowRow.
  apply fuel_suffices_bind; [apply UpdateWindowBoundaries_fuel; assumption|].
  intros b _. destruct (update_ranks _ _ _ _ _) as [[d e] r].
  destruct (_ >=? _); [fuel_step|].
  destruct (Window.type wexpr); try fuel_step; try (repeat fuel_step; fail).
  all: destruct (segment_tree st); [|fuel_step];
       apply fuel_suffices_bind; [apply fuel_suffices_Compute|];
       intros [t1 v] _; fuel_step.
Qed.

Lemma ComputeWindowLoop_fuel wexpr rows payload bsc bec n : forall idx st,
  count rows < 2 ^ 53 -> 0 <= partition_end (bounds st) <= count rows ->
  fuel_suffices (ComputeWindowLoop n wexpr rows payload bsc bec idx st).
Proof.
  induction n as [|n IH]; simpl; intros idx st Hc Hp; [fuel_step|].
  apply fuel_suffices_bind; [apply ComputeWindowRow_fuel; assumption|].
  intros st1 Hrow. apply IH; [assumption|].
  apply ComputeWindowRow_bounds in Hrow.
  eapply UpdateWindowBoundaries_partition_end; eauto.
Qed.

(** X7. The loops of the window operator end: the counters that bound
    the binary searches, the construction of the segment tree and the
    sweep never run out, so that a call of [ComputeWindowExpression] on
    fewer than 2^53 rows (where the midpoint of the binary search, taken
    through a [double], is exact) ends in the output column or in a
    failure of the operator itself. *)
Lemma ComputeWindowExpression_fuel wexpr input_count rows payload bsc bec :
  count rows < 2 ^ 53 ->
  fuel_suffices (ComputeWindowExpression wexpr input_count rows payload bsc bec).
Proof.
  intros Hc. unfold ComputeWindowExpression.
  apply fuel_suffices_bind.
  { destruct (Window.type wexpr); try apply fuel_suffices_Ok.
    all: apply fuel_suffices_bind;
         [apply Construct_fuel; [simpl; lia | reflexivity] | intros; fuel_step]. }
  intros tree _.
  apply fuel_suffices_bind; [apply fuel_suffices_vector_at|]. intros row0 _.
  apply fuel_suffices_bind; [|intros; fuel_step].
  apply ComputeWindowLoop_fuel; [assumption|]. simpl. unfold count. lia.
Qed.

(** ** CompareValueInformation *)

(** The recursion of [CompareValueInformation] is at most one call deep:
    the unrolled definition satisfies the recursive equation of the
    source. *)
Lemma CompareValueInformation_unfold left right :
  CompareValueInformation left right
  = CompareValueInformation_body CompareValueInformation left right.
Proof.
  destruct left as [lc lt], right as [rc rt].
  unfold CompareValueInformation.
  destruct lt; destruct rt; reflexivity.
Qed.

(** C3 (as amended): for an upper bound [U] of the <-family and a lower
    bound [L] of the >-family, in either order, [CompareValueInformation]
    returns UNSATISFIABLE_CONDITION exactly when [U >= L] does not hold,
    and PRUNE_NOTHING otherwise, whether or not a comparison is strict. *)
Theorem C3_opposite_bounds (U L : Value) (strict_u strict_l : bool) :
  CompareValueInformation (upper_bound U strict_u) (lower_bound L strict_l)
  = Ok (if Value_ge U L then PRUNE_NOTHING else UNSATISFIABLE_CONDITION) /\
  CompareValueInformation (lower_bound L strict_l) (upper_bound U strict_u)
  = Ok (if Value_ge U L then PRUNE_NOTHING else UNSATISFIABLE_CONDITION).
Proof.
  unfold upper_bound, lower_bound.
  destruct strict_u, strict_l; split; unfold CompareValueInformation,
    CompareValueInformation_body; simpl; destruct (Value_ge U L); reflexivity.
Qed.

(** For two numbers, [U >= L] fails exactly when [L > U]: the pair is
    reported unsatisfiable exactly when the lower constant is the larger. *)
Lemma Value_ge_numeric (t : LogicalType) (u l : Z) :
  TypeIsNumeric t = true ->
  Value_ge (Value_Numeric t u) (Value_Numeric t l) = negb (l >? u) /\
  Value_gt (Value_Numeric t l) (Value_Numeric t u) = (l >? u).
Proof.
  intros Ht. unfold Value_ge, Value_gt, Value_compare. simpl.
  destruct t; try discriminate Ht; simpl;
    rewrite (Z.compare_antisym l u); unfold Z.gtb;
    destruct (l ?= u); split; reflexivity.
Qed.

(** The specification's table differs where the constants are equal and a
    comparison is strict: [x < 5] and [x > 5] give PRUNE_NOTHING, where
    the table has UNSATISFIABLE_CONDITION. *)
Lemma C3_equal_constants_strict_bounds :
  CompareValueInformation (upper_bound (Value_Numeric INTEGER 5) true)
                          (lower_bound (Value_Numeric INTEGER 5) true)
  = Ok PRUNE_NOTHING /\
  opposite_bounds_table (Value_Numeric INTEGER 5) (Value_Numeric INTEGER 5) true true
  = UNSATISFIABLE_CONDITION /\
  CompareValueInformation (upper_bound (Value_Numeric INTEGER 5) true)
                          (lower_bound (Value_Numeric INTEGER 5) true)
  <> Ok (opposite_bounds_table (Value_Numeric INTEGER 5) (Value_Numeric INTEGER 5)
                               true true).
Proof. repeat split; vm_compute; discriminate. Qed.

(** ** GenerateFilters and HasFilters *)

Lemma GenerateFilters_constants_indices entry : forall l k lower upper acc lower' upper' acc',
  GenerateFilters_constants entry k l lower upper acc = (lower', upper', acc') ->
  (forall i b, lower = Some (i, b) -> (i < k + length l)%nat) ->
  (forall i b, upper = Some (i, b) -> (i < k + length l)%nat) ->
  (forall i b, lower' = Some (i, b) -> (i < k + length l)%nat) /\
  (forall i b, upper' = Some (i, b) -> (i < k + length l)%nat).
Proof.
  induction l as [|info l IH]; simpl; intros k lower upper acc lower' upper' acc' H Hl Hu.
  - inversion H; subst. split; assumption.
  - destruct (IsGreaterThan _); [|destruct (IsLessThan _)];
      apply IH in H; try (replace (S k + length l)%nat with (k + S (length l))%nat in H by lia;
                          exact H).
    all: intros i b Hi; try (inversion Hi; subst; lia).
    all: first [apply Hl in Hi | apply Hu in Hi]; lia.
Qed.

Lemma GenerateFilters_entries_total constant_list : forall entries,
  exists fs, GenerateFilters_entries entries constant_list = Ok fs.
Proof.
  induction entries as [|entry later [rest IH]]; simpl; [eauto|].
  destruct (GenerateFilters_constants entry 0 constant_list None None [])
    as [[lower upper] comparisons] eqn:E.
  apply GenerateFilters_constants_indices in E as [Hl Hu]; try discriminate.
  assert (Hat : forall i, (i < 0 + length constant_list)%nat ->
                  exists info, constant_at constant_list i = Ok info).
  { intros i Hi. unfold constant_at.
    destruct (lookup_lt_is_Some_2 constant_list i ltac:(lia)) as [info ->]. eauto. }
  rewrite IH.
  destruct lower as [[li lb]|], upper as [[ui ub]|]; simpl.
  - destruct (Hat li (Hl _ _ eq_refl)) as [x ->].
    destruct (Hat ui (Hu _ _ eq_refl)) as [y ->]. simpl. eauto.
  - destruct (Hat li (Hl _ _ eq_refl)) as [x ->]. simpl. eauto.
  - destruct (Hat ui (Hu _ _ eq_refl)) as [y ->]. simpl. eauto.
  - eauto.
Qed.

Lemma GenerateFilters_sets_total c : forall sets,
  (forall s es, (s, es) ∈ sets -> is_Some (constant_values c !! s)) ->
  exists fs, GenerateFilters_sets c sets = Ok fs.
Proof.
  induction sets as [|[s es] sets IH]; simpl; intros H; [eauto|].
  destruct (H s es) as [cl Hcl]; [left|].
  unfold get_constants. rewrite Hcl. simpl.
  destruct (GenerateFilters_entries_total cl es) as [here ->]. simpl.
  destruct IH as [rest ->]; [|simpl; eauto].
  intros s' es' Hin. apply (H s' es'). right. assumption.
Qed.

(** [GenerateFilters] returns when every listed set has its constants,
    and leaves the combiner empty. *)
Lemma GenerateFilters_total c :
  sets_have_constants c ->
  exists fs, GenerateFilters c = Ok (fs, mkCombiner [] [] [] ∅ ∅ (set_index c)).
Proof.
  intros H. unfold GenerateFilters.
  destruct (GenerateFilters_sets_total c (map_to_list (equivalence_map c))) as [fs ->].
  - intros s es Hin. apply elem_of_map_to_list in Hin. apply H. eauto.
  - simpl. eauto.
Qed.

(** C9: [HasFilters] runs [GenerateFilters]; whatever it answers, it
    leaves the remaining filters, the stored expressions, the equivalence
    maps and the constant values empty, and a following [GenerateFilters]
    or [GenerateTableScanFilters] emits nothing. *)
Theorem C9_HasFilters_clears_the_combiner (c : FilterCombiner) :
  sets_have_constants c ->
  exists answer c',
    HasFilters c = Ok (answer, c') /\
    cleared c' /\
    GenerateFilters c' = Ok ([], c') /\
    forall column_ids, GenerateTableScanFilters column_ids c' = Ok ([], c').
Proof.
  intros H. destruct (GenerateFilters_total c H) as [fs Hfs].
  unfold HasFilters. rewrite Hfs. simpl.
  eexists _, _. split; [reflexivity|]. split; [repeat split|]. split.
  - unfold GenerateFilters. simpl. rewrite map_to_list_empty. reflexivity.
  - intros column_ids. unfold GenerateTableScanFilters. simpl.
    rewrite map_to_list_empty. reflexivity.
Qed.

(** After [a = 5] and a residual LIKE, [HasFilters] answers true and the
    combiner is empty. *)
Lemma C9_HasFilters_clears_the_combiner_witness :
  example_AddFilters 5 FilterCombiner_new
    [BoundComparison COMPARE_EQUAL (column 0) (int_constant 5); like (column 1) "abc%"]
  = Ok (example_combiner, [SUCCESS; SUCCESS]) /\
  exists c',
    HasFilters example_combiner = Ok (true, c') /\ cleared c' /\
    GenerateFilters c' = Ok ([], c').
Proof.
  split; [vm_compute; reflexivity|].
  destruct (C9_HasFilters_clears_the_combiner example_combiner)
    as (answer & c' & H1 & H2 & H3 & _).
  - intros s Hs. simpl in *.
    destruct (decide (s = 0%nat)) as [->|Hne].
    + rewrite lookup_singleton_eq. eauto.
    + rewrite lookup_singleton_ne in Hs by congruence. destruct Hs; discriminate.
  - exists c'. vm_compute in H1. inversion H1; subst.
    split; [vm_compute; reflexivity|]. split; assumption.
Defined.

(** ** GenerateTableScanFilters: the scan of the remaining filters *)





(** C10: when the scan of [GenerateTableScanFilters] is at a residual
    [~~] filter whose literal starts with [%] or [_], it stops there: the
    call returns the table filters collected so far and the remaining
    filters as they are, whatever filters follow. *)
Theorem C10_leading_wildcard_ends_the_scan
    column_ids fuel (idx : nat) tbl col (v : Value) tfs (remaining : list Expression) :
  remaining !! idx = Some (BoundFunction "~~" [BoundColumnRef tbl col; BoundConstant v]) ->
  is_wildcard (first_char (str_value v)) = true ->
  scan_remaining_filters (S fuel) column_ids idx tfs remaining = Ok (tfs, remaining).
Proof.
  intros Hidx Hfirst. simpl. rewrite Hidx.
  unfold scan_remaining_body. simpl. rewrite Hfirst. reflexivity.
Qed.

(** After [a ~~ '%abc'] neither the LIKE [a ~~ 'abc'], nor the prefix
    filter, nor the IN list (1, 2, 3) gives a table filter, although each
    of them alone does. *)
Lemma C10_leading_wildcard_ends_the_scan_witness :
  GenerateTableScanFilters [0; 1]
    (with_remaining [like (column 0) "%abc"; like (column 0) "abc";
                     BoundFunction "prefix" [column 1; string_constant "ab"];
                     in_list (column 0) INTEGER [1; 2; 3]])
  = Ok ([], with_remaining [like (column 0) "%abc"; like (column 0) "abc";
                            BoundFunction "prefix" [column 1; string_constant "ab"];
                            in_list (column 0) INTEGER [1; 2; 3]]) /\
  GenerateTableScanFilters [0; 1]
    (with_remaining [like (column 0) "abc";
                     BoundFunction "prefix" [column 1; string_constant "ab"];
                     in_list (column 0) INTEGER [1; 2; 3]])
  = Ok ([mkTableFilter (Value_String "abc") COMPARE_EQUAL 0;
         mkTableFilter (Value_String "ab") COMPARE_GREATERTHANOREQUALTO 1;
         mkTableFilter (Value_String "ac") COMPARE_LESSTHAN 1;
         mkTableFilter (Value_Numeric INTEGER 1) COMPARE_GREATERTHANOREQUALTO 0;
         mkTableFilter (Value_Numeric INTEGER 3) COMPARE_LESSTHANOREQUALTO 0],
        with_remaining [like (column 0) "abc";
                        BoundFunction "prefix" [column 1; string_constant "ab"]]).
Proof.
  split; [|vm_compute; reflexivity].
  unfold GenerateTableScanFilters, with_remaining. simpl remaining_filters.
  simpl constant_values. rewrite map_to_list_empty. simpl scan_constant_values.
  rewrite bind_Ok_l. cbv beta iota.
  rewrite (C10_leading_wildcard_ends_the_scan [0; 1] 4 0 0 0 (Value_String "%abc"));
    [reflexivity|reflexivity|reflexivity].
Defined.

(** *** The IN list *)

Lemma Value_lt_numeric t a b :
  integer_type t = true -> Value_lt (Value_Numeric t a) (Value_Numeric t b) = (a <? b).
Proof.
  intros Ht. unfold Value_lt, Value_compare, Z.ltb. simpl.
  destruct t; try discriminate Ht; simpl; destruct (a ?= b); reflexivity.
Qed.






























Lemma length_delete_le {A : Type} (l : list A) (i : nat) :
  (length (delete i l) <= length l)%nat.
Proof.
  revert i. induction l as [|x l IH]; intros [|i]; simpl; try lia.
  specialize (IH i). lia.
Qed.

Lemma scan_remaining_body_length column_ids idx f tfs remaining exit tfs' remaining' :
  scan_remaining_body column_ids idx f tfs remaining = Ok (exit, tfs', remaining') ->
  (length remaining' <= length remaining)%nat.
Proof.
  unfold scan_remaining_body. intros H.
  pose proof (length_delete_le remaining idx).
  repeat match type of H with
         | Ok _ = Ok _ => inversion H; subst; clear H
         | Throw _ = Ok _ => discriminate H
         | (_ ≫= _) = Ok _ => inv_bind H
         | (let '(_, _) := ?p in _) = Ok _ => destruct p
         | context [match ?x with _ => _ end] => destruct x eqn:?
         end; lia.
Qed.

Lemma fuel_suffices_column_and_constant children :
  fuel_suffices (column_and_constant children).
Proof.
  unfold column_and_constant.
  apply fuel_suffices_bind; [apply fuel_suffices_vector_at|]. intros c0 _.
  destruct c0; try apply fuel_suffices_Ok.
  apply fuel_suffices_bind; [apply fuel_suffices_vector_at|]. intros c1 _.
  destruct c1; apply fuel_suffices_Ok.
Qed.

Lemma fuel_suffices_increment_last_char s : fuel_suffices (increment_last_char s).
Proof. destruct s; fuel_step. Qed.

Lemma fuel_suffices_constant_of e : fuel_suffices (constant_of e).
Proof. destruct e; fuel_step. Qed.

Ltac fuel_leaf :=
  first
    [ apply fuel_suffices_Ok
    | apply fuel_suffices_vector_at
    | apply fuel_suffices_column_and_constant
    | apply fuel_suffices_increment_last_char
    | apply fuel_suffices_constant_of
    | (apply fuel_suffices_mapM; intros; apply fuel_suffices_constant_of)
    | (unfold fuel_suffices; discriminate) ].

Ltac fuel_walk :=
  repeat first
    [ fuel_leaf
    | apply fuel_suffices_bind; [|intros ? ?]
    | match goal with
      | |- fuel_suffices (let '(_, _) := ?p in _) => destruct p
      | |- fuel_suffices (match ?x with _ => _ end) => destruct x
      end ].

Lemma fuel_suffices_scan_remaining_body column_ids idx f tfs remaining :
  fuel_suffices (scan_remaining_body column_ids idx f tfs remaining).
Proof. unfold scan_remaining_body. fuel_walk. Qed.

(** The scan needs no more iterations than the model allows: the index
    moves on by one at each iteration and the list does not grow. *)
Lemma scan_remaining_filters_fuel column_ids fuel : forall idx tfs remaining,
  (length remaining - idx < fuel)%nat ->
  fuel_suffices (scan_remaining_filters fuel column_ids idx tfs remaining).
Proof.
  induction fuel as [|fuel IH]; intros idx tfs remaining Hf; [lia|].
  simpl. destruct (remaining !! idx) as [f|] eqn:Hidx; [|fuel_leaf].
  apply lookup_lt_Some in Hidx.
  apply fuel_suffices_bind; [apply fuel_suffices_scan_remaining_body|].
  intros [[exit tfs'] remaining'] Hbody.
  apply scan_remaining_body_length in Hbody.
  destruct exit; [|fuel_leaf]. apply IH. lia.
Qed.

Lemma fuel_suffices_scan_constant_values column_ids entries : forall tfs m,
  fuel_suffices (scan_constant_values column_ids entries tfs m).
Proof.
  induction entries as [|[s cl] entries IH]; intros tfs m; simpl; [fuel_leaf|].
  destruct cl as [|first rest]; [apply IH|].
  destruct (_ && _); [|apply IH].
  destruct (m !! s) as [[|[] [|]]|]; try apply IH; try fuel_leaf.
  apply fuel_suffices_bind; [apply fuel_suffices_vector_at|]. intros cid _.
  destruct (_ =? _); [fuel_leaf | apply IH].
Qed.

Lemma GenerateTableScanFilters_fuel column_ids c :
  fuel_suffices (GenerateTableScanFilters column_ids c).
Proof.
  unfold GenerateTableScanFilters.
  apply fuel_suffices_bind; [apply fuel_suffices_scan_constant_values|].
  intros [tfs m] _.
  apply fuel_suffices_bind; [apply scan_remaining_filters_fuel; lia|].
  intros [tfs' remaining] _. fuel_leaf.
Qed.

(** ** The order of values *)

Lemma Value_compare_key (a b : Value) :
  Value_compare a b = key_compare (value_key a) (value_key b).
Proof.
  unfold Value_compare, value_key.
  destruct (is_null a), (is_null b); simpl; try reflexivity.
  - destruct (type_ a); reflexivity.
  - destruct (type_ a), (type_ b); reflexivity.
Qed.

Lemma ascii_compare_refl (c : ascii) : Ascii.compare c c = Eq.
Proof. unfold Ascii.compare. apply N.compare_refl. Qed.

Lemma string_compare_lt_trans (a b c : string) :
  String.compare a b = Lt -> String.compare b c = Lt -> String.compare a c = Lt.
Proof.
  revert b c. induction a as [|x a IH]; intros [|y b] [|z c]; simpl; try congruence.
  unfold Ascii.compare.
  destruct (N.compare_spec (N_of_ascii x) (N_of_ascii y)) as [Hxy|Hxy|Hxy];
    destruct (N.compare_spec (N_of_ascii y) (N_of_ascii z)) as [Hyz|Hyz|Hyz];
    try congruence; intros H1 H2.
  - rewrite Hxy, Hyz, N.compare_refl. eapply IH; eauto.
  - rewrite Hxy. apply N.compare_lt_iff in Hyz. rewrite Hyz. reflexivity.
  - rewrite <- Hyz. apply N.compare_lt_iff in Hxy. rewrite Hxy. reflexivity.
  - assert (H : (N_of_ascii x < N_of_ascii z)%N) by lia.
    apply N.compare_lt_iff in H. rewrite H. reflexivity.
Qed.

Lemma key_compare_antisym (a b : ValueKey) :
  key_compare b a = option_map CompOpp (key_compare a b).
Proof.
  destruct a, b; simpl; try reflexivity.
  - rewrite Z.compare_antisym. reflexivity.
  - rewrite String.compare_antisym. reflexivity.
Qed.

Lemma key_compare_Eq (a b : ValueKey) : key_compare a b = Some Eq -> a = b.
Proof.
  destruct a, b; simpl; try discriminate; intros H; injection H as H.
  - apply Z.compare_eq in H. congruence.
  - apply String.compare_eq_iff in H. congruence.
Qed.

Lemma key_compare_lt_trans (a b c : ValueKey) :
  key_compare a b = Some Lt -> key_compare b c = Some Lt -> key_compare a c = Some Lt.
Proof.
  destruct a, b, c; simpl; try discriminate; intros H1 H2;
    injection H1 as H1; injection H2 as H2; f_equal.
  - rewrite Z.compare_lt_iff in *. lia.
  - eapply string_compare_lt_trans; eauto.
Qed.

(** Two comparisons with a common middle value determine the comparison of
    the ends when one of them is an equality or both point the same way. *)
Lemma key_compare_compose (a b c : ValueKey) (r1 r2 : comparison) :
  key_compare a b = Some r1 -> key_compare b c = Some r2 ->
  exists r, key_compare a c = Some r /\
    (r1 = Eq -> r = r2) /\ (r2 = Eq -> r = r1) /\ (r1 = r2 -> r = r1).
Proof.
  intros H1 H2.
  destruct r1.
  - apply key_compare_Eq in H1. subst b. exists r2. repeat split; auto; congruence.
  - destruct r2.
    + apply key_compare_Eq in H2. subst c. exists Lt. repeat split; auto; congruence.
    + exists Lt. split; [eapply key_compare_lt_trans; eauto|].
      repeat split; congruence.
    + assert (Hc : exists r, key_compare a c = Some r).
      { destruct a, b, c; simpl in *; try discriminate; eauto. }
      destruct Hc as [r Hr]. exists r. repeat split; congruence.
  - destruct r2.
    + apply key_compare_Eq in H2. subst c. exists Gt. repeat split; auto; congruence.
    + assert (Hc : exists r, key_compare a c = Some r).
      { destruct a, b, c; simpl in *; try discriminate; eauto. }
      destruct Hc as [r Hr]. exists r. repeat split; congruence.
    + exists Gt. split; [|repeat split; congruence].
      rewrite key_compare_antisym.
      rewrite (key_compare_lt_trans c b a); [reflexivity | |].
      * rewrite key_compare_antisym, H2. reflexivity.
      * rewrite key_compare_antisym, H1. reflexivity.
Qed.

Lemma Value_compare_antisym (a b : Value) :
  Value_compare b a = option_map CompOpp (Value_compare a b).
Proof. rewrite !Value_compare_key. apply key_compare_antisym. Qed.

Lemma Value_compare_compose (a b c : Value) (r1 r2 : comparison) :
  Value_compare a b = Some r1 -> Value_compare b c = Some r2 ->
  exists r, Value_compare a c = Some r /\
    (r1 = Eq -> r = r2) /\ (r2 = Eq -> r = r1) /\ (r1 = r2 -> r = r1).
Proof. rewrite !Value_compare_key. apply key_compare_compose. Qed.

Lemma Value_compare_Eq_l (a b c : Value) :
  Value_compare a b = Some Eq -> Value_compare a c = Value_compare b c.
Proof.
  rewrite !Value_compare_key. intros H. apply key_compare_Eq in H. congruence.
Qed.

(** *** Bounds on a value *)

Lemma holds_is_comparison v t c : holds v t c = true -> is_comparison t = true.
Proof. unfold holds. destruct t; try discriminate; reflexivity. Qed.

Lemma holds_comparable v t c :
  holds v t c = true -> exists r, Value_compare v c = Some r.
Proof.
  unfold holds. destruct (Value_compare v c) as [r|]; [eauto|].
  destruct t; discriminate.
Qed.

Lemma holds_flip a t b :
  holds a t b = holds b (FlipComparisionExpression t) a.
Proof.
  unfold holds. rewrite (Value_compare_antisym a b).
  destruct (Value_compare a b) as [[]|]; destruct t; reflexivity.
Qed.

Lemma same_value_refl a : same_value a a.
Proof. intros t c. reflexivity. Qed.

Lemma same_value_sym a b : same_value a b -> same_value b a.
Proof. intros H t c. symmetry. apply H. Qed.

Lemma same_value_trans a b c : same_value a b -> same_value b c -> same_value a c.
Proof. intros H1 H2 t x. rewrite H1. apply H2. Qed.

Lemma holds_EQUAL_same_value a b :
  holds a COMPARE_EQUAL b = true -> same_value a b.
Proof.
  unfold holds. destruct (Value_compare a b) as [[]|] eqn:E; try discriminate.
  intros _ t c. unfold holds. rewrite (Value_compare_Eq_l a b c E). reflexivity.
Qed.

(** A bound on the right operand of an equality passes to the left
    operand, and the other way round. *)
Lemma holds_same_value_r a t b c :
  holds b COMPARE_EQUAL c = true -> holds a t b = holds a t c.
Proof.
  intros H. rewrite (holds_flip a t b), (holds_flip a t c).
  apply holds_EQUAL_same_value in H. apply H.
Qed.

(** The bound that [AddTransitiveFilters] derives for the left operand of
    [vl ctype vr] from a bound [rtype c] on the right operand. *)
Lemma holds_transitive vl vr c ctype rtype :
  holds vl ctype vr = true -> holds vr rtype c = true ->
  (rtype = COMPARE_EQUAL -> holds vl ctype c = true) /\
  ((ctype = COMPARE_GREATERTHANOREQUALTO /\ IsGreaterThan rtype = true) \/
   (ctype = COMPARE_LESSTHANOREQUALTO /\ IsLessThan rtype = true) ->
   holds vl rtype c = true) /\
  ((ctype = COMPARE_GREATERTHAN /\ IsGreaterThan rtype = true) \/
   (ctype = COMPARE_LESSTHAN /\ IsLessThan rtype = true) ->
   holds vl ctype c = true).
Proof.
  intros H1 H2.
  destruct (holds_comparable _ _ _ H1) as [r1 E1].
  destruct (holds_comparable _ _ _ H2) as [r2 E2].
  destruct (Value_compare_compose _ _ _ _ _ E1 E2) as (r & E & C1 & C2 & C3).
  unfold holds in *. rewrite E1 in H1. rewrite E2 in H2. rewrite E.
  repeat split.
  - intros ->. destruct r2; try discriminate. rewrite (C2 eq_refl). assumption.
  - intros [[-> Hr] | [-> Hr]]; destruct rtype; try discriminate Hr;
      destruct r1, r2; try discriminate;
      try rewrite (C1 eq_refl); try rewrite (C2 eq_refl); try rewrite (C3 eq_refl);
      reflexivity.
  - intros [[-> Hr] | [-> Hr]]; destruct rtype; try discriminate Hr;
      destruct r1, r2; try discriminate;
      try rewrite (C1 eq_refl); try rewrite (C2 eq_refl); try rewrite (C3 eq_refl);
      reflexivity.
Qed.

(** *** Soundness of the pruning *)

(** Two bounds that one value satisfies are never reported
    unsatisfiable. *)
Lemma CompareValueInformation_sound v x y r :
  holds_info v x = true -> holds_info v y = true ->
  CompareValueInformation x y = Ok r -> r <> UNSATISFIABLE_CONDITION.
Proof.
  destruct x as [c1 t1], y as [c2 t2]. unfold holds_info. simpl.
  intros H1 H2.
  destruct (holds_comparable _ _ _ H1) as [r1 E1].
  destruct (holds_comparable _ _ _ H2) as [r2 E2].
  assert (E1' : Value_compare c1 v = Some (CompOpp r1)).
  { rewrite Value_compare_antisym, E1. reflexivity. }
  destruct (Value_compare_compose _ _ _ _ _ E1' E2) as (r12 & E & C1 & C2 & C3).
  assert (E' : Value_compare c2 c1 = Some (CompOpp r12)).
  { rewrite Value_compare_antisym, E. reflexivity. }
  unfold holds in H1, H2. rewrite E1 in H1. rewrite E2 in H2.
  unfold CompareValueInformation, CompareValueInformation_body,
    Value_lt, Value_gt, Value_le, Value_ge, Value_ne, Value_eq.
  simpl. rewrite E, E'.
  destruct t1; try discriminate H1; destruct t2; try discriminate H2;
    destruct r1; try discriminate H1; destruct r2; try discriminate H2;
    simpl in C1, C2, C3;
    try (specialize (C1 eq_refl)); try (specialize (C2 eq_refl));
    try (specialize (C3 eq_refl)); subst;
    try (destruct r12); simpl; intros Hr; inversion Hr; discriminate.
Qed.

Lemma AddConstantComparison_loop_sound v info : forall l l' r,
  Forall (fun x => holds_info v x = true) l -> holds_info v info = true ->
  AddConstantComparison_loop l info = Ok (l', r) ->
  Forall (fun x => holds_info v x = true) l' /\ r <> Some UNSATISFIABLE.
Proof.
  induction l as [|x l IH]; simpl; intros l' r Hl Hi H.
  - inversion H; subst. split; [constructor | discriminate].
  - inversion Hl as [|? ? Hx Hl']; subst.
    inv_bind H. pose proof (CompareValueInformation_sound _ _ _ _ Hx Hi E) as Hsound.
    destruct a.
    + apply IH in H; assumption.
    + inversion H; subst. split; [assumption | discriminate].
    + contradiction.
    + inv_bind H. destruct a as [rest' r']. inversion H; subst.
      apply IH in E0 as [H1 H2]; try assumption. split; [constructor|]; assumption.
Qed.

(** Adding a bound that holds of a value to bounds that hold of it: the
    bounds kept all hold, and the result is not UNSATISFIABLE. *)
Lemma AddConstantComparison_sound v l info l' r :
  Forall (fun x => holds_info v x = true) l -> holds_info v info = true ->
  AddConstantComparison l info = Ok (l', r) ->
  Forall (fun x => holds_info v x = true) l' /\ r <> UNSATISFIABLE.
Proof.
  unfold AddConstantComparison. intros Hl Hi H.
  inv_bind H. destruct a as [l0 r0].
  apply (AddConstantComparison_loop_sound v) in E as [H1 H2]; try assumption.
  destruct r0 as [fr|]; inversion H; subst.
  - split; [assumption | congruence].
  - split; [|discriminate]. apply Forall_app. split; [assumption|].
    constructor; [assumption | constructor].
Qed.

Lemma merge_constants_sound v : forall right_bucket left_bucket l' early,
  Forall (fun x => holds_info v x = true) left_bucket ->
  Forall (fun x => holds_info v x = true) right_bucket ->
  merge_constants right_bucket left_bucket = Ok (l', early) ->
  Forall (fun x => holds_info v x = true) l' /\ early = None.
Proof.
  induction right_bucket as [|i rest IH]; simpl; intros left_bucket l' early Hl Hr H.
  - inversion H; subst. split; [assumption | reflexivity].
  - inversion Hr as [|? ? Hi Hrest]; subst.
    inv_bind H. destruct a as [l1 r].
    apply (AddConstantComparison_sound v) in E as [H1 H2]; try assumption.
    destruct (bool_decide_reflect (r = UNSATISFIABLE)); [contradiction|].
    apply (IH l1 l' early); assumption.
Qed.

(** The loop of [AddTransitiveFilters] over the bounds of the right
    operand: the bounds of the left operand still hold of it, there is no
    early return, and the remaining filters grow by the comparison itself
    at most. *)
Lemma AddTransitiveFilters_loop_sound vl vr ctype filter (P : Expression -> Prop) :
  holds vl ctype vr = true -> P filter ->
  forall right_constants left_constants remaining ok ins l' remaining' ok' early,
  Forall (fun x => holds_info vr x = true) right_constants ->
  Forall (fun x => holds_info vl x = true) left_constants ->
  Forall P remaining ->
  AddTransitiveFilters_loop ctype filter right_constants left_constants remaining ok ins
    = Ok (l', remaining', ok', early) ->
  Forall (fun x => holds_info vl x = true) l' /\ early = None /\ Forall P remaining'.
Proof.
  intros Hc Hfilter.
  induction right_constants as [|rc rest IH]; simpl;
    intros left_constants remaining ok ins l' remaining' ok' early Hr Hl Hrem H.
  - inversion H; subst. auto.
  - inversion Hr as [|? ? Hrc Hrest]; subst.
    destruct (holds_transitive _ _ _ _ _ Hc Hrc) as (T1 & T2 & T3).
    match type of H with
    | match ?d with _ => _ end = _ => destruct d as [[info_type retain]|] eqn:Hd
    end.
    2: { eapply IH; eauto. }
    assert (Hinfo : holds_info vl (mkInfo (constant rc) info_type) = true).
    { unfold holds_info. simpl.
      destruct (bool_decide_reflect (comparison_type rc = COMPARE_EQUAL)) as [Heq|Hne].
      - inversion Hd; subst. apply T1. assumption.
      - destruct (_ || _) eqn:Hge in Hd.
        + inversion Hd; subst. apply T2.
          apply orb_true_iff in Hge as [Hge|Hge]; apply andb_true_iff in Hge as [Hc1 Hc2];
            apply bool_decide_eq_true in Hc1; auto.
        + destruct (_ || _) eqn:Hgt in Hd; [|discriminate].
          inversion Hd; subst. apply T3.
          apply orb_true_iff in Hgt as [Hgt|Hgt]; apply andb_true_iff in Hgt as [Hc1 Hc2];
            apply bool_decide_eq_true in Hc1; auto. }
    inv_bind H. destruct a as [l1 r].
    apply (AddConstantComparison_sound vl) in E as [H1 H2]; try assumption.
    destruct (bool_decide_reflect (r = UNSATISFIABLE)); [contradiction|].
    apply IH in H; try assumption.
    destruct (retain && negb ins); [|assumption].
    apply Forall_app. split; [assumption|]. constructor; [assumption | constructor].
Qed.

(** ** The combiner agrees with every satisfying assignment *)

Lemma Equals_true (a b : Expression) : Equals a b = true <-> a = b.
Proof. unfold Equals. apply bool_decide_eq_true. Qed.

Lemma expr_find_assign {V : Type} (m : expression_map_t V) (k k' : Expression) (v : V) :
  expr_find (expr_assign m k v) k' = if decide (k = k') then Some v else expr_find m k'.
Proof.
  induction m as [|[k0 v0] m IH]; simpl; unfold Equals in *.
  - repeat case_bool_decide; repeat case_decide; congruence.
  - repeat case_bool_decide; simpl; unfold Equals; rewrite ?IH;
      repeat case_bool_decide; repeat case_decide; congruence.
Qed.

Lemma expr_find_fold_assign {V : Type} (bucket : list Expression) (s : V) :
  forall (m : expression_map_t V) (e : Expression),
  expr_find (fold_left (fun m i => expr_assign m i s) bucket m) e
  = if decide (e ∈ bucket) then Some s else expr_find m e.
Proof.
  induction bucket as [|i bucket IH]; intros m e; simpl.
  - destruct (decide (e ∈ [])) as [H|H]; [inversion H | reflexivity].
  - rewrite IH, expr_find_assign.
    destruct (decide (e ∈ bucket)) as [Hin|Hnin].
    + rewrite decide_True by (right; assumption). reflexivity.
    + destruct (decide (i = e)) as [->|Hne].
      * rewrite decide_True by left. reflexivity.
      * rewrite decide_False; [reflexivity|].
        intros Hin. apply elem_of_cons in Hin as [->|Hin]; contradiction.
Qed.

Lemma GetNode_spec c e :
  exists stored,
    GetNode c e = (mkCombiner (remaining_filters c) stored (equivalence_set_map c)
                     (constant_values c) (equivalence_map c) (set_index c), e).
Proof.
  unfold GetNode. destruct (bool_decide _).
  - exists (stored_expressions c). destruct c. reflexivity.
  - eexists. reflexivity.
Qed.

Lemma FindTransitiveFilter_loop_sound (P : Expression -> Prop) e : forall remaining r rest,
  FindTransitiveFilter_loop e remaining = (r, rest) ->
  Forall P remaining ->
  Forall P rest /\
  (forall f, r = Some f -> P f /\ exists t l r', f = BoundComparison t l r').
Proof.
  induction remaining as [|f remaining IH]; simpl; intros r rest H Hall.
  - inversion H; subst. split; [constructor | discriminate].
  - inversion Hall as [|? ? Hf Hrem]; subst.
    assert (Hskip : forall r0 rest0,
              (let '(r1, rest') := FindTransitiveFilter_loop e remaining in (r1, f :: rest'))
              = (r0, rest0) ->
              Forall P rest0 /\
              (forall f0, r0 = Some f0 -> P f0 /\ exists t l r', f0 = BoundComparison t l r')).
    { intros r0 rest0 H0.
      destruct (FindTransitiveFilter_loop e remaining) as [r1 rest1] eqn:E.
      inversion H0; subst. destruct (IH _ _ eq_refl Hrem) as [I1 I2].
      split; [constructor; assumption | assumption]. }
    destruct f; try (apply Hskip; assumption).
    destruct (_ && _); [|apply Hskip; assumption].
    inversion H; subst. split; [assumption|].
    intros f0 Hf0. inversion Hf0; subst. split; [assumption | eauto].
Qed.

Section Soundness.

Variable IsFoldable : Expression -> bool.
Variable HasParameter : Expression -> bool.
Variable scalar_value : Expression -> Value.
Variable assignment : Expression -> Value.

Notation "'value_of'" := (operand_value IsFoldable scalar_value assignment).
Notation "'agrees'" := (consistent IsFoldable scalar_value assignment).
Notation "'kept_holds'" := (comparison_holds IsFoldable scalar_value assignment).

Lemma consistent_new : agrees FilterCombiner_new.
Proof.
  constructor; simpl; intros;
    repeat match goal with
           | H : is_Some _ |- _ => destruct H
           | H : context [∅ !! _] |- _ => rewrite lookup_empty in H
           end;
    try discriminate; constructor.
Qed.

Lemma consistent_stored c stored :
  agrees c ->
  agrees (mkCombiner (remaining_filters c) stored (equivalence_set_map c)
            (constant_values c) (equivalence_map c) (set_index c)).
Proof. intros [H1 H2 H3 H4 H5 H6 H7]. constructor; simpl; assumption. Qed.

Lemma consistent_set_remaining c remaining :
  agrees c -> Forall kept_holds remaining -> agrees (set_remaining c remaining).
Proof. intros [H1 H2 H3 H4 H5 H6 H7] H. constructor; simpl; assumption. Qed.

Lemma consistent_set_constants c s l e0 :
  agrees c -> expr_find (equivalence_set_map c) e0 = Some s ->
  Forall (fun x => holds_info (value_of e0) x = true) l ->
  agrees (set_constants c s l).
Proof.
  intros [H1 H2 H3 H4 H5 H6 H7] He0 Hl. constructor; simpl; try assumption.
  - intros e s' cs info He Hcs Hin.
    destruct (decide (s = s')) as [<-|Hne].
    + rewrite lookup_insert_eq in Hcs. inversion Hcs; subst.
      rewrite Forall_forall in Hl. unfold holds_info.
      rewrite <- (H1 e0 e s He0 He). apply Hl. assumption.
    + rewrite lookup_insert_ne in Hcs by assumption. eapply H3; eauto.
  - intros s' Hs'. destruct (decide (s = s')) as [<-|Hne].
    + eapply H5; eauto.
    + rewrite lookup_insert_ne in Hs' by assumption. auto.
Qed.

(** [GetEquivalenceSet] keeps the agreement and maps the expression to the
    set it returns. *)
Lemma GetEquivalenceSet_sound c e c' s :
  agrees c -> GetEquivalenceSet c e = Ok (c', s) ->
  agrees c' /\ expr_find (equivalence_set_map c') e = Some s /\
  remaining_filters c' = remaining_filters c /\
  (forall e' s', expr_find (equivalence_set_map c) e' = Some s' ->
                 expr_find (equivalence_set_map c') e' = Some s').
Proof.
  intros Hc H. unfold GetEquivalenceSet in H.
  destruct (bool_decide _); [|discriminate].
  destruct (expr_find (equivalence_set_map c) e) as [index|] eqn:Hfind.
  { inversion H; subst. auto. }
  inversion H; subst; clear H. simpl.
  destruct Hc as [H1 H2 H3 H4 H5 H6 H7].
  assert (Hcv : constant_values c !! set_index c = None).
  { destruct (constant_values c !! set_index c) eqn:E; [|reflexivity].
    specialize (H7 (set_index c) ltac:(eauto)). lia. }
  assert (Hem : equivalence_map c !! set_index c = None).
  { destruct (equivalence_map c !! set_index c) eqn:E; [|reflexivity].
    specialize (H6 (set_index c) ltac:(eauto)). lia. }
  assert (Hfresh : forall e', expr_find (equivalence_set_map c) e' <> Some (set_index c)).
  { intros e' He'. specialize (H5 _ _ He'). lia. }
  rewrite Hcv, Hem. simpl.
  split; [|split; [|split]].
  - constructor; simpl.
    + intros e1 e2 s0. rewrite !expr_find_assign.
      destruct (decide (e = e1)) as [<-|N1], (decide (e = e2)) as [<-|N2]; intros A B.
      * apply same_value_refl.
      * inversion A; subst. exfalso. eapply Hfresh; eauto.
      * inversion B; subst. exfalso. eapply Hfresh; eauto.
      * eapply H1; eauto.
    + intros s0 es e1 e2 Hes Hin. rewrite expr_find_assign.
      destruct (decide (set_index c = s0)) as [<-|Ns].
      * rewrite lookup_insert_eq in Hes. inversion Hes; subst.
        apply list_elem_of_singleton in Hin. subst e1.
        destruct (decide (e = e2)) as [<-|N2]; intros B.
        -- apply same_value_refl.
        -- exfalso. eapply Hfresh; eauto.
      * rewrite lookup_insert_ne in Hes by assumption.
        destruct (decide (e = e2)) as [<-|N2]; intros B.
        -- inversion B; subst. contradiction.
        -- eapply H2; eauto.
    + intros e1 s0 cs info. rewrite expr_find_assign.
      destruct (decide (e = e1)) as [<-|N1]; intros A Hcs Hin.
      * inversion A; subst. rewrite lookup_insert_eq in Hcs. inversion Hcs; subst.
        inversion Hin.
      * rewrite lookup_insert_ne in Hcs; [eapply H3; eauto|].
        intros <-. eapply Hfresh; eauto.
    + assumption.
    + intros e1 s0. rewrite expr_find_assign.
      destruct (decide (e = e1)) as [<-|N1]; intros A.
      * inversion A; subst. lia.
      * specialize (H5 _ _ A). lia.
    + intros s0 Hs0. destruct (decide (set_index c = s0)) as [<-|Ns]; [lia|].
      rewrite lookup_insert_ne in Hs0 by assumption. specialize (H6 _ Hs0). lia.
    + intros s0 Hs0. destruct (decide (set_index c = s0)) as [<-|Ns]; [lia|].
      rewrite lookup_insert_ne in Hs0 by assumption. specialize (H7 _ Hs0). lia.
  - rewrite expr_find_assign, decide_True by reflexivity. reflexivity.
  - reflexivity.
  - intros e' s' He'. rewrite expr_find_assign.
    destruct (decide (e = e')) as [<-|N]; [congruence | assumption].
Qed.

Lemma FindTransitiveFilter_sound c e c' tf :
  agrees c -> FindTransitiveFilter c e = (c', tf) ->
  agrees c' /\
  (forall f, tf = Some f -> kept_holds f /\ exists t l r, f = BoundComparison t l r).
Proof.
  intros Hc H. unfold FindTransitiveFilter in H.
  destruct (bool_decide _).
  - destruct (FindTransitiveFilter_loop e (remaining_filters c)) as [r rest] eqn:E.
    inversion H; subst.
    apply (FindTransitiveFilter_loop_sound kept_holds) in E as [E1 E2];
      [|apply Hc].
    split; [apply consistent_set_remaining; assumption | assumption].
  - inversion H; subst. split; [assumption | discriminate].
Qed.

Lemma structural_kept_holds e :
  structural IsFoldable scalar_value assignment e = true -> kept_holds e.
Proof.
  destruct e as [| |t l r| | | | |]; simpl; try exact (fun _ => I).
  intros H Hfam. destruct t; try discriminate Hfam; exact H.
Qed.

(** [AddTransitiveFilters] on a comparison that holds keeps the agreement
    and does not return UNSATISFIABLE. *)
Lemma AddTransitiveFilters_sound fuel : forall c ctype cleft cright c' r,
  agrees c -> kept_holds (BoundComparison ctype cleft cright) ->
  AddTransitiveFilters fuel c ctype cleft cright = Ok (c', r) ->
  agrees c' /\ r <> UNSATISFIABLE.
Proof.
  induction fuel as [|fuel IH]; intros c ctype cleft cright c' r Hc Hcmp H;
    [discriminate|].
  cbn [AddTransitiveFilters] in H.
  destruct (IsGreaterThan ctype || IsLessThan ctype) eqn:Hfam; [|discriminate].
  cbn [negb] in H. simpl in Hcmp. specialize (Hcmp Hfam).
  destruct (GetNode_spec c cleft) as [st1 Hn1]. rewrite Hn1 in H.
  match type of H with
  | context [GetNode ?c1 cright] =>
      destruct (GetNode_spec c1 cright) as [st2 Hn2]; rewrite Hn2 in H;
      assert (Hc1 : agrees c1) by (apply consistent_stored; assumption)
  end.
  simpl in H.
  destruct (Equals cleft cright).
  { inversion H; subst. split; [|discriminate].
    apply (consistent_stored _ st2) in Hc1. exact Hc1. }
  apply (consistent_stored _ st2) in Hc1. simpl in Hc1.
  inv_bind H. destruct a as [c3 left_set].
  apply GetEquivalenceSet_sound in E as (Hc3 & Hl3 & Hrem3 & Hmono3); [|assumption].
  inv_bind H. destruct a as [c4 right_set].
  apply GetEquivalenceSet_sound in E as (Hc4 & Hr4 & Hrem4 & Hmono4); [|assumption].
  apply Hmono4 in Hl3 as Hl4.
  destruct (bool_decide (left_set = right_set)).
  { inversion H; subst. split; [assumption | discriminate]. }
  inv_bind H. rename a into left_constants.
  inv_bind H. rename a into right_constants.
  unfold get_constants in E, E0.
  destruct (constant_values c4 !! left_set) as [lc|] eqn:Elc; [|discriminate].
  destruct (constant_values c4 !! right_set) as [rc|] eqn:Erc; [|discriminate].
  inversion E; inversion E0; subst; clear E E0.
  inv_bind H. destruct a as [[[l' remaining'] ok'] early].
  apply (AddTransitiveFilters_loop_sound (value_of cleft) (value_of cright) _ _ kept_holds)
    in E as (L1 & L2 & L3); try assumption.
  2: { simpl. intros _. assumption. }
  2: { apply Forall_forall. intros info Hin. eapply (cons_bounds _ _ _ _ Hc4); eauto. }
  2: { apply Forall_forall. intros info Hin. eapply (cons_bounds _ _ _ _ Hc4); eauto. }
  2: { apply Hc4. }
  subst early.
  assert (Hc5 : agrees (set_remaining (set_constants c4 left_set l') remaining')).
  { apply consistent_set_remaining; [|assumption].
    eapply consistent_set_constants; eauto. }
  destruct ok'; [|inversion H; subst; split; [assumption | discriminate]].
  destruct (FindTransitiveFilter _ cleft) as [c6 tf] eqn:Etf.
  apply FindTransitiveFilter_sound in Etf as [Hc6 Htf]; [|assumption].
  destruct tf as [f|]; [|inversion H; subst; split; [assumption | discriminate]].
  destruct (Htf f eq_refl) as [Hf (t & l & r0 & ->)].
  inv_bind H. destruct a as [c7 res].
  apply IH in E as [Hc7 Hres]; try assumption.
  destruct (bool_decide (res = UNSUPPORTED)); inversion H; subst;
    (split; [|discriminate]); [|assumption].
  apply consistent_set_remaining; [assumption|].
  apply Forall_app. split; [apply Hc7|]. constructor; [assumption | constructor].
Qed.

Lemma try_transitive_sound fuel c tf c' :
  agrees c ->
  (forall f, tf = Some f -> kept_holds f /\ exists t l r, f = BoundComparison t l r) ->
  try_transitive fuel c tf = Ok c' -> agrees c'.
Proof.
  intros Hc Htf H. unfold try_transitive in H.
  destruct tf as [f|]; [|inversion H; subst; assumption].
  destruct (Htf f eq_refl) as [Hf (t & l & r0 & ->)].
  inv_bind H. destruct a as [c1 res].
  apply AddTransitiveFilters_sound in E as [Hc1 Hres]; try assumption.
  destruct (bool_decide (res = UNSUPPORTED)); inversion H; subst; [|assumption].
  apply consistent_set_remaining; [assumption|].
  apply Forall_app. split; [apply Hc1|]. constructor; [assumption | constructor].
Qed.

Lemma EvaluateScalar_Ok e v :
  EvaluateScalar IsFoldable scalar_value e = Ok v ->
  IsFoldable e = true /\ v = scalar_value e.
Proof.
  unfold EvaluateScalar. destruct (IsFoldable e); [|discriminate].
  intros H. inversion H. auto.
Qed.

(** Adding a scalar bound that holds of the node [e0] to the constants of
    its set. *)
Lemma add_scalar_bound_sound c e0 s info_list info l' ret :
  agrees c -> expr_find (equivalence_set_map c) e0 = Some s ->
  get_constants c s = Ok info_list ->
  holds_info (value_of e0) info = true ->
  AddConstantComparison info_list info = Ok (l', ret) ->
  agrees (set_constants c s l') /\ ret <> UNSATISFIABLE.
Proof.
  intros Hc He0 Hget Hinfo H. unfold get_constants in Hget.
  destruct (constant_values c !! s) as [cs|] eqn:Ecs; [|discriminate].
  inversion Hget; subst.
  apply (AddConstantComparison_sound (value_of e0)) in H as [H1 H2]; try assumption.
  - split; [|assumption]. eapply consistent_set_constants; eauto.
  - apply Forall_forall. intros x Hx. eapply (cons_bounds _ _ _ _ Hc); eauto.
Qed.

Lemma set_constants_find c s l :
  equivalence_set_map (set_constants c s l) = equivalence_set_map c.
Proof. reflexivity. Qed.

(** [AddBoundComparisonFilter] on a comparison that the assignment
    satisfies. *)
Lemma AddBoundComparisonFilter_sound fuel c expr c' r :
  agrees c -> structural IsFoldable scalar_value assignment expr = true ->
  AddBoundComparisonFilter IsFoldable scalar_value fuel c expr = Ok (c', r) ->
  agrees c' /\ r <> UNSATISFIABLE.
Proof.
  intros Hc Hsat H. unfold AddBoundComparisonFilter in H.
  destruct expr as [| |ctype cleft cright| | | | |]; try discriminate.
  assert (Hkept : kept_holds (BoundComparison ctype cleft cright))
    by (apply structural_kept_holds; assumption).
  simpl in Hsat.
  match type of H with
  | (if negb ?b then _ else _) = _ => destruct b eqn:Hsix; simpl in H
  end.
  2: { inversion H; subst. split; [assumption | discriminate]. }
  assert (His : is_comparison ctype = true).
  { destruct ctype; try discriminate Hsix; reflexivity. }
  rewrite His in Hsat.
  destruct (IsFoldable cleft || IsFoldable cright) eqn:Hscalar.
  - (* comparison with scalar *)
    match type of H with
    | context [GetNode c ?n] => destruct (GetNode_spec c n) as [st1 Hn]; rewrite Hn in H
    end.
    apply (consistent_stored _ st1) in Hc.
    inv_bind H. destruct a as [c2 set].
    apply GetEquivalenceSet_sound in E as (Hc2 & Hfind & _ & _); [|assumption].
    inv_bind H. rename a into constant_value.
    apply EvaluateScalar_Ok in E as [Hfold ->].
    inv_bind H. rename a into info_list.
    inv_bind H. destruct a as [l' ret].
    eapply add_scalar_bound_sound in E0 as [Hc3 Hret]; eauto.
    2: { unfold holds_info. simpl.
         destruct (IsFoldable cleft) eqn:Fl.
         - rewrite holds_flip in Hsat.
           replace (value_of cleft) with (scalar_value cleft) in Hsat
             by (unfold operand_value; rewrite Fl; reflexivity).
           exact Hsat.
         - simpl in Hscalar.
           replace (value_of cright) with (scalar_value cright) in Hsat
             by (unfold operand_value; rewrite Hscalar; reflexivity).
           exact Hsat. }
    destruct (FindTransitiveFilter _ _) as [c4 tf] eqn:Etf.
    apply FindTransitiveFilter_sound in Etf as [Hc4 Htf]; [|assumption].
    inv_bind H. inversion H; subst.
    split; [|assumption]. exact (try_transitive_sound fuel c4 tf c' Hc4 Htf E0).
  - destruct (negb (bool_decide (ctype = COMPARE_EQUAL))) eqn:Hne.
    { destruct (IsGreaterThan ctype || IsLessThan ctype).
      - eapply AddTransitiveFilters_sound; eauto.
      - inversion H; subst. split; [assumption | discriminate]. }
    apply negb_false_iff, bool_decide_eq_true in Hne. subst ctype.
    destruct (GetNode_spec c cleft) as [st1 Hn1]. rewrite Hn1 in H.
    match type of H with
    | context [GetNode ?c1 cright] =>
        destruct (GetNode_spec c1 cright) as [st2 Hn2]; rewrite Hn2 in H
    end.
    simpl in H. apply (consistent_stored _ st2) in Hc.
    destruct (Equals cleft cright).
    { inversion H; subst. split; [assumption | discriminate]. }
    inv_bind H. destruct a as [c3 left_set].
    apply GetEquivalenceSet_sound in E as (Hc3 & Hl3 & _ & _); [|assumption].
    inv_bind H. destruct a as [c4 right_set].
    apply GetEquivalenceSet_sound in E as (Hc4 & Hr4 & _ & Hmono4); [|assumption].
    apply Hmono4 in Hl3 as Hl4.
    destruct (bool_decide (left_set = right_set)) eqn:Hsets.
    { inversion H; subst. split; [assumption | discriminate]. }
    apply bool_decide_eq_false in Hsets.
    inv_bind H. rename a into left_bucket.
    inv_bind H. rename a into right_bucket.
    unfold get_bucket in E, E0.
    destruct (equivalence_map c4 !! left_set) as [lb|] eqn:Elb; [|discriminate].
    destruct (equivalence_map c4 !! right_set) as [rb|] eqn:Erb; [|discriminate].
    inversion E; inversion E0; subst; clear E E0.
    inv_bind H. rename a into left_constants.
    inv_bind H. rename a into right_constants.
    unfold get_constants in E, E0. simpl in E, E0.
    destruct (constant_values c4 !! left_set) as [lc|] eqn:Elc; [|discriminate].
    destruct (constant_values c4 !! right_set) as [rc|] eqn:Erc; [|discriminate].
    inversion E; inversion E0; subst; clear E E0.
    inv_bind H. destruct a as [merged early].
    (* every expression of the merged set has the value of both operands *)
    assert (Hsame : same_value (value_of cleft) (value_of cright))
      by (apply holds_EQUAL_same_value; assumption).
    assert (Hmember : forall e,
              (if decide (e ∈ right_bucket) then Some left_set
               else expr_find (equivalence_set_map c4) e) = Some left_set ->
              same_value (value_of cleft) (value_of e)).
    { intros e. destruct (decide (e ∈ right_bucket)) as [Hin|Hnin]; intros He.
      - eapply same_value_trans; [exact Hsame|]. apply same_value_sym.
        eapply (cons_bucket _ _ _ _ Hc4); eauto.
      - eapply (cons_set _ _ _ _ Hc4); eauto. }
    apply (merge_constants_sound (value_of cleft)) in E as [M1 M2].
    2: { apply Forall_forall. intros x Hx. eapply (cons_bounds _ _ _ _ Hc4); eauto. }
    2: { apply Forall_forall. intros x Hx. unfold holds_info. rewrite (Hsame _ _).
         eapply (cons_bounds _ _ _ _ Hc4); eauto. }
    subst early. inversion H; subst; clear H. split; [|discriminate].
    destruct Hc4 as [Kset Kbucket Kbounds Krem Kfs Kfb Kfc].
    constructor; simpl.
    + intros e1 e2 s. rewrite !expr_find_fold_assign. intros A B.
      destruct (decide (s = left_set)) as [->|Ns].
      * eapply same_value_trans; [apply same_value_sym; apply Hmember; exact A|].
        apply Hmember. exact B.
      * destruct (decide (e1 ∈ right_bucket)); [congruence|].
        destruct (decide (e2 ∈ right_bucket)); [congruence|].
        eapply Kset; eauto.
    + intros s es e1 e2 Hes Hin. rewrite expr_find_fold_assign. intros B.
      destruct (decide (left_set = s)) as [<-|Ns].
      * rewrite lookup_insert_eq in Hes. injection Hes as <-.
        eapply same_value_trans; [|apply Hmember; exact B].
        apply elem_of_app in Hin as [Hin|Hin].
        -- exact (Kbucket _ _ _ _ Elb Hin Hl4).
        -- eapply same_value_trans; [exact (Kbucket _ _ _ _ Erb Hin Hr4)|].
           apply same_value_sym. exact Hsame.
      * rewrite lookup_insert_ne in Hes by assumption.
        destruct (decide (e2 ∈ right_bucket)); [congruence|]. eapply Kbucket; eauto.
    + intros e s cs info. rewrite expr_find_fold_assign. intros A Hcs Hin.
      destruct (decide (left_set = s)) as [<-|Ns].
      * rewrite lookup_insert_eq in Hcs. injection Hcs as <-.
        rewrite Forall_forall in M1. unfold holds_info.
        rewrite <- (Hmember e A). apply M1. assumption.
      * rewrite lookup_insert_ne in Hcs by assumption.
        destruct (decide (e ∈ right_bucket)); [congruence|]. eapply Kbounds; eauto.
    + assumption.
    + intros e s. rewrite expr_find_fold_assign.
      destruct (decide (e ∈ right_bucket)); intros A.
      * inversion A; subst. eapply Kfs; eauto.
      * eapply Kfs; eauto.
    + intros s Hs. destruct (decide (left_set = s)) as [<-|Ns].
      * eapply Kfs; eauto.
      * rewrite lookup_insert_ne in Hs by assumption. auto.
    + intros s Hs. destruct (decide (left_set = s)) as [<-|Ns].
      * eapply Kfs; eauto.
      * rewrite lookup_insert_ne in Hs by assumption. auto.
Qed.

Lemma satisfies_kept_holds e :
  satisfies IsFoldable HasParameter scalar_value assignment e = true ->
  HasParameter e = true \/ IsFoldable e = false -> kept_holds e.
Proof.
  unfold satisfies. intros H [Hp|Hf].
  - rewrite Hp in H. apply structural_kept_holds. exact H.
  - rewrite Hf in H. destruct (HasParameter e); apply structural_kept_holds; exact H.
Qed.

Lemma operand_value_scalar e : IsFoldable e = true -> value_of e = scalar_value e.
Proof. intros H. unfold operand_value. rewrite H. reflexivity. Qed.

(** [AddFilter(Expression *expr)] on a predicate that the assignment
    satisfies: the combiner still agrees with the assignment, the result
    is not UNSATISFIABLE, and an unsupported predicate is one that may be
    kept among the remaining filters. *)
Lemma AddFilter_expr_sound fuel c expr c' r :
  agrees c -> satisfies IsFoldable HasParameter scalar_value assignment expr = true ->
  AddFilter_expr IsFoldable HasParameter scalar_value fuel c expr = Ok (c', r) ->
  agrees c' /\ r <> UNSATISFIABLE /\ (r = UNSUPPORTED -> kept_holds expr).
Proof.
  intros Hc Hsat H. unfold AddFilter_expr in H.
  destruct (HasParameter expr) eqn:Hp.
  { inversion H; subst. split; [assumption|]. split; [discriminate|].
    intros _. apply satisfies_kept_holds; auto. }
  destruct (IsFoldable expr) eqn:Hf.
  { inv_bind H. apply EvaluateScalar_Ok in E as [_ ->].
    inv_bind H. unfold satisfies in Hsat. rewrite Hp, Hf in Hsat.
    unfold truthy in Hsat. rewrite E in Hsat.
    destruct (is_null a || (value_ a =? 0)); [discriminate Hsat|].
    inversion H; subst. split; [assumption|]. split; discriminate. }
  assert (Hkept : kept_holds expr) by (apply satisfies_kept_holds; auto).
  unfold satisfies in Hsat. rewrite Hp, Hf in Hsat.
  destruct expr as [| |ctype cleft cright|input lower upper li ui| | | |];
    try (inversion H; subst; split; [assumption|]; split; [discriminate | auto]).
  - (* comparison *)
    apply AddBoundComparisonFilter_sound in H as [H1 H2]; auto.
  - (* BETWEEN *)
    simpl in Hsat. apply andb_prop in Hsat as [Hlo Hup].
    destruct (IsFoldable lower || IsFoldable upper);
      [|inversion H; subst; split; [assumption|]; split; [discriminate | auto]].
    destruct (GetNode_spec c input) as [st1 Hn]. rewrite Hn in H.
    apply (consistent_stored _ st1) in Hc.
    inv_bind H. destruct a as [c2 set].
    apply GetEquivalenceSet_sound in E as (Hc2 & Hfind & _ & _); [|assumption].
    inv_bind H. apply EvaluateScalar_Ok in E as [Flo ->].
    inv_bind H. rename a into info_list.
    inv_bind H. destruct a as [l1 ret1].
    eapply add_scalar_bound_sound in E0 as [Hc3 _]; eauto.
    2: { unfold holds_info. simpl. rewrite <- (operand_value_scalar lower Flo).
         exact Hlo. }
    inv_bind H. apply EvaluateScalar_Ok in E0 as [Fup ->].
    inv_bind H. rename a into info_list2.
    inv_bind H. destruct a as [l2 ret2].
    eapply (add_scalar_bound_sound (set_constants c2 set l1) input) in E1 as [Hc4 Hret];
      eauto.
    2: { unfold holds_info. simpl. rewrite <- (operand_value_scalar upper Fup).
         exact Hup. }
    inversion H; subst. split; [assumption|]. split; [assumption | auto].
Qed.

Lemma AddFilter_sound fuel c expr c' r :
  agrees c -> satisfies IsFoldable HasParameter scalar_value assignment expr = true ->
  AddFilter IsFoldable HasParameter scalar_value fuel c expr = Ok (c', r) ->
  agrees c' /\ r <> UNSATISFIABLE.
Proof.
  intros Hc Hsat H. unfold AddFilter in H.
  inv_bind H. destruct a as [c1 res].
  apply AddFilter_expr_sound in E as (Hc1 & Hres & Hkept); try assumption.
  destruct (bool_decide_reflect (res = UNSUPPORTED)) as [Hu|Hu];
    inversion H; subst; (split; [|assumption || discriminate]); [|assumption].
  apply consistent_set_remaining; [assumption|].
  apply Forall_app. split; [apply Hc1|]. constructor; [auto | constructor].
Qed.

(** The results of a sequence of [AddFilter] calls: if the call on the
    [n]-th predicate returned UNSATISFIABLE, the assignment does not
    satisfy the first [n + 1] predicates. *)
Lemma AddFilters_sound fuel : forall exprs c c' rs n,
  agrees c ->
  AddFilters IsFoldable HasParameter scalar_value fuel c exprs = Ok (c', rs) ->
  rs !! n = Some UNSATISFIABLE ->
  ~ Forall (fun e => satisfies IsFoldable HasParameter scalar_value assignment e = true)
           (take (S n) exprs).
Proof.
  induction exprs as [|e rest IH]; intros c c' rs n Hc H Hn Hall; simpl in H.
  - inversion H; subst. discriminate Hn.
  - inv_bind H. destruct a as [c1 r].
    inv_bind H. destruct a as [c2 rs'].
    inversion H; subst; clear H.
    simpl in Hall. inversion Hall as [|? ? He Hrest]; subst.
    apply AddFilter_sound in E as [Hc1 Hr]; try assumption.
    destruct n as [|n]; simpl in Hn.
    + inversion Hn; subst. contradiction.
    + exact (IH c1 c' rs' n Hc1 E0 Hn Hrest).
Qed.

End Soundness.

(** C2. Soundness of UNSATISFIABLE: the predicates [exprs] are fed in
    order to [AddFilter] on a fresh combiner; if the call on the [n]-th
    predicate returns UNSATISFIABLE, then no assignment of values to the
    non-scalar expressions satisfies all of the predicates added so far,
    the [n]-th included. *)
Theorem C2_unsatisfiable_is_sound
    (IsFoldable HasParameter : Expression -> bool) (scalar_value : Expression -> Value)
    (fuel : nat) (exprs : list Expression) (c : FilterCombiner)
    (rs : list FilterResult) (n : nat) :
  AddFilters IsFoldable HasParameter scalar_value fuel FilterCombiner_new exprs
    = Ok (c, rs) ->
  rs !! n = Some UNSATISFIABLE ->
  forall assignment : Expression -> Value,
    ~ Forall (fun e => satisfies IsFoldable HasParameter scalar_value assignment e = true)
             (take (S n) exprs).
Proof.
  intros H Hn assignment.
  exact (AddFilters_sound IsFoldable HasParameter scalar_value assignment fuel
           exprs FilterCombiner_new c rs n
           (consistent_new IsFoldable scalar_value assignment) H Hn).
Qed.

(** [a = 5] then [a > 7]: the second call returns UNSATISFIABLE, and the
    row with [a = 5] does not satisfy both. *)
Lemma C2_unsatisfiable_is_sound_witness :
  exists c,
    example_AddFilters 5 FilterCombiner_new
      [BoundComparison COMPARE_EQUAL (column 0) (int_constant 5);
       BoundComparison COMPARE_GREATERTHAN (column 0) (int_constant 7)]
    = Ok (c, [SUCCESS; UNSATISFIABLE]) /\
    ~ Forall (fun e => satisfies example_IsFoldable example_HasParameter
                         example_scalar_value (fun _ => Value_Numeric INTEGER 5) e = true)
             (take 2 [BoundComparison COMPARE_EQUAL (column 0) (int_constant 5);
                      BoundComparison COMPARE_GREATERTHAN (column 0) (int_constant 7)]).
Proof.
  eexists. split.
  - vm_compute. reflexivity.
  - eapply (C2_unsatisfiable_is_sound example_IsFoldable example_HasParameter
              example_scalar_value 5 _ _ [SUCCESS; UNSATISFIABLE] 1).
    + vm_compute. reflexivity.
    + reflexivity.
Defined.

(** ** The boundary failure of the window operator is unreachable *)

(** The failures of the helpers are index and assertion failures. *)
Lemma bind_Throw {A B : Type} (c : result A) (k : A -> result B) (f : Failure) :
  c ≫= k = Throw f -> c = Throw f \/ exists a, c = Ok a /\ k a = Throw f.
Proof.
  destruct c as [a|g]; simpl; intros H; [right; eauto | left; congruence].
Qed.

Lemma vector_at_no_boundary_failure {A : Type} (v : list A) (i : Z) :
  vector_at v i <> Throw WindowBoundaryException.
Proof.
  unfold vector_at. destruct (i <? 0); [discriminate|].
  destruct (v !! Z.to_nat i); discriminate.
Qed.

Lemma GetValue_no_boundary_failure c col i :
  GetValue c col i <> Throw WindowBoundaryException.
Proof.
  unfold GetValue, GetRow. intros H. apply bind_Throw in H as [H|(a & _ & H)];
    exact (vector_at_no_boundary_failure _ _ H).
Qed.

Lemma EqualsSubset_no_boundary_failure a b s e :
  EqualsSubset a b s e <> Throw WindowBoundaryException.
Proof.
  unfold EqualsSubset. destruct (e <? s); [discriminate|].
  generalize (Z.to_nat (e - s)) as n. intros n. revert s.
  induction n as [|n IH]; simpl; intros s H; [discriminate|].
  apply bind_Throw in H as [H|(x & _ & H)];
    [exact (vector_at_no_boundary_failure _ _ H)|].
  apply bind_Throw in H as [H|(y & _ & H)];
    [exact (vector_at_no_boundary_failure _ _ H)|].
  destruct (Value_ne x y); [discriminate | exact (IH _ H)].
Qed.

Lemma less_than_equals_no_boundary_failure n : forall a b i,
  less_than_equals_loop n a b i <> Throw WindowBoundaryException.
Proof.
  induction n as [|n IH]; simpl; intros a b i H; [discriminate|].
  apply bind_Throw in H as [H|(x & _ & H)];
    [exact (vector_at_no_boundary_failure _ _ H)|].
  apply bind_Throw in H as [H|(y & _ & H)];
    [exact (vector_at_no_boundary_failure _ _ H)|].
  destruct (Value_gt x y); [discriminate | exact (IH _ _ _ H)].
Qed.

Lemma BinarySearchRightmost_no_boundary_failure input row l r cc :
  BinarySearchRightmost input row l r cc <> Throw WindowBoundaryException.
Proof.
  unfold BinarySearchRightmost. destruct (cc =? 0); [discriminate|].
  generalize (S (Z.to_nat (r - l))) as fuel. intros fuel. revert l r.
  induction fuel as [|fuel IH]; simpl; intros l r H; [discriminate|].
  destruct (l <? r); [|discriminate].
  apply bind_Throw in H as [H|(row_m & _ & H)];
    [exact (vector_at_no_boundary_failure _ _ H)|].
  apply bind_Throw in H as [H|(le & _ & H)];
    [exact (less_than_equals_no_boundary_failure _ _ _ _ H)|].
  destruct le; exact (IH _ _ H).
Qed.

Lemma boundary_offset_no_boundary_failure c e i :
  boundary_offset c e i <> Throw WindowBoundaryException.
Proof.
  unfold boundary_offset. destruct (_ >? 0); [|discriminate].
  destruct e as [s|]; [|discriminate]. intros H.
  apply bind_Throw in H as [H|(v & _ & H)];
    [exact (GetValue_no_boundary_failure _ _ _ H) | discriminate].
Qed.

(** X6. Below 2^53 rows, and with the partition of the previous row inside
    the collection, [UpdateWindowBoundaries] never raises the boundary
    failure, whatever the frame: after the two clamps [window_start] is at
    least [partition_start], and a negative [window_end], read as an
    unsigned number, is above [partition_end] and has been replaced by
    it. *)
Lemma UpdateWindowBoundaries_no_boundary_failure wexpr rows idx bsc bec b :
  count rows < 2 ^ 53 ->
  0 <= partition_start b < 2 ^ 63 -> 0 <= partition_end b <= count rows ->
  UpdateWindowBoundaries wexpr rows idx bsc bec b <> Throw WindowBoundaryException.
Proof.
  intros Hc Hps Hpe H. unfold UpdateWindowBoundaries in H.
  apply bind_Throw in H as [H|(row_cur & Hrow & H)];
    [exact (vector_at_no_boundary_failure _ _ H)|].
  apply vector_at_range in Hrow as Hidx. fold (count rows) in Hidx.
  apply bind_Throw in H as [H|(same & _ & H)];
    [exact (EqualsSubset_no_boundary_failure _ _ _ _ H)|].
  apply bind_Throw in H as [H|(peer & _ & H)].
  { destruct same; [exact (EqualsSubset_no_boundary_failure _ _ _ _ H) | discriminate]. }
  apply bind_Throw in H as [H|([[p_start p_end] pr_start] & Hp & H)].
  { destruct (negb same || _).
    - apply bind_Throw in H as [H|(e & _ & H)];
        [exact (BinarySearchRightmost_no_boundary_failure _ _ _ _ _ H) | discriminate].
    - destruct (negb peer); discriminate. }
  assert (Hbounds : 0 <= p_start < 2 ^ 63 /\ 0 <= p_end < 2 ^ 63).
  { destruct (negb same || _).
    - inv_bind Hp. inversion Hp; subst.
      apply BinarySearchRightmost_range in E; lia.
    - destruct (negb peer); inversion Hp; subst; lia. }
  destruct Hbounds as [Hs He].
  apply bind_Throw in H as [H|(pr_end & _ & H)].
  { destruct (end_ wexpr); try discriminate.
    apply bind_Throw in H as [H|(e & _ & H)];
      [exact (BinarySearchRightmost_no_boundary_failure _ _ _ _ _ H) | discriminate]. }
  apply bind_Throw in H as [H|(w_start & _ & H)].
  { destruct (start wexpr); try discriminate;
      (apply bind_Throw in H as [H|(v & _ & H)];
       [exact (boundary_offset_no_boundary_failure _ _ _ H) | discriminate]). }
  apply bind_Throw in H as [H|(w_end & Hwe & H)].
  { destruct (end_ wexpr); try discriminate;
      (apply bind_Throw in H as [H|(v & _ & H)];
       [exact (boundary_offset_no_boundary_failure _ _ _ H) | discriminate]). }
  assert (Hrange : - 2 ^ 63 <= w_end < 2 ^ 63).
  { destruct (end_ wexpr); try discriminate Hwe;
      try (inversion Hwe; subst; apply to_ssize_t_range);
      (inv_bind Hwe; inversion Hwe; subst; apply to_ssize_t_range). }
  rewrite (to_ssize_t_small p_start) in H by lia.
  rewrite (to_ssize_t_small p_end) in H by lia.
  match type of H with
  | (if ?c then _ else _) = _ => destruct c eqn:Hneg; [|discriminate]
  end.
  apply orb_true_iff in Hneg as [Hneg|Hneg]; apply Z.ltb_lt in Hneg.
  - destruct (Z.ltb_spec w_start p_start); lia.
  - destruct (Z.gtb_spec (to_size_t w_end) p_end) as [Hgt|Hle]; [lia|].
    rewrite to_size_t_negative in Hle by lia. lia.
Qed.

(** ** Every equivalence set has its list of constants *)

Lemma sets_have_constants_new : sets_have_constants FilterCombiner_new.
Proof. intros s [es Hs]. simpl in Hs. rewrite lookup_empty in Hs. discriminate. Qed.

Lemma sets_have_constants_fields c c' :
  constant_values c' = constant_values c -> equivalence_map c' = equivalence_map c ->
  sets_have_constants c -> sets_have_constants c'.
Proof. unfold sets_have_constants. intros -> ->. auto. Qed.

Lemma sets_have_constants_set_constants c s l :
  sets_have_constants c -> sets_have_constants (set_constants c s l).
Proof.
  unfold sets_have_constants. simpl. intros H s' Hs'.
  apply lookup_insert_is_Some'. right. auto.
Qed.

Lemma sets_have_constants_set_remaining c r :
  sets_have_constants c -> sets_have_constants (set_remaining c r).
Proof. apply sets_have_constants_fields; reflexivity. Qed.

Lemma sets_have_constants_GetNode c e :
  sets_have_constants c -> sets_have_constants (GetNode c e).1.
Proof.
  destruct (GetNode_spec c e) as [st ->]. apply sets_have_constants_fields; reflexivity.
Qed.

Lemma sets_have_constants_GetEquivalenceSet c e c' s :
  GetEquivalenceSet c e = Ok (c', s) ->
  sets_have_constants c -> sets_have_constants c'.
Proof.
  unfold GetEquivalenceSet. destruct (bool_decide _); [|discriminate].
  destruct (expr_find _ _); intros H; inversion H; subst; clear H; [auto|].
  unfold sets_have_constants. simpl. intros Hc s' Hs'.
  destruct (decide (set_index c = s')) as [<-|Hne].
  - destruct (constant_values c !! set_index c) eqn:E; [eauto|].
    rewrite lookup_insert_eq. eauto.
  - rewrite lookup_insert_ne in Hs' by assumption. apply Hc in Hs'.
    destruct (constant_values c !! set_index c); [assumption|].
    rewrite lookup_insert_ne by assumption. assumption.
Qed.

Lemma sets_have_constants_FindTransitiveFilter c e :
  sets_have_constants c -> sets_have_constants (FindTransitiveFilter c e).1.
Proof.
  unfold FindTransitiveFilter. destruct (bool_decide _); [|auto].
  destruct (FindTransitiveFilter_loop _ _). apply sets_have_constants_set_remaining.
Qed.

Lemma sets_have_constants_AddTransitiveFilters fuel : forall c t l r c' res,
  AddTransitiveFilters fuel c t l r = Ok (c', res) ->
  sets_have_constants c -> sets_have_constants c'.
Proof.
  induction fuel as [|fuel IH]; intros c t l r c' res H Hc; [discriminate|].
  cbn [AddTransitiveFilters] in H.
  destruct (negb _); [discriminate|].
  apply (sets_have_constants_GetNode c l) in Hc.
  destruct (GetNode c l) as [c1 n1]. simpl in Hc.
  apply (sets_have_constants_GetNode c1 r) in Hc.
  destruct (GetNode c1 r) as [c2 n2]. simpl in Hc.
  destruct (Equals n1 n2); [inversion H; subst; assumption|].
  inv_bind H. destruct a as [c3 ls].
  apply sets_have_constants_GetEquivalenceSet in E; [|assumption].
  inv_bind H. destruct a as [c4 rs].
  apply sets_have_constants_GetEquivalenceSet in E0; [|assumption].
  destruct (bool_decide _); [inversion H; subst; assumption|].
  inv_bind H. inv_bind H. inv_bind H. destruct a1 as [[[lc rem] ok] early].
  pose proof (sets_have_constants_set_remaining _ rem
                (sets_have_constants_set_constants _ ls lc E0)) as Hc5.
  destruct early; [inversion H; subst; assumption|].
  destruct ok; [|inversion H; subst; assumption].
  apply (sets_have_constants_FindTransitiveFilter _ l) in Hc5.
  destruct (FindTransitiveFilter _ l) as [c6 tf]. simpl in Hc5.
  destruct tf as [[| |t' l' r'| | | | |]|]; try discriminate;
    [|inversion H; subst; assumption].
  inv_bind H. destruct a1 as [c7 res7]. apply IH in E4; [|assumption].
  destruct (bool_decide _); inversion H; subst; [|assumption].
  apply sets_have_constants_set_remaining. assumption.
Qed.

Lemma sets_have_constants_try_transitive fuel c tf c' :
  try_transitive fuel c tf = Ok c' ->
  sets_have_constants c -> sets_have_constants c'.
Proof.
  unfold try_transitive. intros H Hc.
  destruct tf as [[| |t' l' r'| | | | |]|]; try discriminate;
    [|inversion H; subst; assumption].
  inv_bind H. destruct a as [c1 res].
  apply sets_have_constants_AddTransitiveFilters in E; [|assumption].
  destruct (bool_decide _); inversion H; subst; [|assumption].
  apply sets_have_constants_set_remaining. assumption.
Qed.

Section SetsHaveConstants.

Variable IsFoldable : Expression -> bool.
Variable HasParameter : Expression -> bool.
Variable scalar_value : Expression -> Value.

Lemma sets_have_constants_AddBoundComparisonFilter fuel c expr c' res :
  AddBoundComparisonFilter IsFoldable scalar_value fuel c expr = Ok (c', res) ->
  sets_have_constants c -> sets_have_constants c'.
Proof.
  unfold AddBoundComparisonFilter. intros H Hc.
  destruct expr as [| |ctype cleft cright| | | | |]; try discriminate.
  destruct (negb _); [inversion H; subst; assumption|].
  destruct (IsFoldable cleft || IsFoldable cright).
  - match type of H with
    | context [GetNode c ?n] =>
        apply (sets_have_constants_GetNode c n) in Hc;
        destruct (GetNode c n) as [c1 n1]; simpl in Hc
    end.
    inv_bind H. destruct a as [c2 set].
    apply sets_have_constants_GetEquivalenceSet in E; [|assumption].
    inv_bind H. inv_bind H. inv_bind H. destruct a1 as [l' ret].
    apply (sets_have_constants_set_constants _ set l') in E.
    match type of H with
    | context [FindTransitiveFilter ?c0 ?n] =>
        apply (sets_have_constants_FindTransitiveFilter c0 n) in E;
        destruct (FindTransitiveFilter c0 n) as [c4 tf]; simpl in E
    end.
    inv_bind H. inversion H; subst.
    eapply sets_have_constants_try_transitive; eauto.
  - destruct (negb _).
    { destruct (_ || _).
      - eapply sets_have_constants_AddTransitiveFilters; eauto.
      - inversion H; subst; assumption. }
    apply (sets_have_constants_GetNode c cleft) in Hc.
    destruct (GetNode c cleft) as [c1 n1]. simpl in Hc.
    apply (sets_have_constants_GetNode c1 cright) in Hc.
    destruct (GetNode c1 cright) as [c2 n2]. simpl in Hc.
    destruct (Equals n1 n2); [inversion H; subst; assumption|].
    inv_bind H. destruct a as [c3 ls].
    apply sets_have_constants_GetEquivalenceSet in E; [|assumption].
    inv_bind H. destruct a as [c4 rs].
    apply sets_have_constants_GetEquivalenceSet in E0; [|assumption].
    destruct (bool_decide _); [inversion H; subst; assumption|].
    inv_bind H. rename a into lb. inv_bind H. inv_bind H. inv_bind H. inv_bind H.
    destruct a2 as [merged early].
    assert (Hls : is_Some (equivalence_map c4 !! ls)).
    { unfold get_bucket in E1. destruct (equivalence_map c4 !! ls); [eauto | discriminate]. }
    assert (Hc' : sets_have_constants c').
    { assert (Hm : sets_have_constants
                     (set_constants
                        (mkCombiner (remaining_filters c4) (stored_expressions c4)
                           (fold_left (fun m i => expr_assign m i ls) a
                                      (equivalence_set_map c4))
                           (constant_values c4)
                           (<[ls := lb ++ a]> (equivalence_map c4)) (set_index c4))
                        ls merged)).
      { apply sets_have_constants_set_constants.
        unfold sets_have_constants. simpl. intros s' Hs'.
        apply lookup_insert_is_Some' in Hs' as [<-|Hs']; apply E0; assumption. }
      destruct early; inversion H; subst; exact Hm. }
    exact Hc'.
Qed.

Lemma sets_have_constants_AddFilter fuel c expr c' res :
  AddFilter IsFoldable HasParameter scalar_value fuel c expr = Ok (c', res) ->
  sets_have_constants c -> sets_have_constants c'.
Proof.
  unfold AddFilter. intros H Hc. inv_bind H. destruct a as [c1 r1].
  assert (Hc1 : sets_have_constants c1).
  { unfold AddFilter_expr in E.
    destruct (HasParameter expr); [inversion E; subst; assumption|].
    destruct (IsFoldable expr).
    { inv_bind E. inv_bind E. destruct (_ || _); inversion E; subst; assumption. }
    destruct expr as [| |ctype cleft cright|input lower upper li ui| | | |];
      try (inversion E; subst; assumption).
    - eapply sets_have_constants_AddBoundComparisonFilter; eauto.
    - destruct (_ || _); [|inversion E; subst; assumption].
      apply (sets_have_constants_GetNode c input) in Hc.
      destruct (GetNode c input) as [c2 n]. simpl in Hc.
      inv_bind E. destruct a as [c3 set].
      apply sets_have_constants_GetEquivalenceSet in E0; [|assumption].
      inv_bind E. inv_bind E. inv_bind E. destruct a1 as [l1 r'].
      inv_bind E. inv_bind E. inv_bind E. destruct a3 as [l2 ret].
      inversion E; subst.
      repeat apply sets_have_constants_set_constants. assumption. }
  destruct (bool_decide _); inversion H; subst; [|assumption].
  apply sets_have_constants_set_remaining. assumption.
Qed.

(** The combiners that [AddFilter] builds satisfy the hypothesis of the
    theorem on [HasFilters]. *)
Lemma sets_have_constants_AddFilters fuel : forall exprs c c' rs,
  AddFilters IsFoldable HasParameter scalar_value fuel c exprs = Ok (c', rs) ->
  sets_have_constants c -> sets_have_constants c'.
Proof.
  induction exprs as [|e rest IH]; simpl; intros c c' rs H Hc.
  - inversion H; subst. assumption.
  - inv_bind H. destruct a as [c1 r]. inv_bind H. destruct a as [c2 rs'].
    inversion H; subst.
    apply sets_have_constants_AddFilter in E; [|assumption].
    exact (IH c1 c' rs' E0 E).
Qed.

End SetsHaveConstants.

(* ===================================================================== *)
(** * Part III: further properties of the two source files               *)
(* ===================================================================== *)

Import SweepLaws.

(** ** The binary search for the end of a partition *)

(** The loop of [BinarySearchRightmost] on a range where the rows that are
    not greater than [row] come first: it ends, and it returns the last of
    them. *)
Lemma BinarySearchRightmost_loop_rightmost input row cc (p : Z -> bool) fuel :
  forall l r l0 r0,
  0 <= l0 <= l -> l <= r <= r0 -> r0 < 2 ^ 53 ->
  (Z.to_nat (r - l) < fuel)%nat ->
  (forall m, l0 <= m < r0 -> not_greater input row cc m = Ok (p m)) ->
  (forall m m', l0 <= m <= m' -> m' < r0 -> p m' = true -> p m = true) ->
  (forall m, l0 <= m < l -> p m = true) ->
  (forall m, r <= m < r0 -> p m = false) ->
  exists e,
    BinarySearchRightmost_loop fuel input row l r cc = Ok e /\
    l0 <= to_size_t (e + 1) <= r0 /\
    (forall m, l0 <= m < to_size_t (e + 1) -> p m = true) /\
    (forall m, to_size_t (e + 1) <= m < r0 -> p m = false).
Proof.
  induction fuel as [|fuel IH]; intros l r l0 r0 Hl0 Hlr Hr0 Hfuel Hp Hmono Hlow Hhigh;
    [lia|].
  cbn [BinarySearchRightmost_loop]. destruct (Z.ltb_spec l r) as [Hlt|Hge].
  - destruct (midpoint_exact l r) as [-> Hm]; try lia.
    pose proof (Hp ((l + r) / 2) ltac:(lia)) as Hpm. unfold not_greater in Hpm.
    destruct (GetRow input ((l + r) / 2)) as [row_m|] eqn:Hrow; [|discriminate].
    simpl in Hpm. simpl. rewrite Hpm. simpl.
    destruct (p ((l + r) / 2)) eqn:Hpv.
    + rewrite to_size_t_small by lia.
      apply (IH _ _ l0 r0); try lia; try assumption.
      intros m Hmr. destruct (Z.lt_ge_cases m l) as [Hml|Hml]; [apply Hlow; lia|].
      apply (Hmono m ((l + r) / 2)); [lia | lia | assumption].
    + apply (IH _ _ l0 r0); try lia; try assumption.
      intros m Hmr. destruct (Z.lt_ge_cases m r) as [Hml|Hml]; [|apply Hhigh; lia].
      destruct (p m) eqn:Hpm'; [|reflexivity].
      rewrite (Hmono ((l + r) / 2) m) in Hpv; [discriminate | lia | lia | assumption].
  - assert (l = r) by lia. subst r. eexists. split; [reflexivity|].
    assert (He : to_size_t (to_size_t (l - 1) + 1) = l).
    { destruct (Z.eq_dec l 0) as [->|Hn]; [reflexivity|].
      rewrite (to_size_t_small (l - 1)) by lia.
      replace (l - 1 + 1) with l by lia. apply to_size_t_small. lia. }
    rewrite He. split; [lia|]. split; assumption.
Qed.

(** X1. [BinarySearchRightmost] on rows [l, r) below 2^53 (where the
    midpoint, taken through a [double], is exact) of which those not
    greater than [row] (in the first [comp_cols] columns) come first: the
    search ends and returns the index of the last such row, so that the
    rows of [l, e + 1) are not greater than [row] and the rows of
    [e + 1, r) are. *)
Theorem BinarySearchRightmost_rightmost input row l r comp_cols (p : Z -> bool) :
  0 <= l <= r -> r < 2 ^ 53 -> comp_cols <> 0 ->
  (forall m, l <= m < r -> not_greater input row comp_cols m = Ok (p m)) ->
  (forall m m', l <= m <= m' -> m' < r -> p m' = true -> p m = true) ->
  exists e,
    BinarySearchRightmost input row l r comp_cols = Ok e /\
    l <= to_size_t (e + 1) <= r /\
    (forall m, l <= m < to_size_t (e + 1) -> p m = true) /\
    (forall m, to_size_t (e + 1) <= m < r -> p m = false).
Proof.
  intros Hl Hr Hcc Hp Hmono. unfold BinarySearchRightmost.
  destruct (Z.eqb_spec comp_cols 0) as [|_]; [contradiction|].
  apply (BinarySearchRightmost_loop_rightmost input row comp_cols p _ l r l r);
    try lia; try assumption; intros m Hm; lia.
Qed.

(** On the rows A 10, A 20, A 20, B 5 the search for the end of the
    partition of row 0 returns row 2, the last row of A. *)
Lemma BinarySearchRightmost_rightmost_witness :
  exists e,
    BinarySearchRightmost scenario_rows [Value_String "A"; bigint 10] 0 4 1 = Ok e /\
    0 <= to_size_t (e + 1) <= 4 /\
    (forall m, 0 <= m < to_size_t (e + 1) -> (m <? 3) = true) /\
    (forall m, to_size_t (e + 1) <= m < 4 -> (m <? 3) = false).
Proof.
  apply (BinarySearchRightmost_rightmost scenario_rows [Value_String "A"; bigint 10]
           0 4 1 (fun m => m <? 3)).
  - lia.
  - lia.
  - discriminate.
  - intros m Hm.
    assert (Hc : m = 0 \/ m = 1 \/ m = 2 \/ m = 3) by lia.
    destruct Hc as [-> | [-> | [-> | ->]]]; reflexivity.
  - intros m m' Hm Hm' H. apply Z.ltb_lt in H. apply Z.ltb_lt. lia.
Defined.

(** ** The sweep, row by row *)

(** Every iteration of the main loop appends one value to the output. *)
Lemma ComputeWindowRow_output wexpr rows payload bsc bec idx st st' :
  ComputeWindowRow wexpr rows payload bsc bec idx st = Ok st' ->
  exists v, output st' = output st ++ [v].
Proof.
  unfold ComputeWindowRow. intros H. inv_bind H.
  destruct (update_ranks _ _ _ _ _) as [[d e] r].
  destruct (_ >=? _); [inversion H; simpl; eauto|].
  destruct (Window.type wexpr); try discriminate;
    try (inversion H; simpl; eauto; fail);
    try (inv_bind H; inversion H; simpl; eauto; fail).
  all: destruct (segment_tree st); [|discriminate];
       inv_bind H; destruct a0; inversion H; simpl; eauto.
Qed.

(** Where [UpdateWindowBoundaries] puts the start of the partition: at the
    row itself when the row starts a partition, and where it was
    otherwise. *)
Lemma UpdateWindowBoundaries_partition_start wexpr rows idx bsc bec b b' :
  UpdateWindowBoundaries wexpr rows idx bsc bec b = Ok b' ->
  partition_start b' =
    if negb (is_same_partition b') || (idx =? 0) then idx else partition_start b.
Proof.
  unfold UpdateWindowBoundaries. intros H.
  inv_bind H. inv_bind H. inv_bind H.
  inv_bind H. destruct a2 as [[p_start p_end] pr_start].
  inv_bind H. inv_bind H. inv_bind H.
  match type of H with (if ?c then _ else _) = _ => destruct c end; [discriminate|].
  inversion H; subst; clear H; simpl.
  destruct (negb a0 || (idx =? 0)).
  - inv_bind E2. inversion E2; reflexivity.
  - destruct (negb a1); inversion E2; reflexivity.
Qed.

(** The state of the sweep after [k] rows: the output has [k] values, the
    state holds row [k - 1] and the start of its partition, and every
    value written satisfies [Q]. *)
Lemma sweep_rows (Q : nat -> Value -> Prop) wexpr rows payload bsc bec :
  (forall k st st' v,
     length (output st) = k ->
     UpdateWindowBoundaries wexpr rows (Z.of_nat k) bsc bec (bounds st) = Ok (bounds st') ->
     partition_start (bounds st') = Z.of_nat (partition_first wexpr rows k) ->
     ComputeWindowRow wexpr rows payload bsc bec (Z.of_nat k) st = Ok st' ->
     output st' = output st ++ [v] -> Q k v) ->
  forall input_count out,
    ComputeWindowExpression wexpr input_count rows payload bsc bec = Ok out ->
    length out = Z.to_nat input_count /\
    forall k v, out !! k = Some v -> Q k v.
Proof.
  intros Hstep input_count out H. unfold ComputeWindowExpression in H.
  inv_bind H. inv_bind H. inv_bind H. inversion H; subst; clear H.
  set (P := fun (k : nat) (st : SweepState) =>
              length (output st) = k /\
              (k <> 0%nat ->
               rows !! (k - 1)%nat = Some (row_prev (bounds st)) /\
               partition_start (bounds st)
               = Z.of_nat (partition_first wexpr rows (k - 1))) /\
              forall j v, output st !! j = Some v -> Q j v).
  assert (Hinv : P (0 + Z.to_nat input_count)%nat a1).
  { eapply ComputeWindowLoop_invariant; [| |exact E1].
    - intros k st st' (Hlen & Hprev & HQ) Hrow.
      pose proof (ComputeWindowRow_bounds _ _ _ _ _ _ _ _ Hrow) as Hu.
      pose proof (UpdateWindowBoundaries_partition _ _ _ _ _ _ _ Hu)
        as (Hcur & _ & _ & _).
      pose proof (UpdateWindowBoundaries_partition_start _ _ _ _ _ _ _ Hu) as Hps.
      assert (Hpf : partition_start (bounds st')
                    = Z.of_nat (partition_first wexpr rows k)).
      { rewrite Hps. destruct k as [|j]; [simpl; rewrite orb_true_r; reflexivity|].
        destruct Hprev as [Hrp Hpp]; [lia|].
        assert (Hnz : S j <> 0%nat) by lia.
        destruct (UpdateWindowBoundaries_flags _ _ _ _ _ _ _ Hnz Hrp Hu) as [Hsame _].
        replace (S j - 1)%nat with j in Hpp by lia.
        change (partition_first wexpr rows (S j))
          with (if same_partition wexpr rows (S j)
                then partition_first wexpr rows j else S j).
        rewrite Hsame.
        destruct (Z.eqb_spec (Z.of_nat (S j)) 0); [lia|].
        destruct (is_same_partition (bounds st')); simpl; [assumption | reflexivity]. }
      destruct (ComputeWindowRow_output _ _ _ _ _ _ _ _ Hrow) as [v Hv].
      split; [|split].
      + rewrite Hv, length_app. simpl. lia.
      + intros _. replace (S k - 1)%nat with k by lia. split; assumption.
      + intros j w Hj. rewrite Hv in Hj.
        destruct (decide (j < k)%nat) as [Hlt|Hge].
        * rewrite lookup_app_l in Hj by lia. eapply HQ; eauto.
        * apply lookup_lt_Some in Hj as Hjl. rewrite length_app in Hjl. simpl in Hjl.
          assert (j = k) by lia. subst j.
          rewrite lookup_app_r in Hj by lia.
          rewrite Hlen, Nat.sub_diag in Hj. inversion Hj; subst.
          eapply Hstep; eauto.
    - split; [reflexivity|]. split; [congruence|]. intros j v Hj. discriminate. }
  destruct Hinv as (Hlen & _ & HQ). split; [exact Hlen | exact HQ].
Qed.

(** X2. The output column of [ComputeWindowExpression] has one value for
    each of the [input_count] rows, whatever the window function and the
    frame. *)
Theorem ComputeWindowExpression_one_value_per_row
    wexpr input_count rows payload bsc bec out :
  ComputeWindowExpression wexpr input_count rows payload bsc bec = Ok out ->
  length out = Z.to_nat input_count.
Proof.
  intros H.
  apply (sweep_rows (fun _ _ => True) wexpr rows payload bsc bec
           (fun _ _ _ _ _ _ _ _ _ => I) input_count out H).
Qed.

Lemma ComputeWindowExpression_one_value_per_row_witness :
  ComputeWindowExpression wexpr_rank_1_preceding 3 tied_rows [] [] [[bigint 1]]
    = Ok [Value_default; bigint 1; bigint 2] /\
  length [Value_default; bigint 1; bigint 2] = Z.to_nat 3.
Proof.
  split; [vm_compute; reflexivity|].
  apply (ComputeWindowExpression_one_value_per_row wexpr_rank_1_preceding 3 tied_rows
           [] [] [[bigint 1]]).
  vm_compute. reflexivity.
Defined.

Lemma partition_first_le wexpr rows k : (partition_first wexpr rows k <= k)%nat.
Proof.
  induction k as [|k IH]; [simpl; lia|].
  change (partition_first wexpr rows (S k))
    with (if same_partition wexpr rows (S k) then partition_first wexpr rows k else S k).
  destruct (same_partition wexpr rows (S k)); lia.
Qed.

(** ** A partition is not empty *)

Lemma Value_gt_irrefl (v : Value) : Value_gt v v = false.
Proof.
  unfold Value_gt. pose proof (Value_compare_antisym v v) as H.
  destruct (Value_compare v v) as [[]|]; try reflexivity. discriminate H.
Qed.

(** A row is not greater than itself. *)
Lemma less_than_equals_loop_self row : forall n i,
  less_than_equals_loop n row row i <> Ok false.
Proof.
  induction n as [|n IH]; intros i; simpl; [discriminate|].
  destruct (vector_at row i) as [x|]; simpl; [|discriminate].
  rewrite Value_gt_irrefl. apply IH.
Qed.

(** The search for the row at [l0] itself, from [l0] on, goes past
    [l0]. *)
Lemma BinarySearchRightmost_loop_beyond input row cc l0 r0 fuel : forall l r e,
  GetRow input l0 = Ok row -> 0 <= l0 <= l -> l <= r <= r0 -> r0 < 2 ^ 53 ->
  (l = l0 -> l0 < r) ->
  BinarySearchRightmost_loop fuel input row l r cc = Ok e ->
  l0 < to_size_t (e + 1) <= r0.
Proof.
  induction fuel as [|fuel IH]; intros l r e Hrow Hl Hr Hr0 Hfirst H; [discriminate|].
  cbn [BinarySearchRightmost_loop] in H. destruct (Z.ltb_spec l r) as [Hlt|Hge].
  - destruct (midpoint_exact l r) as [Hmid Hm]; try lia. rewrite Hmid in H.
    inv_bind H. rename a into row_m. inv_bind H. destruct a.
    + rewrite to_size_t_small in H by lia.
      apply IH in H; try assumption; lia.
    + assert (Hne : (l + r) / 2 <> l0).
      { intros Heq. rewrite Heq, Hrow in E. inversion E; subst.
        exact (less_than_equals_loop_self _ _ _ E0). }
      apply IH in H; try assumption; lia.
  - inversion H; subst. assert (l = r) by lia. subst r.
    assert (l0 < l) by (destruct (Z.eq_dec l l0); [apply Hfirst in e|]; lia).
    rewrite (to_size_t_small (l - 1)) by lia.
    replace (l - 1 + 1) with l by lia. rewrite to_size_t_small by lia. lia.
Qed.

Lemma BinarySearchRightmost_beyond input row l r cc e :
  GetRow input l = Ok row -> 0 <= l < r -> r < 2 ^ 53 ->
  BinarySearchRightmost input row l r cc = Ok e ->
  l < to_size_t (e + 1) <= r.
Proof.
  intros Hrow Hl Hr. unfold BinarySearchRightmost. destruct (cc =? 0).
  - intros H. inversion H; subst.
    rewrite (to_size_t_small (r - 1)) by lia.
    replace (r - 1 + 1) with r by lia. rewrite to_size_t_small by lia. lia.
  - intros H.
    apply (BinarySearchRightmost_loop_beyond input row cc l r) in H; try assumption; lia.
Qed.

(** The partition that [UpdateWindowBoundaries] returns is not empty: it
    holds the row at which it was computed. *)
Lemma UpdateWindowBoundaries_partition_not_empty wexpr rows idx bsc bec b b' :
  count rows < 2 ^ 53 ->
  (idx <> 0 -> 0 <= partition_start b < partition_end b /\ partition_end b <= count rows) ->
  UpdateWindowBoundaries wexpr rows idx bsc bec b = Ok b' ->
  0 <= partition_start b' < partition_end b' /\ partition_end b' <= count rows.
Proof.
  intros Hc Hb H. unfold UpdateWindowBoundaries in H.
  inv_bind H. rename a into row_cur. apply vector_at_range in E as Hidx.
  fold (count rows) in Hidx.
  inv_bind H. rename a into same. inv_bind H. rename a into peer.
  inv_bind H. destruct a as [[p_start p_end] pr_start].
  inv_bind H. inv_bind H. inv_bind H.
  match type of H with (if ?c then _ else _) = _ => destruct c end; [discriminate|].
  inversion H; subst; clear H; simpl.
  destruct (negb same || (idx =? 0)) eqn:Hnew.
  - inv_bind E2. inversion E2; subst.
    apply BinarySearchRightmost_beyond in E6; [lia | exact E | lia | lia].
  - apply orb_false_elim in Hnew as [_ Hnz]. apply Z.eqb_neq in Hnz.
    destruct (negb peer); inversion E2; subst; apply Hb; assumption.
Qed.

(** With the frame ROWS BETWEEN UNBOUNDED PRECEDING AND CURRENT ROW, or
    ... AND UNBOUNDED FOLLOWING, the window of a row starts with its
    partition and is not empty. *)
Lemma UpdateWindowBoundaries_running_frame wexpr rows idx bsc bec b b' :
  start wexpr = UNBOUNDED_PRECEDING ->
  end_ wexpr = CURRENT_ROW_ROWS \/ end_ wexpr = UNBOUNDED_FOLLOWING ->
  count rows < 2 ^ 53 ->
  0 <= partition_start b' <= idx ->
  0 <= partition_start b' < partition_end b' /\ partition_end b' <= count rows ->
  UpdateWindowBoundaries wexpr rows idx bsc bec b = Ok b' ->
  window_start b' = partition_start b' /\ window_start b' < window_end b'.
Proof.
  intros Hs He Hc Hps Hpe H. unfold UpdateWindowBoundaries in H. rewrite Hs in H.
  inv_bind H. rename a into row_cur. apply vector_at_range in E as Hidx.
  fold (count rows) in Hidx.
  inv_bind H. rename a into same. inv_bind H. rename a into peer.
  inv_bind H. destruct a as [[p_start p_end] pr_start].
  inv_bind H. inv_bind H. inv_bind H.
  inversion E4; subst; clear E4.
  match type of H with (if ?c then _ else _) = _ => destruct c end; [discriminate|].
  inversion H; subst; clear H; simpl in *.
  rewrite Z.ltb_irrefl. rewrite (to_ssize_t_small p_start) by lia.
  split; [reflexivity|].
  destruct He as [He|He]; rewrite He in E5; inversion E5; subst; clear E5.
  - rewrite (to_size_t_small (idx + 1)) by lia.
    rewrite (to_ssize_t_small (idx + 1)) by lia.
    rewrite (to_size_t_small (idx + 1)) by lia.
    destruct (Z.gtb_spec (idx + 1) p_end);
      [rewrite to_ssize_t_small by lia|]; lia.
  - rewrite (to_ssize_t_small p_end) by lia. rewrite (to_size_t_small p_end) by lia.
    destruct (Z.gtb_spec p_end p_end); lia.
Qed.

(** The sweep with a running frame: every value written satisfies [Q],
    which may rely on the window of the row. *)
Lemma sweep_running_frame (Q : nat -> Value -> Prop) wexpr rows payload bsc bec :
  start wexpr = UNBOUNDED_PRECEDING ->
  end_ wexpr = CURRENT_ROW_ROWS \/ end_ wexpr = UNBOUNDED_FOLLOWING ->
  Z.of_nat (length rows) < 2 ^ 53 ->
  (forall k st st' v,
     (k < length rows)%nat ->
     window_start (bounds st') = Z.of_nat (partition_first wexpr rows k) ->
     window_start (bounds st') < window_end (bounds st') ->
     ComputeWindowRow wexpr rows payload bsc bec (Z.of_nat k) st = Ok st' ->
     output st' = output st ++ [v] -> Q k v) ->
  forall input_count out,
    ComputeWindowExpression wexpr input_count rows payload bsc bec = Ok out ->
    forall k, (k < Z.to_nat input_count)%nat -> exists v, out !! k = Some v /\ Q k v.
Proof.
  intros Hs He Hrows Hstep input_count out H. unfold ComputeWindowExpression in H.
  inv_bind H. inv_bind H. inv_bind H. inversion H; subst; clear H.
  set (P := fun (k : nat) (st : SweepState) =>
              length (output st) = k /\
              (k <> 0%nat ->
               rows !! (k - 1)%nat = Some (row_prev (bounds st)) /\
               partition_start (bounds st)
               = Z.of_nat (partition_first wexpr rows (k - 1)) /\
               partition_start (bounds st) < partition_end (bounds st) /\
               partition_end (bounds st) <= count rows) /\
              forall j, (j < k)%nat -> exists v, output st !! j = Some v /\ Q j v).
  assert (Hinv : P (0 + Z.to_nat input_count)%nat a1).
  { eapply ComputeWindowLoop_invariant; [| |exact E1].
    - intros k st st' (Hlen & Hprev & HQ) Hrow.
      pose proof (ComputeWindowRow_bounds _ _ _ _ _ _ _ _ Hrow) as Hu.
      pose proof (UpdateWindowBoundaries_partition _ _ _ _ _ _ _ Hu)
        as (Hcur & _ & _ & _).
      assert (Hk : (k < length rows)%nat) by (eapply lookup_lt_Some; eauto).
      pose proof (UpdateWindowBoundaries_partition_start _ _ _ _ _ _ _ Hu) as Hps.
      assert (Hpf : partition_start (bounds st')
                    = Z.of_nat (partition_first wexpr rows k)).
      { rewrite Hps. destruct k as [|j]; [simpl; rewrite orb_true_r; reflexivity|].
        destruct Hprev as (Hrp & Hpp & _); [lia|].
        assert (Hnz : S j <> 0%nat) by lia.
        destruct (UpdateWindowBoundaries_flags _ _ _ _ _ _ _ Hnz Hrp Hu) as [Hsame _].
        replace (S j - 1)%nat with j in Hpp by lia.
        change (partition_first wexpr rows (S j))
          with (if same_partition wexpr rows (S j)
                then partition_first wexpr rows j else S j).
        rewrite Hsame.
        destruct (Z.eqb_spec (Z.of_nat (S j)) 0); [lia|].
        destruct (is_same_partition (bounds st')); simpl; [assumption | reflexivity]. }
      pose proof (partition_first_le wexpr rows k) as Hle.
      assert (Hne : 0 <= partition_start (bounds st') < partition_end (bounds st') /\
                    partition_end (bounds st') <= count rows).
      { refine (UpdateWindowBoundaries_partition_not_empty _ _ _ _ _ _ _ _ _ Hu).
        - unfold count. lia.
        - intros Hnz. destruct Hprev as (_ & Hpp & Hlt & Hend); [lia|]. lia. }
      assert (Hcount : count rows < 2 ^ 53) by (unfold count; lia).
      assert (Hin : 0 <= partition_start (bounds st') <= Z.of_nat k) by lia.
      destruct (UpdateWindowBoundaries_running_frame _ _ _ _ _ _ _ Hs He Hcount Hin Hne Hu)
        as [Hws Hwe].
      destruct (ComputeWindowRow_output _ _ _ _ _ _ _ _ Hrow) as [v Hv].
      split; [|split].
      + rewrite Hv, length_app. simpl. lia.
      + intros _. replace (S k - 1)%nat with k by lia.
        split; [assumption|]. split; [assumption|]. lia.
      + intros j Hj. rewrite Hv.
        destruct (decide (j < k)%nat) as [Hlt|Hge].
        * rewrite lookup_app_l by lia. apply HQ. assumption.
        * assert (j = k) by lia. subst j.
          rewrite lookup_app_r by lia. rewrite Hlen, Nat.sub_diag.
          exists v. split; [reflexivity|].
          eapply Hstep; eauto. rewrite Hws. assumption.
    - split; [reflexivity|]. split; [congruence|]. intros j Hj. lia. }
  destruct Hinv as (_ & _ & HQ). exact HQ.
Qed.

(** One row of ROW_NUMBER whose frame is not empty: the distance of the
    row from the start of the window, plus one. *)
Lemma ComputeWindowRow_row_number_written wexpr rows payload bsc bec idx st st' v :
  Window.type wexpr = WINDOW_ROW_NUMBER ->
  window_start (bounds st') < window_end (bounds st') ->
  ComputeWindowRow wexpr rows payload bsc bec idx st = Ok st' ->
  output st' = output st ++ [v] ->
  v = Value_Numeric (return_type wexpr)
        (to_ssize_t (to_size_t (idx - window_start (bounds st') + 1))).
Proof.
  unfold ComputeWindowRow. intros Ht Hw H Hv. rewrite Ht in H. inv_bind H.
  destruct (update_ranks _ _ _ _ _) as [[d e] r].
  destruct (Z.geb_spec (window_start a) (window_end a)) as [Hge|Hlt];
    inversion H; subst; simpl in Hv, Hw |- *; [lia|].
  apply app_inv_head in Hv. inversion Hv; auto.
Qed.

(** X3. ROW_NUMBER with the frame ROWS BETWEEN UNBOUNDED PRECEDING AND
    CURRENT ROW (or ... AND UNBOUNDED FOLLOWING) numbers the rows of each
    partition from 1: every row [k] gets a number, which is [k] minus the
    first row of its partition, plus 1. *)
Theorem ROW_NUMBER_counts_from_partition_start
    wexpr input_count rows payload bsc bec out (k : nat) :
  Window.type wexpr = WINDOW_ROW_NUMBER -> start wexpr = UNBOUNDED_PRECEDING ->
  end_ wexpr = CURRENT_ROW_ROWS \/ end_ wexpr = UNBOUNDED_FOLLOWING ->
  Z.of_nat (length rows) < 2 ^ 53 ->
  ComputeWindowExpression wexpr input_count rows payload bsc bec = Ok out ->
  (k < Z.to_nat input_count)%nat ->
  out !! k = Some (Value_Numeric (return_type wexpr)
                     (Z.of_nat k - Z.of_nat (partition_first wexpr rows k) + 1)).
Proof.
  intros Ht Hs He Hrows H Hk.
  edestruct (sweep_running_frame
               (fun k v => v = Value_Numeric (return_type wexpr)
                                 (Z.of_nat k - Z.of_nat (partition_first wexpr rows k) + 1))
               wexpr rows payload bsc bec Hs He Hrows) as (v & Hv & Hq);
    [| exact H | exact Hk | rewrite Hv, Hq; reflexivity].
  clear k Hk. intros k st st' v Hk Hws Hwe Hrow Hout.
  rewrite (ComputeWindowRow_row_number_written _ _ _ _ _ _ _ _ _ Ht Hwe Hrow Hout).
  rewrite Hws. pose proof (partition_first_le wexpr rows k) as Hle.
  rewrite to_size_t_small by lia. rewrite to_ssize_t_small by lia. reflexivity.
Qed.

(** The rows A 10, A 20, A 20, B 5 are numbered 1, 2, 3 and 1. *)
Lemma ROW_NUMBER_counts_from_partition_start_witness :
  ComputeWindowExpression wexpr_row_number 4 scenario_rows [] [] []
    = Ok (map bigint [1; 2; 3; 1]) /\
  map bigint [1; 2; 3; 1] !! 2%nat
  = Some (Value_Numeric (return_type wexpr_row_number)
            (Z.of_nat 2 - Z.of_nat (partition_first wexpr_row_number scenario_rows 2) + 1)).
Proof.
  split; [vm_compute; reflexivity|].
  apply (ROW_NUMBER_counts_from_partition_start wexpr_row_number 4 scenario_rows
           [] [] [] (map bigint [1; 2; 3; 1]) 2).
  - reflexivity.
  - reflexivity.
  - left. reflexivity.
  - vm_compute. reflexivity.
  - vm_compute. reflexivity.
  - vm_compute. lia.
Defined.

(** One row of FIRST_VALUE whose frame is not empty: the payload of the
    first row of the window. *)
Lemma ComputeWindowRow_first_value_written wexpr rows payload bsc bec idx st st' v :
  Window.type wexpr = WINDOW_FIRST_VALUE ->
  window_start (bounds st') < window_end (bounds st') ->
  ComputeWindowRow wexpr rows payload bsc bec idx st = Ok st' ->
  output st' = output st ++ [v] ->
  GetValue payload 0 (to_size_t (window_start (bounds st'))) = Ok v.
Proof.
  unfold ComputeWindowRow. intros Ht Hw H Hv. rewrite Ht in H. inv_bind H.
  destruct (update_ranks _ _ _ _ _) as [[d e] r].
  destruct (Z.geb_spec (window_start a) (window_end a)) as [Hge|Hlt].
  - inversion H; subst; simpl in Hw. lia.
  - inv_bind H. inversion H; subst; simpl in Hv |- *.
    apply app_inv_head in Hv. inversion Hv; subst. auto.
Qed.

(** X4. FIRST_VALUE with the frame ROWS BETWEEN UNBOUNDED PRECEDING AND
    CURRENT ROW (or ... AND UNBOUNDED FOLLOWING) writes for every row [k]
    the payload of the first row of the partition of [k]. *)
Theorem FIRST_VALUE_is_first_of_partition
    wexpr input_count rows payload bsc bec out (k : nat) :
  Window.type wexpr = WINDOW_FIRST_VALUE -> start wexpr = UNBOUNDED_PRECEDING ->
  end_ wexpr = CURRENT_ROW_ROWS \/ end_ wexpr = UNBOUNDED_FOLLOWING ->
  Z.of_nat (length rows) < 2 ^ 53 ->
  ComputeWindowExpression wexpr input_count rows payload bsc bec = Ok out ->
  (k < Z.to_nat input_count)%nat ->
  exists v, out !! k = Some v /\
    GetValue payload 0 (Z.of_nat (partition_first wexpr rows k)) = Ok v.
Proof.
  intros Ht Hs He Hrows H Hk.
  apply (sweep_running_frame
           (fun k v => GetValue payload 0 (Z.of_nat (partition_first wexpr rows k)) = Ok v)
           wexpr rows payload bsc bec Hs He Hrows) with (input_count := input_count);
    [|assumption|assumption].
  clear k Hk. intros k st st' v Hk Hws Hwe Hrow Hout.
  pose proof (ComputeWindowRow_first_value_written _ _ _ _ _ _ _ _ _ Ht Hwe Hrow Hout)
    as Hval.
  pose proof (partition_first_le wexpr rows k) as Hle.
  rewrite Hws in Hval. rewrite to_size_t_small in Hval by lia. exact Hval.
Qed.

(** Over the rows A 10, A 20, A 20, B 5 with their second column as the
    payload, FIRST_VALUE writes 10, 10, 10 and 5. *)
Lemma FIRST_VALUE_is_first_of_partition_witness :
  ComputeWindowExpression wexpr_first_value 4 scenario_rows scenario_payload [] []
    = Ok (map bigint [10; 10; 10; 5]) /\
  exists v, map bigint [10; 10; 10; 5] !! 2%nat = Some v /\
    GetValue scenario_payload 0
      (Z.of_nat (partition_first wexpr_first_value scenario_rows 2)) = Ok v.
Proof.
  split; [vm_compute; reflexivity|].
  apply (FIRST_VALUE_is_first_of_partition wexpr_first_value 4 scenario_rows
           scenario_payload [] [] (map bigint [10; 10; 10; 5]) 2).
  - reflexivity.
  - reflexivity.
  - left. reflexivity.
  - vm_compute. reflexivity.
  - vm_compute. reflexivity.
  - vm_compute. lia.
Defined.

(** ** The frame lies in the partition *)

Lemma BinarySearchRightmost_between input row l r cc e :
  0 <= l <= r -> r < 2 ^ 53 ->
  BinarySearchRightmost input row l r cc = Ok e ->
  l <= to_size_t (e + 1) <= r.
Proof.
  intros Hl Hr. unfold BinarySearchRightmost. destruct (cc =? 0).
  - intros H. inversion H; subst.
    destruct (Z.eq_dec r 0) as [->|Hn].
    + assert (l = 0) by lia. subst l. vm_compute. split; discriminate.
    + rewrite (to_size_t_small (r - 1)) by lia.
      replace (r - 1 + 1) with r by lia. rewrite to_size_t_small by lia. lia.
  - intros H. apply BinarySearchRightmost_loop_range in H; lia.
Qed.

(** X5. Below 2^53 rows and whatever the frame, the boundaries that
    [UpdateWindowBoundaries] returns are nested as indices: the partition
    bounds lie in the collection and the window bounds within the
    partition bounds ([partition_start <= window_start] and
    [window_end <= partition_end]). *)
Theorem UpdateWindowBoundaries_frame_in_partition wexpr rows idx bsc bec b b' :
  count rows < 2 ^ 53 ->
  0 <= partition_start b <= partition_end b -> partition_end b <= count rows ->
  UpdateWindowBoundaries wexpr rows idx bsc bec b = Ok b' ->
  0 <= partition_start b' <= partition_end b' /\ partition_end b' <= count rows /\
  partition_start b' <= window_start b' /\
  0 <= window_end b' <= partition_end b'.
Proof.
  intros Hc Hps Hpe H. unfold UpdateWindowBoundaries in H.
  inv_bind H. rename a into row_cur. apply vector_at_range in E as Hidx.
  fold (count rows) in Hidx.
  inv_bind H. rename a into same. inv_bind H. rename a into peer.
  inv_bind H. destruct a as [[p_start p_end] pr_start].
  assert (Hbounds : 0 <= p_start <= p_end /\ p_end <= count rows).
  { destruct (negb same || _).
    - inv_bind E2. inversion E2; subst.
      apply BinarySearchRightmost_between in E3; lia.
    - destruct (negb peer); inversion E2; subst; lia. }
  destruct Hbounds as [Hs He].
  inv_bind H. inv_bind H. rename a0 into w_start. inv_bind H. rename a0 into w_end.
  assert (Hrange : - 2 ^ 63 <= w_end < 2 ^ 63).
  { destruct (end_ wexpr); try discriminate E5;
      try (inversion E5; subst; apply to_ssize_t_range);
      (inv_bind E5; inversion E5; subst; apply to_ssize_t_range). }
  rewrite (to_ssize_t_small p_start) in H by lia.
  rewrite (to_ssize_t_small p_end) in H by lia.
  match type of H with
  | (if ?c then _ else _) = _ => destruct c eqn:Hneg; [discriminate|]
  end.
  apply orb_false_iff in Hneg as [Hn1 Hn2]. apply Z.ltb_ge in Hn1, Hn2.
  inversion H; subst; clear H; simpl.
  repeat split; try lia.
  - destruct (Z.ltb_spec w_start p_start); lia.
  - destruct (Z.gtb_spec (to_size_t w_end) p_end) as [Hgt|Hle]; [lia|].
    destruct (Z.gtb_spec (to_size_t w_end) p_end) as [Hgt'|_]; [lia|].
    rewrite to_size_t_small in Hle by lia. lia.
Qed.

(** The first of three rows with the frame ROWS BETWEEN UNBOUNDED PRECEDING
    AND 5 PRECEDING: the partition is [0, 3) and so is the window. *)
Lemma UpdateWindowBoundaries_frame_in_partition_witness :
  exists b',
    UpdateWindowBoundaries wexpr_5_preceding (column_of (map bigint [1; 2; 3])) 0
      [] [[bigint 5]] (mkBounds 0 0 0 0 (-1) (-1) false false [bigint 1]) = Ok b' /\
    (0 <= partition_start b' <= partition_end b' /\
     partition_end b' <= count (column_of (map bigint [1; 2; 3])) /\
     partition_start b' <= window_start b' /\
     0 <= window_end b' <= partition_end b').
Proof.
  eexists. split; [vm_compute; reflexivity|].
  apply (UpdateWindowBoundaries_frame_in_partition wexpr_5_preceding
           (column_of (map bigint [1; 2; 3])) 0 [] [[bigint 5]]
           (mkBounds 0 0 0 0 (-1) (-1) false false [bigint 1])).
  - vm_compute. reflexivity.
  - simpl. lia.
  - vm_compute. discriminate.
  - vm_compute. reflexivity.
Defined.

(** The boundary failure is not raised on the first of three rows with the
    frame ROWS BETWEEN UNBOUNDED PRECEDING AND 5 PRECEDING. *)
Lemma UpdateWindowBoundaries_no_boundary_failure_witness :
  count (column_of (map bigint [1; 2; 3])) < 2 ^ 53 /\
  UpdateWindowBoundaries wexpr_5_preceding (column_of (map bigint [1; 2; 3])) 0
    [] [[bigint 5]] (mkBounds 0 0 0 0 (-1) (-1) false false [bigint 1])
  <> Throw WindowBoundaryException.
Proof.
  split; [vm_compute; reflexivity|].
  apply (UpdateWindowBoundaries_no_boundary_failure wexpr_5_preceding
           (column_of (map bigint [1; 2; 3])) 0 [] [[bigint 5]]
           (mkBounds 0 0 0 0 (-1) (-1) false false [bigint 1])).
  - vm_compute. reflexivity.
  - simpl. lia.
  - simpl. vm_compute. split; discriminate.
Defined.

(** AVG over 17 rows, through the binary search and the construction of
    the segment tree. *)
Lemma ComputeWindowExpression_fuel_witness :
  count (column_of payload_0_to_16) < 2 ^ 53 /\
  fuel_suffices
    (ComputeWindowExpression
       (mkWindowExpression 0 1 WINDOW_AVG BIGINT 1
          UNBOUNDED_PRECEDING UNBOUNDED_FOLLOWING None None)
       17 (column_of payload_0_to_16) (column_of payload_0_to_16) [] []).
Proof.
  split; [vm_compute; reflexivity|].
  apply (ComputeWindowExpression_fuel
           (mkWindowExpression 0 1 WINDOW_AVG BIGINT 1
              UNBOUNDED_PRECEDING UNBOUNDED_FOLLOWING None None)
           17 (column_of payload_0_to_16) (column_of payload_0_to_16) [] []).
  vm_compute. reflexivity.
Defined.

Import TreeLaws.

(** ** The segment tree on a range inside one group *)

Lemma same_accumulator_AggregateInit a b :
  window_type a = window_type b -> payload_type a = payload_type b ->
  input_ref a = input_ref b ->
  match AggregateInit a, AggregateInit b with
  | Ok a', Ok b' => same_accumulator a' b' /\ fanout a' = fanout a
  | Throw f, Throw g => f = g
  | _, _ => False
  end.
Proof.
  intros Ht Hp Hi. unfold AggregateInit. rewrite <- Ht, <- Hp.
  destruct (window_type a) eqn:E; try reflexivity;
    (split; [|reflexivity]); unfold same_accumulator; simpl; repeat split; congruence.
Qed.

Lemma same_accumulator_AggregateAccum a b v :
  same_accumulator a b ->
  match AggregateAccum a v, AggregateAccum b v with
  | Ok a', Ok b' => same_accumulator a' b'
  | Throw f, Throw g => f = g
  | _, _ => False
  end.
Proof.
  intros (Ht & Hp & Ha & Hn & Hi). unfold AggregateAccum.
  rewrite <- Ht, <- Ha, <- Hn.
  destruct (window_type a) eqn:E; try reflexivity;
    unfold same_accumulator; simpl; repeat split; congruence.
Qed.

Lemma same_accumulator_AggegateFinal a b :
  same_accumulator a b -> AggegateFinal a = AggegateFinal b.
Proof.
  intros (Ht & Hp & Ha & Hn & Hi). unfold AggegateFinal.
  rewrite <- Ht, <- Hp, <- Ha, <- Hn. reflexivity.
Qed.

Lemma same_accumulator_WindowSegmentValue_loop n : forall a b pos,
  same_accumulator a b ->
  match WindowSegmentValue_loop n a 0 pos, WindowSegmentValue_loop n b 0 pos with
  | Ok a', Ok b' => same_accumulator a' b'
  | Throw f, Throw g => f = g
  | _, _ => False
  end.
Proof.
  induction n as [|n IH]; intros a b pos Hab; simpl; [assumption|].
  assert (Hv : level_value a 0 pos = level_value b 0 pos).
  { unfold level_value. simpl. destruct Hab as (_ & _ & _ & _ & ->). reflexivity. }
  rewrite Hv. destruct (level_value b 0 pos) as [v|f]; simpl; [|reflexivity].
  pose proof (same_accumulator_AggregateAccum a b v Hab) as Hacc.
  destruct (AggregateAccum a v) as [a'|f], (AggregateAccum b v) as [b'|g];
    simpl; try contradiction; [|assumption].
  apply IH. assumption.
Qed.

(** X8. A range that lies inside one group of the leaves
    ([begin / fanout = end / fanout]) is answered from the leaves alone:
    [Compute] returns what the naive accumulation over [begin, end)
    returns, value or failure, whatever the upper levels of the tree
    hold. *)
Theorem Compute_within_one_group t input begin end_ :
  input_ref t = Some input -> 0 < fanout t ->
  begin / fanout t = end_ / fanout t ->
  Compute_value t begin end_
  = naive_aggregate (window_type t) (payload_type t) input begin end_.
Proof.
  intros Hin Hf Hgroup. unfold Compute_value, Compute, naive_aggregate. rewrite Hin.
  pose proof (same_accumulator_AggregateInit t
                (mkTree (window_type t) (payload_type t) 0 Value_default 0 []
                        (Some input)) eq_refl eq_refl Hin) as Hinit.
  destruct (AggregateInit t) as [t1|f],
           (AggregateInit (mkTree _ _ 0 Value_default 0 [] (Some input))) as [t2|g];
    simpl; try contradiction; [|congruence].
  destruct Hinit as [Hacc Hfan]. rewrite Hfan.
  apply Z.eqb_eq in Hgroup. rewrite Hgroup. simpl.
  unfold WindowSegmentValue.
  destruct (end_ <? begin); simpl; [reflexivity|].
  pose proof (same_accumulator_WindowSegmentValue_loop (Z.to_nat (end_ - begin))
                t1 t2 begin Hacc) as Hloop.
  destruct (WindowSegmentValue_loop _ t1 0 begin) as [t1'|f],
           (WindowSegmentValue_loop _ t2 0 begin) as [t2'|g];
    simpl; try contradiction; [|congruence].
  rewrite (same_accumulator_AggegateFinal t1' t2' Hloop).
  destruct (AggegateFinal t2'); reflexivity.
Qed.

(** The tree over 0, 1, ..., 16 with fanout 16, AVG over [3, 9): both
    bounds are in the first group of sixteen leaves. *)
Lemma Compute_within_one_group_witness :
  exists t,
    build_tree WINDOW_AVG payload_0_to_16 = Ok t /\
    (input_ref t = Some (column_of payload_0_to_16) /\ 0 < fanout t /\
     3 / fanout t = 9 / fanout t) /\
    Compute_value t 3 9 = Ok (bigint 5) /\
    Compute_value t 3 9
    = naive_aggregate (window_type t) (payload_type t) (column_of payload_0_to_16) 3 9.
Proof.
  eexists. split; [vm_compute; reflexivity|].
  split; [vm_compute; repeat split; reflexivity|].
  split; [vm_compute; reflexivity|].
  apply (Compute_within_one_group _ (column_of payload_0_to_16) 3 9);
    vm_compute; reflexivity.
Defined.

(** ** Pruning loses no bound *)

(** The two prunings of [CompareValueInformation], on a value [v]: the
    bound that goes is implied by the bound that stays. *)
Lemma CompareValueInformation_pruned
    (left right : ExpressionValueInformation) (r : ValueComparisonResult) (v : Value) :
  Value_compare (constant left) (constant right) <> None ->
  CompareValueInformation left right = Ok r ->
  (r = PRUNE_LEFT -> holds_info v right = true -> holds_info v left = true) /\
  (r = PRUNE_RIGHT -> holds_info v left = true -> holds_info v right = true).
Proof.
  destruct left as [c1 t1], right as [c2 t2]. unfold holds_info. simpl.
  intros Hcmp H.
  destruct (Value_compare c1 c2) as [r12|] eqn:E; [clear Hcmp | contradiction].
  assert (E' : Value_compare c2 c1 = Some (CompOpp r12)).
  { rewrite Value_compare_antisym, E. reflexivity. }
  unfold CompareValueInformation, CompareValueInformation_body,
    Value_lt, Value_gt, Value_le, Value_ge, Value_ne, Value_eq in H.
  simpl in H. rewrite E, E' in H.
  split; intros -> Hv.
  - destruct (holds_comparable _ _ _ Hv) as [r2 E2].
    destruct (Value_compare_compose _ _ _ _ _ E2 E') as (r1 & E1 & C1 & C2 & C3).
    unfold holds in Hv |- *. rewrite E2 in Hv. rewrite E1.
    destruct t1; try discriminate H; destruct t2; try discriminate H;
      destruct r12; try discriminate H;
      destruct r2; try discriminate Hv;
      simpl in C1, C2, C3;
      try (specialize (C1 eq_refl)); try (specialize (C2 eq_refl));
      try (specialize (C3 eq_refl)); subst; try reflexivity;
      destruct r1; try reflexivity; try discriminate.
  - destruct (holds_comparable _ _ _ Hv) as [r1 E1].
    destruct (Value_compare_compose _ _ _ _ _ E1 E) as (r2 & E2 & C1 & C2 & C3).
    unfold holds in Hv |- *. rewrite E1 in Hv. rewrite E2.
    destruct t1; try discriminate H; destruct t2; try discriminate H;
      destruct r12; try discriminate H;
      destruct r1; try discriminate Hv;
      simpl in C1, C2, C3;
      try (specialize (C1 eq_refl)); try (specialize (C2 eq_refl));
      try (specialize (C3 eq_refl)); subst; try reflexivity;
      destruct r2; try reflexivity; try discriminate.
Qed.

(** X9. When the two constants are comparable, what
    [CompareValueInformation] prunes is implied by what it keeps: on
    PRUNE_LEFT every value that satisfies the right bound satisfies the
    left one, and on PRUNE_RIGHT every value that satisfies the left bound
    satisfies the right one. *)
Theorem CompareValueInformation_prunes_the_implied_bound
    (left right : ExpressionValueInformation) (r : ValueComparisonResult) :
  Value_compare (constant left) (constant right) <> None ->
  CompareValueInformation left right = Ok r ->
  forall v : Value,
    (r = PRUNE_LEFT -> holds_info v right = true -> holds_info v left = true) /\
    (r = PRUNE_RIGHT -> holds_info v left = true -> holds_info v right = true).
Proof.
  intros Hcmp H v. exact (CompareValueInformation_pruned left right r v Hcmp H).
Qed.


(** [x > 3] against [x > 5]: the left bound is pruned, and 7, which
    satisfies [x > 5], satisfies [x > 3]. *)
Lemma CompareValueInformation_prunes_the_implied_bound_witness :
  CompareValueInformation (lower_bound (Value_Numeric INTEGER 3) true)
                          (lower_bound (Value_Numeric INTEGER 5) true) = Ok PRUNE_LEFT /\
  holds_info (Value_Numeric INTEGER 7) (lower_bound (Value_Numeric INTEGER 3) true) = true.
Proof.
  split; [reflexivity|].
  refine (proj1 (CompareValueInformation_prunes_the_implied_bound
                   (lower_bound (Value_Numeric INTEGER 3) true)
                   (lower_bound (Value_Numeric INTEGER 5) true) PRUNE_LEFT
                   _ _ (Value_Numeric INTEGER 7)) _ _).
  - discriminate.
  - reflexivity.
  - reflexivity.
  - reflexivity.
Defined.

(** The loop of [AddConstantComparison]: the entries it leaves are entries
    of the list; the entries it erases are implied by the new bound; and
    when it returns early with SUCCESS, an entry it leaves implies the
    new bound. *)
Lemma AddConstantComparison_loop_equivalent info v : forall l l' r,
  Forall (fun x => Value_compare (constant x) (constant info) <> None) l ->
  AddConstantComparison_loop l info = Ok (l', r) ->
  (Forall (fun x => holds_info v x = true) l ->
   Forall (fun x => holds_info v x = true) l') /\
  (r = None -> holds_info v info = true ->
   Forall (fun x => holds_info v x = true) l' ->
   Forall (fun x => holds_info v x = true) l) /\
  (r = Some SUCCESS ->
   Forall (fun x => holds_info v x = true) l' ->
   holds_info v info = true /\ Forall (fun x => holds_info v x = true) l).
Proof.
  induction l as [|x l IH]; simpl; intros l' r Hc H.
  - inversion H; subst. repeat split; auto; discriminate.
  - inversion Hc as [|? ? Hx Hl]; subst.
    inv_bind H. rename a into res.
    pose proof (CompareValueInformation_pruned x info res v Hx E)
      as [HL HR].
    destruct res.
    + destruct (IH _ _ Hl H) as (I1 & I2 & I3). split; [|split].
      * intros Hall. inversion Hall; subst. auto.
      * intros Hr Hi Hl'. constructor; [apply HL; auto | auto].
      * intros Hr Hl'. destruct (I3 Hr Hl') as [Hi Hall].
        split; [assumption|]. constructor; [apply HL; auto | assumption].
    + inversion H; subst. split; [auto|]. split; [discriminate|].
      intros _ Hall. split; [|assumption].
      inversion Hall; subst. apply HR; auto.
    + inversion H; subst. split; [auto|]. split; discriminate.
    + inv_bind H. destruct a as [rest' r']. inversion H; subst.
      destruct (IH _ _ Hl E0) as (I1 & I2 & I3). split; [|split].
      * intros Hall. apply Forall_cons in Hall as [Hx' Hrest]. constructor; auto.
      * intros Hr Hi Hl'. apply Forall_cons in Hl' as [Hx' Hrest]. constructor; auto.
      * intros Hr Hl'. apply Forall_cons in Hl' as [Hx' Hrest].
        destruct (I3 Hr Hrest) as [Hi Hall]. auto.
Qed.

(** X10. [AddConstantComparison] keeps the conjunction: when it returns
    SUCCESS on constants comparable with the new one, a value satisfies
    the bounds of the list afterwards exactly when it satisfies the bounds
    of the list before and the new bound. *)
Theorem AddConstantComparison_keeps_the_conjunction
    (info_list l' : list ExpressionValueInformation)
    (info : ExpressionValueInformation) (v : Value) :
  Forall (fun x => Value_compare (constant x) (constant info) <> None) info_list ->
  AddConstantComparison info_list info = Ok (l', SUCCESS) ->
  (Forall (fun x => holds_info v x = true) l' <->
   Forall (fun x => holds_info v x = true) info_list /\ holds_info v info = true).
Proof.
  intros Hc H. unfold AddConstantComparison in H.
  inv_bind H. destruct a as [l0 r0].
  destruct (AddConstantComparison_loop_equivalent info v _ _ _ Hc E) as (I1 & I2 & I3).
  destruct r0 as [fr|]; inversion H; subst; clear H.
  - split.
    + intros Hall. destruct (I3 eq_refl Hall). auto.
    + intros [Hall _]. auto.
  - rewrite Forall_app, Forall_singleton. split.
    + intros [Hall Hi]. auto.
    + intros [Hall Hi]. auto.
Qed.

(** Adding [x > 5] to the bounds [x <> 7], [x > 3]: the list becomes
    [x <> 7], [x > 5], which 6 satisfies as it satisfies the three
    bounds. *)
Lemma AddConstantComparison_keeps_the_conjunction_witness :
  AddConstantComparison
    [mkInfo (Value_Numeric INTEGER 7) COMPARE_NOTEQUAL;
     lower_bound (Value_Numeric INTEGER 3) true]
    (lower_bound (Value_Numeric INTEGER 5) true)
  = Ok ([mkInfo (Value_Numeric INTEGER 7) COMPARE_NOTEQUAL;
         lower_bound (Value_Numeric INTEGER 5) true], SUCCESS) /\
  (Forall (fun x => holds_info (Value_Numeric INTEGER 6) x = true)
     [mkInfo (Value_Numeric INTEGER 7) COMPARE_NOTEQUAL;
      lower_bound (Value_Numeric INTEGER 5) true] <->
   Forall (fun x => holds_info (Value_Numeric INTEGER 6) x = true)
     [mkInfo (Value_Numeric INTEGER 7) COMPARE_NOTEQUAL;
      lower_bound (Value_Numeric INTEGER 3) true] /\
   holds_info (Value_Numeric INTEGER 6) (lower_bound (Value_Numeric INTEGER 5) true) = true).
Proof.
  split; [reflexivity|].
  apply (AddConstantComparison_keeps_the_conjunction
           [mkInfo (Value_Numeric INTEGER 7) COMPARE_NOTEQUAL;
            lower_bound (Value_Numeric INTEGER 3) true]).
  - repeat constructor; discriminate.
  - reflexivity.
Defined.

Import BoundLaws.

(** ** One bound of a kind *)

(** Two bounds of one family never stay side by side: one of them is
    pruned, or (two equalities) the pair is unsatisfiable. *)
Lemma CompareValueInformation_same_family (f : ExpressionType -> bool) x info r :
  f = IsGreaterThan \/ f = IsLessThan \/ f = (fun t => bool_decide (t = COMPARE_EQUAL)) ->
  f (comparison_type x) = true -> f (comparison_type info) = true ->
  CompareValueInformation x info = Ok r -> r <> PRUNE_NOTHING.
Proof.
  destruct x as [c1 t1], info as [c2 t2]. simpl.
  unfold CompareValueInformation, CompareValueInformation_body. simpl.
  intros [-> | [-> | ->]] H1 H2 H;
    destruct t1; try discriminate H1; destruct t2; try discriminate H2;
    simpl in H;
    repeat match type of H with
           | context [if ?c then _ else _] => destruct c
           end;
    inversion H; discriminate.
Qed.

Lemma family_count_cons f x l :
  family_count f (x :: l)
  = ((if f (comparison_type x) then 1 else 0) + family_count f l)%nat.
Proof. unfold family_count. simpl. destruct (f (comparison_type x)); reflexivity. Qed.

Lemma family_count_app f l1 l2 :
  family_count f (l1 ++ l2) = (family_count f l1 + family_count f l2)%nat.
Proof. unfold family_count. rewrite List.filter_app, length_app. reflexivity. Qed.

(** The loop of [AddConstantComparison] leaves no more bounds of a family
    than there were, and none of the family of the new bound when it runs
    to its end. *)
Lemma AddConstantComparison_loop_family (f : ExpressionType -> bool) info : forall l l' r,
  f = IsGreaterThan \/ f = IsLessThan \/ f = (fun t => bool_decide (t = COMPARE_EQUAL)) ->
  AddConstantComparison_loop l info = Ok (l', r) ->
  (family_count f l' <= family_count f l)%nat /\
  (r = None -> f (comparison_type info) = true -> family_count f l' = 0%nat).
Proof.
  induction l as [|x l IH]; simpl; intros l' r Hf H.
  - inversion H; subst. split; [lia | reflexivity].
  - inv_bind H. rename a into res.
    pose proof (CompareValueInformation_same_family f x info res Hf) as Hsame.
    destruct res.
    + destruct (IH _ _ Hf H) as [I1 I2]. rewrite family_count_cons.
      split; [lia | assumption].
    + inversion H; subst. split; [lia | discriminate].
    + inversion H; subst. split; [lia | discriminate].
    + inv_bind H. destruct a as [rest' r']. inversion H; subst.
      destruct (IH _ _ Hf E0) as [I1 I2]. rewrite !family_count_cons.
      split; [lia|]. intros Hr Hi.
      destruct (f (comparison_type x)) eqn:Hx.
      * exfalso. apply (Hsame eq_refl Hi E). reflexivity.
      * rewrite I2 by assumption. reflexivity.
Qed.

Lemma AddConstantComparison_family (f : ExpressionType -> bool) l info l' r :
  f = IsGreaterThan \/ f = IsLessThan \/ f = (fun t => bool_decide (t = COMPARE_EQUAL)) ->
  (family_count f l <= 1)%nat ->
  AddConstantComparison l info = Ok (l', r) ->
  (family_count f l' <= 1)%nat.
Proof.
  intros Hf Hl H. unfold AddConstantComparison in H.
  inv_bind H. destruct a as [l0 r0].
  destruct (AddConstantComparison_loop_family f info _ _ _ Hf E) as [I1 I2].
  destruct r0 as [fr|]; inversion H; subst; [lia|].
  rewrite family_count_app, family_count_cons.
  destruct (f (comparison_type info)) eqn:Hi.
  - rewrite I2 by auto. simpl. unfold family_count. simpl. lia.
  - unfold family_count at 2. simpl. lia.
Qed.

(** X11. [AddConstantComparison] keeps a list of bounds free of doubles: a
    list with at most one lower bound, one upper bound and one equality
    is still such a list afterwards, whatever the result.  (The loop of
    [GenerateFilters] keeps the last lower and the last upper bound of a
    list only.) *)
Theorem AddConstantComparison_keeps_bounds_unique
    (info_list l' : list ExpressionValueInformation)
    (info : ExpressionValueInformation) (r : FilterResult) :
  bounds_unique info_list ->
  AddConstantComparison info_list info = Ok (l', r) ->
  bounds_unique l'.
Proof.
  intros (H1 & H2 & H3) H. repeat split.
  - eapply AddConstantComparison_family; eauto.
  - eapply AddConstantComparison_family; eauto.
  - eapply (AddConstantComparison_family (fun t => bool_decide (t = COMPARE_EQUAL)));
      eauto.
Qed.

(** Adding [x >= 5] to [x > 3], [x < 9]: the lower bound is replaced. *)
Lemma AddConstantComparison_keeps_bounds_unique_witness :
  AddConstantComparison
    [lower_bound (Value_Numeric INTEGER 3) true; upper_bound (Value_Numeric INTEGER 9) true]
    (lower_bound (Value_Numeric INTEGER 5) false)
  = Ok ([upper_bound (Value_Numeric INTEGER 9) true;
         lower_bound (Value_Numeric INTEGER 5) false], SUCCESS) /\
  bounds_unique [upper_bound (Value_Numeric INTEGER 9) true;
                 lower_bound (Value_Numeric INTEGER 5) false].
Proof.
  split; [reflexivity|].
  apply (AddConstantComparison_keeps_bounds_unique
           [lower_bound (Value_Numeric INTEGER 3) true;
            upper_bound (Value_Numeric INTEGER 9) true]
           _ (lower_bound (Value_Numeric INTEGER 5) false) SUCCESS).
  - repeat split; vm_compute; lia.
  - reflexivity.
Defined.

(** ** The remaining filters are input predicates *)

Lemma AddTransitiveFilters_loop_remaining (P : Expression -> Prop) ctype filter :
  P filter ->
  forall right_constants left_constants remaining ok ins l' remaining' ok' early,
  Forall P remaining ->
  AddTransitiveFilters_loop ctype filter right_constants left_constants remaining ok ins
    = Ok (l', remaining', ok', early) ->
  Forall P remaining'.
Proof.
  intros Hfilter.
  induction right_constants as [|rc rest IH]; simpl;
    intros left_constants remaining ok ins l' remaining' ok' early Hrem H.
  - inversion H; subst. assumption.
  - match type of H with
    | match ?d with Some _ => _ | None => _ end = _ => destruct d as [[info_type retain]|]
    end; [|eapply IH; eauto].
    inv_bind H. destruct a as [lc r].
    assert (Hrem' : Forall P (if retain && negb ins then remaining ++ [filter]
                              else remaining)).
    { destruct (retain && negb ins); [|assumption].
      apply Forall_app. split; [assumption|]. constructor; [assumption | constructor]. }
    destruct (bool_decide (r = UNSATISFIABLE)).
    + inversion H; subst. assumption.
    + eapply IH; eauto.
Qed.

Lemma GetNode_remaining c e : remaining_filters (GetNode c e).1 = remaining_filters c.
Proof. destruct (GetNode_spec c e) as [st ->]. reflexivity. Qed.

Lemma GetEquivalenceSet_remaining c e c' s :
  GetEquivalenceSet c e = Ok (c', s) -> remaining_filters c' = remaining_filters c.
Proof.
  unfold GetEquivalenceSet. destruct (bool_decide _); [|discriminate].
  destruct (expr_find _ _); intros H; inversion H; reflexivity.
Qed.

Lemma FindTransitiveFilter_remaining (P : Expression -> Prop) c e c' tf :
  FindTransitiveFilter c e = (c', tf) -> Forall P (remaining_filters c) ->
  Forall P (remaining_filters c') /\ (forall f, tf = Some f -> P f).
Proof.
  unfold FindTransitiveFilter. destruct (bool_decide _).
  - destruct (FindTransitiveFilter_loop e (remaining_filters c)) as [r rest] eqn:E.
    intros H Hall. inversion H; subst. simpl.
    destruct (FindTransitiveFilter_loop_sound P e _ _ _ E Hall) as [H1 H2].
    split; [assumption|]. intros f Hf. apply H2 in Hf. tauto.
  - intros H Hall. inversion H; subst. split; [assumption | discriminate].
Qed.

Lemma AddTransitiveFilters_remaining (P : Expression -> Prop) fuel :
  forall c t l r c' res,
  Forall P (remaining_filters c) -> P (BoundComparison t l r) ->
  AddTransitiveFilters fuel c t l r = Ok (c', res) ->
  Forall P (remaining_filters c').
Proof.
  induction fuel as [|fuel IH]; intros c t l r c' res Hrem HP H; [discriminate|].
  cbn [AddTransitiveFilters] in H.
  destruct (negb _); [discriminate|].
  rewrite <- (GetNode_remaining c l) in Hrem.
  destruct (GetNode c l) as [c1 n1]. simpl in Hrem.
  rewrite <- (GetNode_remaining c1 r) in Hrem.
  destruct (GetNode c1 r) as [c2 n2]. simpl in Hrem.
  destruct (Equals n1 n2); [inversion H; subst; assumption|].
  inv_bind H. destruct a as [c3 ls].
  rewrite <- (GetEquivalenceSet_remaining _ _ _ _ E) in Hrem.
  inv_bind H. destruct a as [c4 rs].
  rewrite <- (GetEquivalenceSet_remaining _ _ _ _ E0) in Hrem.
  destruct (bool_decide _); [inversion H; subst; assumption|].
  inv_bind H. inv_bind H. inv_bind H. destruct a1 as [[[lc rem] ok] early].
  apply (AddTransitiveFilters_loop_remaining P) in E3; try assumption.
  destruct early; [inversion H; subst; assumption|].
  destruct ok; [|inversion H; subst; assumption].
  destruct (FindTransitiveFilter _ l) as [c6 tf] eqn:Etf.
  apply (FindTransitiveFilter_remaining P) in Etf as [Hrem6 Htf]; [|assumption].
  destruct tf as [[| |t' l' r'| | | | |]|]; try discriminate;
    [|inversion H; subst; assumption].
  inv_bind H. destruct a1 as [c7 res7].
  apply IH in E4; [| assumption | apply Htf; reflexivity].
  destruct (bool_decide _); inversion H; subst; [|assumption].
  simpl. apply Forall_app. split; [assumption|].
  constructor; [apply Htf; reflexivity | constructor].
Qed.

Lemma try_transitive_remaining (P : Expression -> Prop) fuel c tf c' :
  Forall P (remaining_filters c) -> (forall f, tf = Some f -> P f) ->
  try_transitive fuel c tf = Ok c' -> Forall P (remaining_filters c').
Proof.
  unfold try_transitive. intros Hrem Htf H.
  destruct tf as [[| |t' l' r'| | | | |]|]; try discriminate;
    [|inversion H; subst; assumption].
  inv_bind H. destruct a as [c1 res].
  apply (AddTransitiveFilters_remaining P) in E; [| assumption | apply Htf; reflexivity].
  destruct (bool_decide _); inversion H; subst; [|assumption].
  simpl. apply Forall_app. split; [assumption|].
  constructor; [apply Htf; reflexivity | constructor].
Qed.

Section RemainingFilters.

Variable IsFoldable : Expression -> bool.
Variable HasParameter : Expression -> bool.
Variable scalar_value : Expression -> Value.

Lemma AddBoundComparisonFilter_remaining (P : Expression -> Prop) fuel c expr c' res :
  Forall P (remaining_filters c) -> P expr ->
  AddBoundComparisonFilter IsFoldable scalar_value fuel c expr = Ok (c', res) ->
  Forall P (remaining_filters c').
Proof.
  unfold AddBoundComparisonFilter. intros Hrem HP H.
  destruct expr as [| |ctype cleft cright| | | | |]; try discriminate.
  destruct (negb _); [inversion H; subst; assumption|].
  destruct (IsFoldable cleft || IsFoldable cright).
  - match type of H with
    | context [GetNode c ?n] =>
        rewrite <- (GetNode_remaining c n) in Hrem;
        destruct (GetNode c n) as [c1 n1]; simpl in Hrem
    end.
    inv_bind H. destruct a as [c2 set].
    rewrite <- (GetEquivalenceSet_remaining _ _ _ _ E) in Hrem.
    inv_bind H. inv_bind H. inv_bind H. destruct a1 as [l' ret].
    match type of H with
    | context [FindTransitiveFilter ?c0 ?n] =>
        destruct (FindTransitiveFilter c0 n) as [c4 tf] eqn:Etf
    end.
    apply (FindTransitiveFilter_remaining P) in Etf as [Hrem4 Htf]; [|assumption].
    inv_bind H. inversion H; subst.
    eapply try_transitive_remaining; eauto.
  - destruct (negb _).
    { destruct (_ || _).
      - eapply AddTransitiveFilters_remaining; eauto.
      - inversion H; subst; assumption. }
    rewrite <- (GetNode_remaining c cleft) in Hrem.
    destruct (GetNode c cleft) as [c1 n1]. simpl in Hrem.
    rewrite <- (GetNode_remaining c1 cright) in Hrem.
    destruct (GetNode c1 cright) as [c2 n2]. simpl in Hrem.
    destruct (Equals n1 n2); [inversion H; subst; assumption|].
    inv_bind H. destruct a as [c3 ls].
    rewrite <- (GetEquivalenceSet_remaining _ _ _ _ E) in Hrem.
    inv_bind H. destruct a as [c4 rs].
    rewrite <- (GetEquivalenceSet_remaining _ _ _ _ E0) in Hrem.
    destruct (bool_decide _); [inversion H; subst; assumption|].
    inv_bind H. inv_bind H. inv_bind H. inv_bind H. inv_bind H.
    destruct a3 as [merged early].
    destruct early; inversion H; subst; assumption.
Qed.

Lemma AddFilter_remaining (P : Expression -> Prop) fuel c expr c' res :
  Forall P (remaining_filters c) -> P expr ->
  AddFilter IsFoldable HasParameter scalar_value fuel c expr = Ok (c', res) ->
  Forall P (remaining_filters c').
Proof.
  unfold AddFilter. intros Hrem HP H. inv_bind H. destruct a as [c1 r1].
  assert (Hrem1 : Forall P (remaining_filters c1)).
  { unfold AddFilter_expr in E.
    destruct (HasParameter expr); [inversion E; subst; assumption|].
    destruct (IsFoldable expr).
    { inv_bind E. inv_bind E. destruct (_ || _); inversion E; subst; assumption. }
    destruct expr as [| |ctype cleft cright|input lower upper li ui| | | |];
      try (inversion E; subst; assumption).
    - eapply AddBoundComparisonFilter_remaining; eauto.
    - destruct (_ || _); [|inversion E; subst; assumption].
      rewrite <- (GetNode_remaining c input) in Hrem.
      destruct (GetNode c input) as [c2 n]. simpl in Hrem.
      inv_bind E. destruct a as [c3 set].
      rewrite <- (GetEquivalenceSet_remaining _ _ _ _ E0) in Hrem.
      inv_bind E. inv_bind E. inv_bind E. destruct a1 as [l1 r'].
      inv_bind E. inv_bind E. inv_bind E. destruct a3 as [l2 ret].
      inversion E; subst. assumption. }
  destruct (bool_decide _); inversion H; subst; [|assumption].
  simpl. apply Forall_app. split; [assumption|]. constructor; [assumption | constructor].
Qed.

(** X12. The combiner invents no residual filter: after any sequence of
    [AddFilter] calls on a fresh combiner, every filter of
    [remaining_filters] is one of the predicates that were added. *)
Theorem remaining_filters_are_inputs fuel (exprs : list Expression)
    (c : FilterCombiner) (rs : list FilterResult) (f : Expression) :
  AddFilters IsFoldable HasParameter scalar_value fuel FilterCombiner_new exprs
    = Ok (c, rs) ->
  f ∈ remaining_filters c -> f ∈ exprs.
Proof.
  intros H Hf.
  assert (Hgen : forall es c0 c1 rs0,
            Forall (fun f => f ∈ exprs) (remaining_filters c0) ->
            Forall (fun f => f ∈ exprs) es ->
            AddFilters IsFoldable HasParameter scalar_value fuel c0 es = Ok (c1, rs0) ->
            Forall (fun f => f ∈ exprs) (remaining_filters c1)).
  { induction es as [|e es IH]; simpl; intros c0 c1 rs0 Hrem Hes H0.
    - inversion H0; subst. assumption.
    - inv_bind H0. destruct a as [c2 r]. inv_bind H0. destruct a as [c3 rs'].
      inversion H0; subst. apply Forall_cons in Hes as [He Hes].
      eapply IH; [| exact Hes | exact E0].
      eapply AddFilter_remaining; eauto. }
  assert (Hall : Forall (fun f => f ∈ exprs) (remaining_filters c)).
  { apply (Hgen exprs FilterCombiner_new c rs); [constructor | | exact H].
    apply Forall_forall. auto. }
  rewrite Forall_forall in Hall. apply Hall. assumption.
Qed.

End RemainingFilters.

(** After [a = 5] and [b ~~ 'abc%'] the LIKE is the one remaining
    filter. *)
Lemma remaining_filters_are_inputs_witness :
  example_AddFilters 5 FilterCombiner_new
    [BoundComparison COMPARE_EQUAL (column 0) (int_constant 5); like (column 1) "abc%"]
  = Ok (example_combiner, [SUCCESS; SUCCESS]) /\
  like (column 1) "abc%"
  ∈ [BoundComparison COMPARE_EQUAL (column 0) (int_constant 5); like (column 1) "abc%"].
Proof.
  split; [vm_compute; reflexivity|].
  apply (remaining_filters_are_inputs example_IsFoldable example_HasParameter
           example_scalar_value 5 _ example_combiner [SUCCESS; SUCCESS]).
  - vm_compute. reflexivity.
  - simpl. constructor.
Defined.

Import Zonemap.

(** ** Zonemap checks *)

Lemma widen_check_empty column_id value :
  widen_check ∅ column_id value = {[ column_id := (value, value) ]}.
Proof. unfold widen_check. rewrite lookup_empty. apply insert_empty. Qed.

(** X13. The zonemap check of a comparison does not look at the operator:
    a lone residual comparison of a column with a constant [c], whichever
    of [=], [<], [<=], [>=], [>] it is, gives the two checks
    [col >= c] and [col <= c]. *)
Theorem GenerateZonemapChecks_ignores_the_operator
    (column_ids : list Z) (t : ExpressionType) (tbl col column_id : Z) (value : Value) :
  t = COMPARE_EQUAL \/ t = COMPARE_LESSTHAN \/ t = COMPARE_LESSTHANOREQUALTO \/
  t = COMPARE_GREATERTHANOREQUALTO \/ t = COMPARE_GREATERTHAN ->
  vector_at column_ids col = Ok column_id ->
  GenerateZonemapChecks column_ids []
    (with_remaining [BoundComparison t (BoundColumnRef tbl col) (BoundConstant value)])
  = Ok [mkTableFilter value COMPARE_GREATERTHANOREQUALTO column_id;
        mkTableFilter value COMPARE_LESSTHANOREQUALTO column_id].
Proof.
  intros Ht Hcol. unfold GenerateZonemapChecks, with_remaining. simpl remaining_filters.
  unfold find_all, FindZonemapChecks.
  assert (Hfive : bool_decide (t = COMPARE_EQUAL) || bool_decide (t = COMPARE_LESSTHAN)
                  || bool_decide (t = COMPARE_LESSTHANOREQUALTO)
                  || bool_decide (t = COMPARE_GREATERTHANOREQUALTO)
                  || bool_decide (t = COMPARE_GREATERTHAN) = true).
  { destruct Ht as [-> | [-> | [-> | [-> | ->]]]]; reflexivity. }
  rewrite Hfive, Hcol. rewrite !bind_Ok_l. cbv beta iota. cbn [fst snd].
  rewrite widen_check_empty, set_fold_empty. cbn [erase_pushed]. rewrite bind_Ok_l.
  rewrite map_to_list_singleton. reflexivity.
Qed.

(** [a > 5] alone gives the checks [a >= 5] and [a <= 5]. *)
Lemma GenerateZonemapChecks_ignores_the_operator_witness :
  GenerateZonemapChecks [7] []
    (with_remaining [BoundComparison COMPARE_GREATERTHAN (column 0) (int_constant 5)])
  = Ok [mkTableFilter (Value_Numeric INTEGER 5) COMPARE_GREATERTHANOREQUALTO 7;
        mkTableFilter (Value_Numeric INTEGER 5) COMPARE_LESSTHANOREQUALTO 7].
Proof.
  apply (GenerateZonemapChecks_ignores_the_operator [7] COMPARE_GREATERTHAN 0 0 7).
  - right. right. right. right. reflexivity.
  - reflexivity.
Defined.

Lemma Value_gt_integer t a b :
  integer_type t = true -> Value_gt (Value_Numeric t a) (Value_Numeric t b) = (a >? b).
Proof.
  intros Ht. unfold Value_gt, Value_compare, Z.gtb. simpl.
  destruct t; try discriminate Ht; simpl; destruct (a ?= b); reflexivity.
Qed.

Lemma fold_left_min_minimum (zs : list Z) : forall z,
  fold_left Z.min zs z = minimum z zs.
Proof.
  unfold minimum.
  assert (Hshift : forall (l : list Z) a z,
            fold_right Z.min (Z.min a z) l = Z.min z (fold_right Z.min a l)).
  { induction l as [|x l IH]; intros a z; simpl; [lia|]. rewrite IH. lia. }
  induction zs as [|x zs IH]; intros z; simpl; [reflexivity|].
  rewrite IH. apply Hshift.
Qed.

Lemma fold_left_max_maximum (zs : list Z) : forall z,
  fold_left Z.max zs z = maximum z zs.
Proof.
  unfold maximum.
  assert (Hshift : forall (l : list Z) a z,
            fold_right Z.max (Z.max a z) l = Z.max z (fold_right Z.max a l)).
  { induction l as [|x l IH]; intros a z; simpl; [lia|]. rewrite IH. lia. }
  induction zs as [|x zs IH]; intros z; simpl; [reflexivity|].
  rewrite IH. apply Hshift.
Qed.

(** The checks of a column widen with the integers of an IN list. *)
Lemma in_children_loop_integers column_ids col column_id t not_constants :
  integer_type t = true -> vector_at column_ids col = Ok column_id ->
  forall (zs : list Z) (lo hi : Z) (checks : gmap Z (Value * Value)),
  checks !! column_id = Some (Value_Numeric t lo, Value_Numeric t hi) ->
  exists checks',
    in_children_loop column_ids col
      (map (fun z => BoundConstant (Value_Numeric t z)) zs) checks not_constants
    = Ok (checks', not_constants) /\
    checks' !! column_id
    = Some (Value_Numeric t (fold_left Z.min zs lo), Value_Numeric t (fold_left Z.max zs hi)) /\
    forall k, k <> column_id -> checks' !! k = checks !! k.
Proof.
  intros Ht Hcol. induction zs as [|z zs IH]; intros lo hi checks Hc; simpl.
  - eauto.
  - rewrite Hcol. simpl.
    destruct (IH (Z.min lo z) (Z.max hi z) (widen_check checks column_id (Value_Numeric t z)))
      as (checks' & H1 & H2 & H3).
    { unfold widen_check. rewrite Hc, lookup_insert_eq.
      rewrite (Value_gt_integer t lo z Ht), (Value_lt_numeric t hi z Ht).
      destruct (Z.gtb_spec lo z), (Z.ltb_spec hi z); repeat f_equal; lia. }
    exists checks'. split; [assumption|]. split; [assumption|].
    intros k Hk. rewrite H3 by assumption. unfold widen_check. rewrite Hc.
    apply lookup_insert_ne. congruence.
Qed.

(** X14. The zonemap checks of a lone residual [col IN (z, zs...)] over
    integer constants are [col >= min] and [col <= max], whether or not
    the values are consecutive and whichever column it is. *)
Theorem GenerateZonemapChecks_in_list
    (column_ids : list Z) (tbl col column_id : Z) (t : LogicalType) (z : Z) (zs : list Z) :
  integer_type t = true ->
  vector_at column_ids col = Ok column_id ->
  GenerateZonemapChecks column_ids []
    (with_remaining [in_list (BoundColumnRef tbl col) t (z :: zs)])
  = Ok [mkTableFilter (Value_Numeric t (minimum z zs)) COMPARE_GREATERTHANOREQUALTO column_id;
        mkTableFilter (Value_Numeric t (maximum z zs)) COMPARE_LESSTHANOREQUALTO column_id].
Proof.
  intros Ht Hcol. unfold GenerateZonemapChecks, with_remaining. simpl remaining_filters.
  unfold find_all, FindZonemapChecks, in_list.
  rewrite bool_decide_eq_true_2 by reflexivity.
  change (vector_at (BoundColumnRef tbl col
                       :: map (fun z0 => BoundConstant (Value_Numeric t z0)) (z :: zs)) 0)
    with (Ok (A := Expression) (BoundColumnRef tbl col)).
  rewrite bind_Ok_l. cbv beta iota.
  change (drop 1 (BoundColumnRef tbl col
                    :: map (fun z0 => BoundConstant (Value_Numeric t z0)) (z :: zs)))
    with (BoundConstant (Value_Numeric t z)
            :: map (fun z0 => BoundConstant (Value_Numeric t z0)) zs).
  cbn [in_children_loop fst snd]. rewrite Hcol, bind_Ok_l. cbv beta iota.
  rewrite widen_check_empty.
  destruct (in_children_loop_integers column_ids col column_id t ∅ Ht Hcol zs z z
              {[ column_id := (Value_Numeric t z, Value_Numeric t z) ]})
    as (checks' & H1 & H2 & H3); [apply lookup_singleton_eq|].
  rewrite H1, !bind_Ok_l. cbv beta iota.
  rewrite set_fold_empty. cbn [erase_pushed]. rewrite bind_Ok_l.
  assert (Hc : checks' = {[ column_id := (Value_Numeric t (minimum z zs),
                                           Value_Numeric t (maximum z zs)) ]}).
  { apply map_eq. intros k. destruct (decide (k = column_id)) as [->|Hne].
    - rewrite H2, lookup_singleton_eq, fold_left_min_minimum, fold_left_max_maximum.
      reflexivity.
    - rewrite H3 by assumption. rewrite !lookup_singleton_ne by congruence. reflexivity. }
  rewrite Hc, map_to_list_singleton. reflexivity.
Qed.

(** [a IN (1, 3, 5)] gives the checks [a >= 1] and [a <= 5]. *)
Lemma GenerateZonemapChecks_in_list_witness :
  GenerateZonemapChecks [7] [] (with_remaining [in_list (column 0) INTEGER [1; 3; 5]])
  = Ok [mkTableFilter (Value_Numeric INTEGER 1) COMPARE_GREATERTHANOREQUALTO 7;
        mkTableFilter (Value_Numeric INTEGER 5) COMPARE_LESSTHANOREQUALTO 7].
Proof.
  apply (GenerateZonemapChecks_in_list [7] 0 0 7 INTEGER 1 [3; 5]); reflexivity.
Defined.

(** *** Columns without a check *)

(** Induction on an expression and, with it, on its children. *)
Lemma Expression_children_ind (P : Expression -> Prop) :
  (forall tbl col, P (BoundColumnRef tbl col)) ->
  (forall v, P (BoundConstant v)) ->
  (forall t l r, P l -> P r -> P (BoundComparison t l r)) ->
  (forall i lo up li ui, P i -> P lo -> P up -> P (BoundBetween i lo up li ui)) ->
  (forall t cs, Forall P cs -> P (BoundConjunction t cs)) ->
  (forall t cs, Forall P cs -> P (BoundOperator t cs)) ->
  (forall n cs, Forall P cs -> P (BoundFunction n cs)) ->
  (forall n, P (BoundParameter n)) ->
  forall e, P e.
Proof.
  intros Hcol Hconst Hcmp Hbetween Hconj Hop Hfun Hparam.
  fix IH 1. intros e.
  destruct e as [tbl col|v|t l r|i lo up li ui|t cs|t cs|n cs|n].
  - apply Hcol.
  - apply Hconst.
  - apply Hcmp; apply IH.
  - apply Hbetween; apply IH.
  - apply Hconj. induction cs as [|c cs IHcs]; constructor; [apply IH | apply IHcs].
  - apply Hop. induction cs as [|c cs IHcs]; constructor; [apply IH | apply IHcs].
  - apply Hfun. induction cs as [|c cs IHcs]; constructor; [apply IH | apply IHcs].
  - apply Hparam.
Qed.

Lemma other_class_Ok t st st' : other_class t st = Ok st' -> st' = st.
Proof. unfold other_class. destruct t; intros H; inversion H; reflexivity. Qed.

Lemma in_children_loop_not_constants column_ids col : forall cs checks nc checks' nc',
  in_children_loop column_ids col cs checks nc = Ok (checks', nc') -> nc ⊆ nc'.
Proof.
  induction cs as [|child cs IH]; simpl; intros checks nc checks' nc' H.
  - inversion H; subst. set_solver.
  - inv_bind H. destruct child; try (inversion H; subst; set_solver).
Qed.

(** [FindZonemapChecks] takes no column out of [not_constants]. *)
Lemma FindZonemapChecks_not_constants column_ids filter : forall st st',
  FindZonemapChecks column_ids filter st = Ok st' -> st.2 ⊆ st'.2.
Proof.
  induction filter as [tbl col|v|t l r IHl IHr|i lo up li ui IHi IHlo IHup
                       |t cs IHcs|t cs IHcs|n cs IHcs|n]
    using Expression_children_ind; intros st st' H; simpl in H;
    try (inversion H; subst; set_solver).
  - destruct (_ || _).
    + destruct l; try (inversion H; subst; set_solver).
      destruct r; inv_bind H; inversion H; subst; simpl; set_solver.
    + apply other_class_Ok in H. subst. set_solver.
  - destruct (_ || _).
    + revert st st' H. induction IHcs as [|c cs Hc _ IH]; intros st st' H.
      * inversion H; subst. set_solver.
      * inv_bind H. apply Hc in E. apply IH in H. set_solver.
    + apply other_class_Ok in H. subst. set_solver.
  - destruct (bool_decide _).
    + inv_bind H. destruct a; try (inversion H; subst; set_solver).
      destruct st as [checks nc], st' as [checks' nc']. simpl in *.
      eapply in_children_loop_not_constants; eauto.
    + apply other_class_Ok in H. subst. set_solver.
Qed.

Lemma find_all_not_constants column_ids : forall filters st st',
  find_all column_ids filters st = Ok st' -> st.2 ⊆ st'.2.
Proof.
  induction filters as [|f filters IH]; simpl; intros st st' H.
  - inversion H; subst. set_solver.
  - inv_bind H. apply FindZonemapChecks_not_constants in E. apply IH in H. set_solver.
Qed.

(** A comparison of a column with something that is not a constant puts
    the column into [not_constants]. *)
Lemma find_all_non_constant column_ids t tbl col e column_id : forall filters st st',
  t = COMPARE_EQUAL \/ t = COMPARE_LESSTHAN \/ t = COMPARE_LESSTHANOREQUALTO \/
  t = COMPARE_GREATERTHANOREQUALTO \/ t = COMPARE_GREATERTHAN ->
  (forall v, e <> BoundConstant v) ->
  vector_at column_ids col = Ok column_id ->
  BoundComparison t (BoundColumnRef tbl col) e ∈ filters ->
  find_all column_ids filters st = Ok st' -> column_id ∈ st'.2.
Proof.
  intros filters st st' Ht He Hcol Hin. revert st st'.
  induction filters as [|g filters IH]; intros st st' H;
    [inversion Hin|].
  simpl in H. inversion Hin as [|? ? ? Hin']; subst.
  - inv_bind H. apply find_all_not_constants in H.
    assert (E' : (match e with
                  | BoundConstant value =>
                      column_id ← vector_at column_ids col;
                      Ok (widen_check st.1 column_id value, st.2)
                  | _ =>
                      column_id ← vector_at column_ids col;
                      Ok (st.1, st.2 ∪ {[ column_id ]})
                  end) = Ok a).
    { destruct Ht as [-> | [-> | [-> | [-> | ->]]]]; exact E. }
    clear E. rewrite Hcol in E'.
    destruct e;
      try (injection E' as <-; apply H; simpl; apply elem_of_union_r, elem_of_singleton;
           reflexivity).
    exfalso. eapply He. reflexivity.
  - inv_bind H. eapply IH; eauto.
Qed.

Lemma erase_not_constants (checks : gmap Z (Value * Value)) (not_constants : gset Z) k v :
  set_fold (fun not_constant m => delete not_constant m) checks not_constants !! k = Some v ->
  checks !! k = Some v /\ k ∉ not_constants.
Proof.
  revert k v.
  apply (set_fold_ind_L
           (fun (r : gmap Z (Value * Value)) (X : gset Z) =>
              forall k v, r !! k = Some v -> checks !! k = Some v /\ (k ∉ X))).
  - intros k v H. split; [assumption | set_solver].
  - intros x X r Hx IH k v H.
    apply lookup_delete_Some in H as [Hne H]. apply IH in H as [H1 H2].
    split; [assumption|].
    intros [Hk|Hk]%elem_of_union; [apply elem_of_singleton in Hk; congruence | contradiction].
Qed.

Lemma erase_pushed_lookup column_ids : forall pushed checks checks' k v,
  erase_pushed column_ids pushed checks = Ok checks' ->
  checks' !! k = Some v ->
  checks !! k = Some v /\
  forall p, p ∈ pushed -> vector_at column_ids (tf_column_index p) <> Ok k.
Proof.
  induction pushed as [|p pushed IH]; simpl; intros checks checks' k v H Hk.
  - inversion H; subst. split; [assumption|]. intros p Hp. inversion Hp.
  - inv_bind H. destruct (IH _ _ _ _ H Hk) as [H1 H2].
    apply lookup_delete_Some in H1 as [Hne H1]. split; [assumption|].
    intros q Hq. inversion Hq; subst; [congruence | auto].
Qed.

(** Every check that [GenerateZonemapChecks] emits is on a column that was
    compared with constants only and that no pushed filter is on. *)
Lemma GenerateZonemapChecks_columns column_ids pushed c tfs tf :
  GenerateZonemapChecks column_ids pushed c = Ok tfs -> tf ∈ tfs ->
  exists checks not_constants,
    find_all column_ids (remaining_filters c) (∅, ∅) = Ok (checks, not_constants) /\
    is_Some (checks !! tf_column_index tf) /\
    (tf_column_index tf ∉ not_constants) /\
    forall p, p ∈ pushed ->
      vector_at column_ids (tf_column_index p) <> Ok (tf_column_index tf).
Proof.
  unfold GenerateZonemapChecks. intros H Hin.
  inv_bind H. destruct a as [checks nc]. inv_bind H. inversion H; subst; clear H.
  apply list_elem_of_In, in_flat_map in Hin as ([k [lo hi]] & Hk & Htf).
  apply list_elem_of_In, elem_of_map_to_list in Hk.
  assert (Hcol : tf_column_index tf = k).
  { destruct Htf as [<-|[<-|[]]]; reflexivity. }
  rewrite Hcol. destruct (erase_pushed_lookup _ _ _ _ _ _ E0 Hk) as [H1 H2].
  apply erase_not_constants in H1 as [H1 H3].
  exists checks, nc. repeat split; eauto.
Qed.

(** X15. A column that a residual comparison compares with something that
    is not a constant gets no zonemap check, whatever else the remaining
    filters say about it. *)
Theorem GenerateZonemapChecks_skips_non_constant_comparisons
    column_ids pushed c tfs t tbl col e column_id tf :
  t = COMPARE_EQUAL \/ t = COMPARE_LESSTHAN \/ t = COMPARE_LESSTHANOREQUALTO \/
  t = COMPARE_GREATERTHANOREQUALTO \/ t = COMPARE_GREATERTHAN ->
  (forall v, e <> BoundConstant v) ->
  vector_at column_ids col = Ok column_id ->
  BoundComparison t (BoundColumnRef tbl col) e ∈ remaining_filters c ->
  GenerateZonemapChecks column_ids pushed c = Ok tfs ->
  tf ∈ tfs -> tf_column_index tf <> column_id.
Proof.
  intros Ht He Hcol Hin H Htf Heq.
  destruct (GenerateZonemapChecks_columns _ _ _ _ _ H Htf)
    as (checks & nc & Hfind & _ & Hnc & _).
  apply Hnc. rewrite Heq.
  exact (find_all_non_constant column_ids t tbl col e column_id _ _ _ Ht He Hcol Hin Hfind).
Qed.

(** X16. A column that a pushed filter is on gets no zonemap check. *)
Theorem GenerateZonemapChecks_skips_pushed_columns
    column_ids pushed c tfs (p tf : TableFilter) column_id :
  p ∈ pushed -> vector_at column_ids (tf_column_index p) = Ok column_id ->
  GenerateZonemapChecks column_ids pushed c = Ok tfs ->
  tf ∈ tfs -> tf_column_index tf <> column_id.
Proof.
  intros Hp Hcol H Htf Heq.
  destruct (GenerateZonemapChecks_columns _ _ _ _ _ H Htf)
    as (checks & nc & _ & _ & _ & Hpushed).
  apply (Hpushed p Hp). rewrite Heq. assumption.
Qed.

(** [a > b] keeps [a] out of the zonemap checks, although [a > 5] is
    there too; [c > 6] gives the checks on [c]. *)
Lemma GenerateZonemapChecks_skips_non_constant_comparisons_witness :
  GenerateZonemapChecks [7; 8; 9] []
    (with_remaining [BoundComparison COMPARE_GREATERTHAN (column 0) (int_constant 5);
                     BoundComparison COMPARE_GREATERTHAN (column 0) (column 1);
                     BoundComparison COMPARE_GREATERTHAN (column 2) (int_constant 6)])
  = Ok [mkTableFilter (Value_Numeric INTEGER 6) COMPARE_GREATERTHANOREQUALTO 9;
        mkTableFilter (Value_Numeric INTEGER 6) COMPARE_LESSTHANOREQUALTO 9] /\
  tf_column_index (mkTableFilter (Value_Numeric INTEGER 6) COMPARE_GREATERTHANOREQUALTO 9)
  <> 7.
Proof.
  split; [vm_compute; reflexivity|].
  apply (GenerateZonemapChecks_skips_non_constant_comparisons [7; 8; 9] []
           (with_remaining [BoundComparison COMPARE_GREATERTHAN (column 0) (int_constant 5);
                            BoundComparison COMPARE_GREATERTHAN (column 0) (column 1);
                            BoundComparison COMPARE_GREATERTHAN (column 2) (int_constant 6)])
           [mkTableFilter (Value_Numeric INTEGER 6) COMPARE_GREATERTHANOREQUALTO 9;
            mkTableFilter (Value_Numeric INTEGER 6) COMPARE_LESSTHANOREQUALTO 9]
           COMPARE_GREATERTHAN 0 0 (column 1) 7).
  - right. right. right. right. reflexivity.
  - discriminate.
  - reflexivity.
  - simpl. constructor. constructor.
  - vm_compute. reflexivity.
  - constructor.
Defined.

(** With a pushed filter on [a], the comparison [a > 5] gives no check and
    [b > 6] gives the checks on [b]. *)
Lemma GenerateZonemapChecks_skips_pushed_columns_witness :
  GenerateZonemapChecks [7; 8]
    [mkTableFilter (Value_Numeric INTEGER 1) COMPARE_EQUAL 0]
    (with_remaining [BoundComparison COMPARE_GREATERTHAN (column 0) (int_constant 5);
                     BoundComparison COMPARE_GREATERTHAN (column 1) (int_constant 6)])
  = Ok [mkTableFilter (Value_Numeric INTEGER 6) COMPARE_GREATERTHANOREQUALTO 8;
        mkTableFilter (Value_Numeric INTEGER 6) COMPARE_LESSTHANOREQUALTO 8] /\
  tf_column_index (mkTableFilter (Value_Numeric INTEGER 6) COMPARE_GREATERTHANOREQUALTO 8)
  <> 7.
Proof.
  split; [vm_compute; reflexivity|].
  apply (GenerateZonemapChecks_skips_pushed_columns [7; 8]
           [mkTableFilter (Value_Numeric INTEGER 1) COMPARE_EQUAL 0]
           (with_remaining [BoundComparison COMPARE_GREATERTHAN (column 0) (int_constant 5);
                            BoundComparison COMPARE_GREATERTHAN (column 1) (int_constant 6)])
           [mkTableFilter (Value_Numeric INTEGER 6) COMPARE_GREATERTHANOREQUALTO 8;
            mkTableFilter (Value_Numeric INTEGER 6) COMPARE_LESSTHANOREQUALTO 8]
           (mkTableFilter (Value_Numeric INTEGER 1) COMPARE_EQUAL 0)).
  - constructor.
  - reflexivity.
  - vm_compute. reflexivity.
  - constructor.
Defined.

(** ** An inequality between members of one equivalence set *)

Lemma GetNode_stored c e : e ∈ stored_expressions c -> GetNode c e = (c, e).
Proof. intros H. unfold GetNode. rewrite bool_decide_eq_true_2 by assumption. reflexivity. Qed.

Lemma GetEquivalenceSet_known c e s :
  e ∈ stored_expressions c -> expr_find (equivalence_set_map c) e = Some s ->
  GetEquivalenceSet c e = Ok (c, s).
Proof.
  intros H Hs. unfold GetEquivalenceSet.
  rewrite bool_decide_eq_true_2 by assumption. rewrite Hs. reflexivity.
Qed.

Section WithinOneSet.

Variable IsFoldable : Expression -> bool.
Variable HasParameter : Expression -> bool.
Variable scalar_value : Expression -> Value.

(** X17. An inequality between two expressions that are already in one
    equivalence set is dropped: [AddFilter] answers SUCCESS, not
    UNSATISFIABLE, and leaves the combiner as it was, also for the strict
    [a > b] and [a < b] that contradict [a = b]. *)
Theorem AddFilter_drops_inequality_within_a_set
    fuel (c : FilterCombiner) (t : ExpressionType) (a b : Expression) (s : nat) :
  IsGreaterThan t || IsLessThan t = true ->
  HasParameter (BoundComparison t a b) = false ->
  IsFoldable (BoundComparison t a b) = false ->
  IsFoldable a = false -> IsFoldable b = false ->
  a <> b ->
  a ∈ stored_expressions c -> b ∈ stored_expressions c ->
  expr_find (equivalence_set_map c) a = Some s ->
  expr_find (equivalence_set_map c) b = Some s ->
  AddFilter IsFoldable HasParameter scalar_value (S fuel) c (BoundComparison t a b)
  = Ok (c, SUCCESS).
Proof.
  intros Ht Hp Hf Hfa Hfb Hab Ha Hb Hsa Hsb.
  unfold AddFilter, AddFilter_expr. rewrite Hp, Hf.
  unfold AddBoundComparisonFilter. rewrite Hfa, Hfb.
  assert (Hsix : negb (bool_decide (t = COMPARE_LESSTHAN)
                       || bool_decide (t = COMPARE_LESSTHANOREQUALTO)
                       || bool_decide (t = COMPARE_GREATERTHAN)
                       || bool_decide (t = COMPARE_GREATERTHANOREQUALTO)
                       || bool_decide (t = COMPARE_EQUAL)
                       || bool_decide (t = COMPARE_NOTEQUAL)) = false).
  { destruct t; try discriminate Ht; reflexivity. }
  assert (Hne : negb (bool_decide (t = COMPARE_EQUAL)) = true).
  { destruct t; try discriminate Ht; reflexivity. }
  rewrite Hsix. cbn [orb]. rewrite Hne, Ht.
  cbn [AddTransitiveFilters]. rewrite Ht. cbn [negb].
  rewrite (GetNode_stored c a Ha), (GetNode_stored c b Hb).
  unfold Equals. rewrite bool_decide_eq_false_2 by assumption.
  rewrite (GetEquivalenceSet_known c a s Ha Hsa). rewrite bind_Ok_l. cbv beta iota.
  rewrite (GetEquivalenceSet_known c b s Hb Hsb). rewrite bind_Ok_l. cbv beta iota.
  rewrite bool_decide_eq_true_2 by reflexivity. reflexivity.
Qed.

End WithinOneSet.

(** After [a = b], the filter [a > b] is answered SUCCESS and the
    combiner stays as it is. *)
Lemma AddFilter_drops_inequality_within_a_set_witness :
  exists c,
    example_AddFilters 5 FilterCombiner_new
      [BoundComparison COMPARE_EQUAL (column 0) (column 1)] = Ok (c, [SUCCESS]) /\
    AddFilter example_IsFoldable example_HasParameter example_scalar_value 5 c
      (BoundComparison COMPARE_GREATERTHAN (column 0) (column 1)) = Ok (c, SUCCESS).
Proof.
  eexists. split; [vm_compute; reflexivity|].
  apply (AddFilter_drops_inequality_within_a_set example_IsFoldable example_HasParameter
           example_scalar_value 4 _ COMPARE_GREATERTHAN (column 0) (column 1) 0%nat).
  - reflexivity.
  - reflexivity.
  - reflexivity.
  - reflexivity.
  - reflexivity.
  - discriminate.
  - apply list_elem_of_In. simpl. auto.
  - apply list_elem_of_In. simpl. auto.
  - reflexivity.
  - reflexivity.
Defined.

Import GeneratedLaws.

(** ** GenerateFilters emits what the inputs imply *)

Lemma AddFilters_remaining IsFoldable HasParameter scalar_value (P : Expression -> Prop)
    fuel : forall exprs c c' rs,
  Forall P (remaining_filters c) -> Forall P exprs ->
  AddFilters IsFoldable HasParameter scalar_value fuel c exprs = Ok (c', rs) ->
  Forall P (remaining_filters c').
Proof.
  induction exprs as [|e es IH]; simpl; intros c c' rs Hrem Hes H.
  - inversion H; subst. assumption.
  - inv_bind H. destruct a as [c2 r]. inv_bind H. destruct a as [c3 rs'].
    inversion H; subst. apply Forall_cons in Hes as [He Hes].
    eapply IH; [| exact Hes | exact E0].
    eapply AddFilter_remaining; eauto.
Qed.

Section GeneratedSound.

Variable IsFoldable : Expression -> bool.
Variable HasParameter : Expression -> bool.
Variable scalar_value : Expression -> Value.
Variable assignment : Expression -> Value.

(** A constant folds to its value. *)
Hypothesis constant_foldable : forall v, IsFoldable (BoundConstant v) = true.
Hypothesis constant_value : forall v, scalar_value (BoundConstant v) = v.

Notation "'value_of'" := (operand_value IsFoldable scalar_value assignment).
Notation "'agrees'" := (consistent IsFoldable scalar_value assignment).
Notation "'kept_holds'" := (comparison_holds IsFoldable scalar_value assignment).
Notation "'ready'" := (buckets_hold IsFoldable scalar_value assignment).
Notation "'is_true'" := (structural IsFoldable scalar_value assignment).

Lemma buckets_hold_new : ready FilterCombiner_new.
Proof.
  split; simpl; intros *; rewrite lookup_empty; discriminate.
Qed.

Lemma buckets_hold_fields c c' :
  equivalence_map c' = equivalence_map c -> constant_values c' = constant_values c ->
  ready c -> ready c'.
Proof. unfold buckets_hold. intros -> ->. auto. Qed.

Lemma buckets_hold_GetNode c e : ready c -> ready (GetNode c e).1.
Proof. destruct (GetNode_spec c e) as [st ->]. apply buckets_hold_fields; reflexivity. Qed.

Lemma buckets_hold_set_remaining c r : ready c -> ready (set_remaining c r).
Proof. apply buckets_hold_fields; reflexivity. Qed.

Lemma buckets_hold_FindTransitiveFilter c e : ready c -> ready (FindTransitiveFilter c e).1.
Proof.
  unfold FindTransitiveFilter. destruct (bool_decide _); [|auto].
  destruct (FindTransitiveFilter_loop _ _). apply buckets_hold_set_remaining.
Qed.

Lemma buckets_hold_GetEquivalenceSet c e c' s :
  agrees c -> ready c -> GetEquivalenceSet c e = Ok (c', s) -> ready c'.
Proof.
  intros Hc [R1 R2] H. unfold GetEquivalenceSet in H.
  destruct (bool_decide _); [|discriminate].
  destruct (expr_find _ _); inversion H; subst; clear H; [split; assumption|].
  assert (Hb : equivalence_map c !! set_index c = None).
  { destruct (equivalence_map c !! set_index c) eqn:E; [|reflexivity].
    pose proof (cons_fresh_bucket _ _ _ _ Hc (set_index c) ltac:(eauto)). lia. }
  assert (Hv : constant_values c !! set_index c = None).
  { destruct (constant_values c !! set_index c) eqn:E; [|reflexivity].
    pose proof (cons_fresh_bounds _ _ _ _ Hc (set_index c) ltac:(eauto)). lia. }
  rewrite Hb, Hv. split; simpl.
  - intros s es Hs. destruct (decide (set_index c = s)) as [<-|Hne].
    + rewrite lookup_insert_eq in Hs. inversion Hs; subst. left. eauto.
    + rewrite lookup_insert_ne in Hs by assumption. eauto.
  - intros s es cs e' info Hs Hcs He Hi.
    destruct (decide (set_index c = s)) as [<-|Hne].
    + rewrite lookup_insert_eq in Hcs. inversion Hcs; subst. inversion Hi.
    + rewrite lookup_insert_ne in Hs by assumption.
      rewrite lookup_insert_ne in Hcs by assumption. eauto.
Qed.

Lemma buckets_hold_set_constants c s l e0 :
  agrees c -> ready c -> expr_find (equivalence_set_map c) e0 = Some s ->
  Forall (fun x => holds_info (value_of e0) x = true) l ->
  ready (set_constants c s l).
Proof.
  intros Hc [R1 R2] He0 Hl. split; simpl; [assumption|].
  intros s' es cs e info Hs Hcs He Hi.
  destruct (decide (s = s')) as [<-|Hne].
  - rewrite lookup_insert_eq in Hcs. inversion Hcs; subst.
    rewrite Forall_forall in Hl. unfold holds_info.
    rewrite (cons_bucket _ _ _ _ Hc s es e e0 Hs He He0). apply Hl. assumption.
  - rewrite lookup_insert_ne in Hcs by assumption. eauto.
Qed.

Lemma AddTransitiveFilters_ready fuel : forall c ctype cleft cright c' r,
  agrees c -> ready c -> kept_holds (BoundComparison ctype cleft cright) ->
  AddTransitiveFilters fuel c ctype cleft cright = Ok (c', r) ->
  ready c'.
Proof.
  induction fuel as [|fuel IH]; intros c ctype cleft cright c' r Hc Hr Hcmp H;
    [discriminate|].
  cbn [AddTransitiveFilters] in H.
  destruct (IsGreaterThan ctype || IsLessThan ctype) eqn:Hfam; [|discriminate].
  cbn [negb] in H. simpl in Hcmp. specialize (Hcmp Hfam).
  apply (buckets_hold_GetNode c cleft) in Hr.
  destruct (GetNode_spec c cleft) as [st1 Hn1]. rewrite Hn1 in H, Hr.
  apply (consistent_stored IsFoldable scalar_value assignment _ st1) in Hc. simpl in Hr.
  match type of H with
  | context [GetNode ?c1 cright] =>
      apply (buckets_hold_GetNode c1 cright) in Hr;
      destruct (GetNode_spec c1 cright) as [st2 Hn2]; rewrite Hn2 in H, Hr
  end.
  apply (consistent_stored IsFoldable scalar_value assignment _ st2) in Hc. simpl in H, Hc, Hr.
  destruct (Equals cleft cright); [inversion H; subst; assumption|].
  inv_bind H. destruct a as [c3 left_set].
  pose proof (buckets_hold_GetEquivalenceSet _ _ _ _ Hc Hr E) as Hr3.
  apply (GetEquivalenceSet_sound IsFoldable scalar_value assignment) in E as (Hc3 & Hl3 & Hrem3 & Hmono3); [|assumption].
  inv_bind H. destruct a as [c4 right_set].
  pose proof (buckets_hold_GetEquivalenceSet _ _ _ _ Hc3 Hr3 E) as Hr4.
  apply (GetEquivalenceSet_sound IsFoldable scalar_value assignment) in E as (Hc4 & Hr4' & Hrem4 & Hmono4); [|assumption].
  apply Hmono4 in Hl3 as Hl4.
  destruct (bool_decide (left_set = right_set)); [inversion H; subst; assumption|].
  inv_bind H. rename a into left_constants.
  inv_bind H. rename a into right_constants.
  unfold get_constants in E, E0.
  destruct (constant_values c4 !! left_set) as [lc|] eqn:Elc; [|discriminate].
  destruct (constant_values c4 !! right_set) as [rc|] eqn:Erc; [|discriminate].
  inversion E; inversion E0; subst; clear E E0.
  inv_bind H. destruct a as [[[l' remaining'] ok'] early].
  apply (AddTransitiveFilters_loop_sound (value_of cleft) (value_of cright) _ _ kept_holds)
    in E as (L1 & L2 & L3); try assumption.
  2: { simpl. intros _. assumption. }
  2: { apply Forall_forall. intros info Hin. eapply (cons_bounds _ _ _ _ Hc4); eauto. }
  2: { apply Forall_forall. intros info Hin. eapply (cons_bounds _ _ _ _ Hc4); eauto. }
  2: { apply Hc4. }
  subst early.
  assert (Hc5 : agrees (set_remaining (set_constants c4 left_set l') remaining')).
  { apply (consistent_set_remaining IsFoldable scalar_value assignment); [|assumption].
    eapply (consistent_set_constants IsFoldable scalar_value assignment); eauto. }
  assert (Hr5 : ready (set_remaining (set_constants c4 left_set l') remaining')).
  { apply buckets_hold_set_remaining. eapply buckets_hold_set_constants; eauto. }
  destruct ok'; [|inversion H; subst; assumption].
  pose proof (buckets_hold_FindTransitiveFilter _ cleft Hr5) as Hr6.
  destruct (FindTransitiveFilter _ cleft) as [c6 tf] eqn:Etf.
  apply (FindTransitiveFilter_sound IsFoldable scalar_value assignment) in Etf as [Hc6 Htf]; [|assumption].
  simpl in Hr6.
  destruct tf as [f|]; [|inversion H; subst; assumption].
  destruct (Htf f eq_refl) as [Hf (t & l & r0 & ->)].
  inv_bind H. destruct a as [c7 res].
  apply IH in E; try assumption.
  destruct (bool_decide (res = UNSUPPORTED)); inversion H; subst; [|assumption].
  apply buckets_hold_set_remaining. assumption.
Qed.

Lemma try_transitive_ready fuel c tf c' :
  agrees c -> ready c ->
  (forall f, tf = Some f -> kept_holds f /\ exists t l r, f = BoundComparison t l r) ->
  try_transitive fuel c tf = Ok c' -> ready c'.
Proof.
  intros Hc Hr Htf H. unfold try_transitive in H.
  destruct tf as [f|]; [|inversion H; subst; assumption].
  destruct (Htf f eq_refl) as [Hf (t & l & r0 & ->)].
  inv_bind H. destruct a as [c1 res].
  apply AddTransitiveFilters_ready in E; try assumption.
  destruct (bool_decide (res = UNSUPPORTED)); inversion H; subst; [|assumption].
  apply buckets_hold_set_remaining. assumption.
Qed.

Lemma add_scalar_bound_ready c e0 s info_list info l' ret :
  agrees c -> ready c -> expr_find (equivalence_set_map c) e0 = Some s ->
  get_constants c s = Ok info_list ->
  holds_info (value_of e0) info = true ->
  AddConstantComparison info_list info = Ok (l', ret) ->
  ready (set_constants c s l').
Proof.
  intros Hc Hr He0 Hget Hinfo H. unfold get_constants in Hget.
  destruct (constant_values c !! s) as [cs|] eqn:Ecs; [|discriminate].
  inversion Hget; subst.
  apply (AddConstantComparison_sound (value_of e0)) in H as [H1 H2]; try assumption.
  - eapply buckets_hold_set_constants; eauto.
  - apply Forall_forall. intros x Hx.
    eapply (cons_bounds IsFoldable scalar_value assignment _ Hc); eauto.
Qed.

(** The bound that a comparison with a scalar puts on its other side. *)
Lemma scalar_bound_holds ctype cleft cright :
  IsFoldable cleft || IsFoldable cright = true ->
  holds (value_of cleft) ctype (value_of cright) = true ->
  holds_info (value_of (if IsFoldable cleft then cright else cleft))
    (mkInfo (scalar_value (if IsFoldable cleft then cleft else cright))
            (if IsFoldable cleft then FlipComparisionExpression ctype else ctype)) = true.
Proof.
  intros Hscalar Hsat. unfold holds_info. simpl.
  destruct (IsFoldable cleft) eqn:Fl.
  - rewrite holds_flip in Hsat.
    replace (value_of cleft) with (scalar_value cleft) in Hsat
      by (unfold operand_value; rewrite Fl; reflexivity).
    exact Hsat.
  - simpl in Hscalar.
    replace (value_of cright) with (scalar_value cright) in Hsat
      by (unfold operand_value; rewrite Hscalar; reflexivity).
    exact Hsat.
Qed.

Lemma AddBoundComparisonFilter_ready fuel c expr c' r :
  agrees c -> ready c -> is_true expr = true ->
  AddBoundComparisonFilter IsFoldable scalar_value fuel c expr = Ok (c', r) ->
  ready c'.
Proof.
  intros Hc Hr Hsat H. unfold AddBoundComparisonFilter in H.
  destruct expr as [| |ctype cleft cright| | | | |]; try discriminate.
  assert (Hkept : kept_holds (BoundComparison ctype cleft cright))
    by (apply structural_kept_holds; assumption).
  simpl in Hsat.
  match type of H with
  | (if negb ?b then _ else _) = _ => destruct b eqn:Hsix; simpl in H
  end.
  2: { inversion H; subst. assumption. }
  assert (His : is_comparison ctype = true).
  { destruct ctype; try discriminate Hsix; reflexivity. }
  rewrite His in Hsat.
  destruct (IsFoldable cleft || IsFoldable cright) eqn:Hscalar.
  - (* comparison with scalar *)
    match type of H with
    | context [GetNode c ?n] =>
        apply (buckets_hold_GetNode c n) in Hr;
        destruct (GetNode_spec c n) as [st1 Hn]; rewrite Hn in H, Hr
    end.
    apply (consistent_stored IsFoldable scalar_value assignment _ st1) in Hc.
    simpl in Hr.
    inv_bind H. destruct a as [c2 set].
    pose proof (buckets_hold_GetEquivalenceSet _ _ _ _ Hc Hr E) as Hr2.
    apply (GetEquivalenceSet_sound IsFoldable scalar_value assignment) in E
      as (Hc2 & Hfind & _ & _); [|assumption].
    inv_bind H. rename a into constant_value0.
    apply EvaluateScalar_Ok in E as [Hfold ->].
    inv_bind H. rename a into info_list.
    inv_bind H. destruct a as [l' ret].
    pose proof (scalar_bound_holds ctype cleft cright Hscalar Hsat) as Hinfo.
    pose proof (add_scalar_bound_ready _ _ _ _ _ _ _ Hc2 Hr2 Hfind E Hinfo E0) as Hr3.
    pose proof (add_scalar_bound_sound IsFoldable scalar_value assignment
                  _ _ _ _ _ _ _ Hc2 Hfind E Hinfo E0) as [Hc3 _].
    match type of H with
    | context [FindTransitiveFilter ?c0 ?n] =>
        pose proof (buckets_hold_FindTransitiveFilter c0 n Hr3) as Hr4;
        destruct (FindTransitiveFilter c0 n) as [c4 tf] eqn:Etf
    end.
    apply (FindTransitiveFilter_sound IsFoldable scalar_value assignment) in Etf
      as [Hc4 Htf]; [|assumption].
    simpl in Hr4.
    inv_bind H. inversion H; subst.
    exact (try_transitive_ready fuel c4 tf c' Hc4 Hr4 Htf E1).
  - destruct (negb (bool_decide (ctype = COMPARE_EQUAL))) eqn:Hne.
    { destruct (IsGreaterThan ctype || IsLessThan ctype).
      - eapply AddTransitiveFilters_ready; eauto.
      - inversion H; subst. assumption. }
    apply negb_false_iff, bool_decide_eq_true in Hne. subst ctype.
    apply (buckets_hold_GetNode c cleft) in Hr.
    destruct (GetNode_spec c cleft) as [st1 Hn1]. rewrite Hn1 in H, Hr.
    apply (consistent_stored IsFoldable scalar_value assignment _ st1) in Hc.
    simpl in Hr.
    match type of H with
    | context [GetNode ?c1 cright] =>
        apply (buckets_hold_GetNode c1 cright) in Hr;
        destruct (GetNode_spec c1 cright) as [st2 Hn2]; rewrite Hn2 in H, Hr
    end.
    apply (consistent_stored IsFoldable scalar_value assignment _ st2) in Hc.
    simpl in H, Hc, Hr.
    destruct (Equals cleft cright); [inversion H; subst; assumption|].
    inv_bind H. destruct a as [c3 left_set].
    pose proof (buckets_hold_GetEquivalenceSet _ _ _ _ Hc Hr E) as Hr3.
    apply (GetEquivalenceSet_sound IsFoldable scalar_value assignment) in E
      as (Hc3 & Hl3 & _ & _); [|assumption].
    inv_bind H. destruct a as [c4 right_set].
    pose proof (buckets_hold_GetEquivalenceSet _ _ _ _ Hc3 Hr3 E) as Hr4.
    apply (GetEquivalenceSet_sound IsFoldable scalar_value assignment) in E
      as (Hc4 & Hr4' & _ & Hmono4); [|assumption].
    apply Hmono4 in Hl3 as Hl4.
    destruct (bool_decide (left_set = right_set)) eqn:Hsets;
      [inversion H; subst; assumption|].
    inv_bind H. rename a into left_bucket.
    inv_bind H. rename a into right_bucket.
    unfold get_bucket in E, E0.
    destruct (equivalence_map c4 !! left_set) as [lb|] eqn:Elb; [|discriminate].
    destruct (equivalence_map c4 !! right_set) as [rb|] eqn:Erb; [|discriminate].
    inversion E; inversion E0; subst; clear E E0.
    inv_bind H. rename a into left_constants.
    inv_bind H. rename a into right_constants.
    unfold get_constants in E, E0. simpl in E, E0.
    destruct (constant_values c4 !! left_set) as [lc|] eqn:Elc; [|discriminate].
    destruct (constant_values c4 !! right_set) as [rc|] eqn:Erc; [|discriminate].
    inversion E; inversion E0; subst; clear E E0.
    inv_bind H. destruct a as [merged early].
    assert (Hsame : same_value (value_of cleft) (value_of cright))
      by (apply holds_EQUAL_same_value; assumption).
    (* every member of the merged bucket has the value of the left operand *)
    assert (Hmember : forall x, x ∈ left_bucket ++ right_bucket ->
              same_value (value_of x) (value_of cleft)).
    { intros x [Hin|Hin]%elem_of_app.
      - exact (cons_bucket IsFoldable scalar_value assignment _ Hc4 _ _ _ _ Elb Hin Hl4).
      - eapply same_value_trans;
          [exact (cons_bucket IsFoldable scalar_value assignment _ Hc4 _ _ _ _ Erb Hin Hr4')|].
        apply same_value_sym. exact Hsame. }
    apply (merge_constants_sound (value_of cleft)) in E as [M1 M2].
    2: { apply Forall_forall. intros x Hx.
         eapply (cons_bounds IsFoldable scalar_value assignment _ Hc4); eauto. }
    2: { apply Forall_forall. intros x Hx. unfold holds_info. rewrite (Hsame _ _).
         eapply (cons_bounds IsFoldable scalar_value assignment _ Hc4); eauto. }
    subst early. inversion H; subst; clear H.
    destruct Hr4 as [R1 R2]. split; simpl.
    + intros s es Hes. destruct (decide (left_set = s)) as [<-|Ns].
      * rewrite lookup_insert_eq in Hes. injection Hes as <-. right.
        intros x y Hx Hy. rewrite (Hmember x Hx), holds_flip.
        change (FlipComparisionExpression COMPARE_EQUAL) with COMPARE_EQUAL.
        rewrite (Hmember y Hy), (holds_same_value_r _ _ _ _ Hsat). exact Hsat.
      * rewrite lookup_insert_ne in Hes by assumption. eauto.
    + intros s es cs e info Hes Hcs He Hi.
      destruct (decide (left_set = s)) as [<-|Ns].
      * rewrite lookup_insert_eq in Hes. injection Hes as <-.
        rewrite lookup_insert_eq in Hcs. injection Hcs as <-.
        unfold holds_info. rewrite (Hmember e He).
        rewrite Forall_forall in M1. apply M1. assumption.
      * rewrite lookup_insert_ne in Hes by assumption.
        rewrite lookup_insert_ne in Hcs by assumption. eauto.
Qed.

Lemma AddFilter_expr_ready fuel c expr c' r :
  agrees c -> ready c ->
  satisfies IsFoldable HasParameter scalar_value assignment expr = true ->
  AddFilter_expr IsFoldable HasParameter scalar_value fuel c expr = Ok (c', r) ->
  ready c'.
Proof.
  intros Hc Hr Hsat H. unfold AddFilter_expr in H.
  destruct (HasParameter expr) eqn:Hp; [inversion H; subst; assumption|].
  destruct (IsFoldable expr) eqn:Hf.
  { inv_bind H. inv_bind H.
    destruct (is_null a0 || (value_ a0 =? 0)); inversion H; subst; assumption. }
  unfold satisfies in Hsat. rewrite Hp, Hf in Hsat.
  destruct expr as [| |ctype cleft cright|input lower upper li ui| | | |];
    try (inversion H; subst; assumption).
  - eapply AddBoundComparisonFilter_ready; eauto.
  - simpl in Hsat. apply andb_prop in Hsat as [Hlo Hup].
    destruct (IsFoldable lower || IsFoldable upper); [|inversion H; subst; assumption].
    apply (buckets_hold_GetNode c input) in Hr.
    destruct (GetNode_spec c input) as [st1 Hn]. rewrite Hn in H, Hr.
    apply (consistent_stored IsFoldable scalar_value assignment _ st1) in Hc.
    simpl in Hr.
    inv_bind H. destruct a as [c2 set].
    pose proof (buckets_hold_GetEquivalenceSet _ _ _ _ Hc Hr E) as Hr2.
    apply (GetEquivalenceSet_sound IsFoldable scalar_value assignment) in E
      as (Hc2 & Hfind & _ & _); [|assumption].
    inv_bind H. apply EvaluateScalar_Ok in E as [Flo ->].
    inv_bind H. rename a into info_list.
    inv_bind H. destruct a as [l1 ret1].
    assert (Hi1 : holds_info (value_of input)
              (mkInfo (scalar_value lower)
                 (if li then COMPARE_GREATERTHANOREQUALTO else COMPARE_GREATERTHAN)) = true).
    { unfold holds_info. simpl.
      rewrite <- (operand_value_scalar IsFoldable scalar_value assignment lower Flo).
      exact Hlo. }
    pose proof (add_scalar_bound_ready _ _ _ _ _ _ _ Hc2 Hr2 Hfind E Hi1 E0) as Hr3.
    pose proof (add_scalar_bound_sound IsFoldable scalar_value assignment
                  _ _ _ _ _ _ _ Hc2 Hfind E Hi1 E0) as [Hc3 _].
    inv_bind H. apply EvaluateScalar_Ok in E1 as [Fup ->].
    inv_bind H. rename a into info_list2.
    inv_bind H. destruct a as [l2 ret2].
    assert (Hi2 : holds_info (value_of input)
              (mkInfo (scalar_value upper)
                 (if ui then COMPARE_LESSTHANOREQUALTO else COMPARE_LESSTHAN)) = true).
    { unfold holds_info. simpl.
      rewrite <- (operand_value_scalar IsFoldable scalar_value assignment upper Fup).
      exact Hup. }
    inversion H; subst.
    exact (add_scalar_bound_ready (set_constants c2 set l1) input _ _ _ _ _
             Hc3 Hr3 Hfind E1 Hi2 E2).
Qed.

Lemma AddFilter_ready fuel c expr c' r :
  agrees c -> ready c ->
  satisfies IsFoldable HasParameter scalar_value assignment expr = true ->
  AddFilter IsFoldable HasParameter scalar_value fuel c expr = Ok (c', r) ->
  ready c'.
Proof.
  intros Hc Hr Hsat H. unfold AddFilter in H.
  inv_bind H. destruct a as [c1 res].
  apply AddFilter_expr_ready in E; try assumption.
  destruct (bool_decide (res = UNSUPPORTED)); inversion H; subst; [|assumption].
  apply buckets_hold_set_remaining. assumption.
Qed.

Lemma AddFilters_ready fuel : forall exprs c c' rs,
  agrees c -> ready c ->
  Forall (fun e => satisfies IsFoldable HasParameter scalar_value assignment e = true) exprs ->
  AddFilters IsFoldable HasParameter scalar_value fuel c exprs = Ok (c', rs) ->
  ready c'.
Proof.
  induction exprs as [|e rest IH]; intros c c' rs Hc Hr Hall H; simpl in H.
  - inversion H; subst. assumption.
  - inv_bind H. destruct a as [c1 r].
    inv_bind H. destruct a as [c2 rs'].
    inversion H; subst; clear H.
    apply Forall_cons in Hall as [He Hrest].
    pose proof (AddFilter_ready _ _ _ _ _ Hc Hr He E) as Hr1.
    apply (AddFilter_sound IsFoldable HasParameter scalar_value assignment) in E
      as [Hc1 _]; try assumption.
    exact (IH c1 c' rs' Hc1 Hr1 Hrest E0).
Qed.

Lemma operand_value_constant v : value_of (BoundConstant v) = v.
Proof.
  unfold operand_value. rewrite constant_foldable. apply constant_value.
Qed.

Lemma GenerateFilters_constants_implied entry constant_list :
  forall l k lower upper acc lower' upper' acc',
  GenerateFilters_constants entry k l lower upper acc = (lower', upper', acc') ->
  (forall i, l !! i = constant_list !! (k + i)%nat) ->
  Forall (fun x => holds_info (value_of entry) x = true) l ->
  index_holds (value_of entry) constant_list
    COMPARE_GREATERTHAN COMPARE_GREATERTHANOREQUALTO lower ->
  index_holds (value_of entry) constant_list
    COMPARE_LESSTHAN COMPARE_LESSTHANOREQUALTO upper ->
  Forall (fun g => implied IsFoldable scalar_value assignment g = true) acc ->
  index_holds (value_of entry) constant_list
    COMPARE_GREATERTHAN COMPARE_GREATERTHANOREQUALTO lower' /\
  index_holds (value_of entry) constant_list
    COMPARE_LESSTHAN COMPARE_LESSTHANOREQUALTO upper' /\
  Forall (fun g => implied IsFoldable scalar_value assignment g = true) acc'.
Proof.
  induction l as [|info l IH]; simpl;
    intros k lower upper acc lower' upper' acc' H Hat Hl Hlo Hup Hacc.
  - inversion H; subst. auto.
  - apply Forall_cons in Hl as [Hinfo Hl].
    assert (Hhere : constant_list !! k = Some info).
    { specialize (Hat 0%nat). rewrite Nat.add_0_r in Hat. symmetry. exact Hat. }
    assert (Hnext : forall i, l !! i = constant_list !! (S k + i)%nat).
    { intros i. specialize (Hat (S i)). rewrite Nat.add_succ_r in Hat. exact Hat. }
    unfold holds_info in Hinfo.
    destruct (IsGreaterThan (comparison_type info)) eqn:Hg;
      [|destruct (IsLessThan (comparison_type info)) eqn:Hs].
    + apply IH in H; try assumption.
      intros i flag Hi. inversion Hi; subst. exists info.
      split; [assumption|]. split; [assumption|].
      unfold IsGreaterThan in Hg.
      destruct (bool_decide_reflect (comparison_type info = COMPARE_GREATERTHANOREQUALTO))
        as [E|E]; [rewrite <- E; assumption|].
      rewrite orb_false_r in Hg. apply bool_decide_eq_true in Hg.
      rewrite <- Hg. assumption.
    + apply IH in H; try assumption.
      intros i flag Hi. inversion Hi; subst. exists info.
      split; [assumption|]. split; [assumption|].
      unfold IsLessThan in Hs.
      destruct (bool_decide_reflect (comparison_type info = COMPARE_LESSTHANOREQUALTO))
        as [E|E]; [rewrite <- E; assumption|].
      rewrite orb_false_r in Hs. apply bool_decide_eq_true in Hs.
      rewrite <- Hs. assumption.
    + apply IH in H; try assumption.
      apply Forall_app. split; [assumption|]. constructor; [|constructor].
      simpl. rewrite operand_value_constant. assumption.
Qed.

Lemma constant_at_Ok constant_list i info :
  constant_at constant_list i = Ok info -> constant_list !! i = Some info.
Proof.
  unfold constant_at. destruct (constant_list !! i); [|discriminate].
  intros H. inversion H. reflexivity.
Qed.

Lemma GenerateFilters_entries_implied constant_list : forall entries fs,
  pairs_hold IsFoldable scalar_value assignment entries ->
  Forall (fun e => Forall (fun x => holds_info (value_of e) x = true) constant_list)
         entries ->
  GenerateFilters_entries entries constant_list = Ok fs ->
  Forall (fun g => implied IsFoldable scalar_value assignment g = true) fs.
Proof.
  induction entries as [|entry later IH]; simpl; intros fs Hpairs Hbounds H.
  - inversion H; subst. constructor.
  - destruct Hpairs as [Hentry Hpairs].
    apply Forall_cons in Hbounds as [Hhere Hbounds].
    destruct (GenerateFilters_constants entry 0 constant_list None None [])
      as [[lower upper] comparisons] eqn:E.
    apply (GenerateFilters_constants_implied entry constant_list) in E
      as (Hlo & Hup & Hcmp); try assumption; try discriminate;
      [|intros i; reflexivity | constructor].
    inv_bind H. rename a into bound. rename E into Hbound.
    inv_bind H. rename a into rest. rename E into Hrest.
    inversion H; subst; clear H.
    apply Forall_app. split.
    { apply Forall_forall. intros g [e [-> He]]%list_elem_of_fmap.
      rewrite Forall_forall in Hentry. simpl. apply Hentry. assumption. }
    apply Forall_app. split; [assumption|].
    apply Forall_app. split; [|apply IH; assumption].
    destruct lower as [[li lb]|], upper as [[ui ub]|].
    + inv_bind Hbound. inv_bind Hbound. inversion Hbound; subst.
      apply constant_at_Ok in E, E0.
      destruct (Hlo li lb eq_refl) as (x & Hx & _ & Hx').
      destruct (Hup ui ub eq_refl) as (y & Hy & _ & Hy').
      rewrite E in Hx. rewrite E0 in Hy. inversion Hx; inversion Hy; subst.
      constructor; [|constructor]. simpl. rewrite !operand_value_constant.
      rewrite Hx', Hy'. reflexivity.
    + inv_bind Hbound. inversion Hbound; subst. apply constant_at_Ok in E.
      destruct (Hlo li lb eq_refl) as (x & Hx & Hx' & _).
      rewrite E in Hx. inversion Hx; subst.
      constructor; [|constructor]. simpl. rewrite operand_value_constant. assumption.
    + inv_bind Hbound. inversion Hbound; subst. apply constant_at_Ok in E.
      destruct (Hup ui ub eq_refl) as (y & Hy & Hy' & _).
      rewrite E in Hy. inversion Hy; subst.
      constructor; [|constructor]. simpl. rewrite operand_value_constant. assumption.
    + inversion Hbound; subst. constructor.
Qed.

Lemma bucket_equal_pairs es :
  bucket_equal IsFoldable scalar_value assignment es ->
  pairs_hold IsFoldable scalar_value assignment es.
Proof.
  intros [[x ->]|H].
  - simpl. split; [constructor | exact I].
  - induction es as [|x es IH]; simpl; [exact I|]. split.
    + apply Forall_forall. intros y Hy. apply H; [left | right; assumption].
    + apply IH. intros a b Ha Hb. apply H; right; assumption.
Qed.

Lemma GenerateFilters_sets_implied c : forall sets fs,
  ready c ->
  (forall s es, (s, es) ∈ sets -> equivalence_map c !! s = Some es) ->
  GenerateFilters_sets c sets = Ok fs ->
  Forall (fun g => implied IsFoldable scalar_value assignment g = true) fs.
Proof.
  induction sets as [|[s es] sets IH]; simpl; intros fs Hr Hsets H.
  - inversion H; subst. constructor.
  - inv_bind H. rename a into constant_list.
    inv_bind H. rename a into here. inv_bind H. rename a into rest.
    inversion H; subst; clear H.
    assert (Hs : equivalence_map c !! s = Some es) by (apply Hsets; left).
    unfold get_constants in E.
    destruct (constant_values c !! s) as [cs|] eqn:Ecs; [|discriminate].
    inversion E; subst; clear E.
    destruct Hr as [R1 R2].
    apply Forall_app. split.
    + apply (GenerateFilters_entries_implied constant_list es); [| |assumption].
      * apply bucket_equal_pairs. eapply R1; eauto.
      * apply Forall_forall. intros e He. apply Forall_forall. intros x Hx.
        eapply R2; eauto.
    + apply IH; [split; assumption | | assumption].
      intros s' es' Hin. apply Hsets. right. assumption.
Qed.

End GeneratedSound.

(** X18. The filters that [GenerateFilters] hands to the callback, after
    the predicates [exprs] were fed to [AddFilter] on a fresh combiner:
    each one is a predicate of [exprs], or a comparison or BETWEEN that is
    true on every row on which all the predicates of [exprs] are true.
    The engine folds a constant to its value. *)
Theorem GenerateFilters_emits_implied_filters
    IsFoldable HasParameter scalar_value assignment fuel exprs c rs fs c' :
  (forall v, IsFoldable (BoundConstant v) = true) ->
  (forall v, scalar_value (BoundConstant v) = v) ->
  AddFilters IsFoldable HasParameter scalar_value fuel FilterCombiner_new exprs
    = Ok (c, rs) ->
  GenerateFilters c = Ok (fs, c') ->
  Forall (fun e => satisfies IsFoldable HasParameter scalar_value assignment e = true)
         exprs ->
  Forall (fun g => g ∈ exprs \/ implied IsFoldable scalar_value assignment g = true) fs.
Proof.
  intros Hfold Hvalue Hadd Hgen Hall.
  assert (Hrem : Forall (fun g => g ∈ exprs) (remaining_filters c)).
  { apply (AddFilters_remaining IsFoldable HasParameter scalar_value
             (fun g => g ∈ exprs) fuel exprs _ _ _) in Hadd; [assumption|constructor|].
    apply Forall_forall. auto. }
  assert (Hready : buckets_hold IsFoldable scalar_value assignment c).
  { eapply (AddFilters_ready IsFoldable HasParameter scalar_value assignment);
      [apply consistent_new | apply buckets_hold_new | exact Hall | exact Hadd]. }
  unfold GenerateFilters in Hgen. inv_bind Hgen. inversion Hgen; subst; clear Hgen.
  apply Forall_app. split.
  - eapply Forall_impl; [exact Hrem|]. simpl. auto.
  - eapply Forall_impl;
      [eapply (GenerateFilters_sets_implied IsFoldable scalar_value assignment
                 Hfold Hvalue c _ _ Hready _ E)|].
    simpl. auto.
    Unshelve. intros s es Hin. apply elem_of_map_to_list in Hin. exact Hin.
Qed.

(** [a = b], [a > 3] and [b <= 9] on a row with [a = b = 5]: the callback
    receives [a = b] and one BETWEEN for each of [a] and [b]. *)
Lemma GenerateFilters_emits_implied_filters_witness :
  exists c fs c',
    example_AddFilters 5 FilterCombiner_new
      [BoundComparison COMPARE_EQUAL (column 0) (column 1);
       BoundComparison COMPARE_GREATERTHAN (column 0) (int_constant 3);
       BoundComparison COMPARE_LESSTHANOREQUALTO (column 1) (int_constant 9)]
    = Ok (c, [SUCCESS; SUCCESS; SUCCESS]) /\
    GenerateFilters c = Ok (fs, c') /\ length fs = 3%nat /\
    Forall (fun g =>
              g ∈ [BoundComparison COMPARE_EQUAL (column 0) (column 1);
                   BoundComparison COMPARE_GREATERTHAN (column 0) (int_constant 3);
                   BoundComparison COMPARE_LESSTHANOREQUALTO (column 1) (int_constant 9)]
              \/ implied example_IsFoldable example_scalar_value
                   (fun _ => Value_Numeric INTEGER 5) g = true) fs.
Proof.
  eexists _, _, _.
  split; [vm_compute; reflexivity|]. split; [vm_compute; reflexivity|].
  split; [reflexivity|].
  eapply (GenerateFilters_emits_implied_filters example_IsFoldable example_HasParameter
            example_scalar_value _ 5 _ _ [SUCCESS; SUCCESS; SUCCESS]).
  - intros v. reflexivity.
  - intros v. reflexivity.
  - vm_compute. reflexivity.
  - vm_compute. reflexivity.
  - repeat constructor.
Defined.

(** ** GenerateFilters after AddFilter *)

(** X19. [GenerateFilters] on a combiner that [AddFilter] built from a
    fresh one returns: the list of constants that it looks up for each
    bucket of [equivalence_map] is there, and so are the constants at
    [lower_index] and [upper_index].  It leaves the combiner empty. *)
Theorem GenerateFilters_returns_after_AddFilters
    IsFoldable HasParameter scalar_value fuel exprs c rs :
  AddFilters IsFoldable HasParameter scalar_value fuel FilterCombiner_new exprs
    = Ok (c, rs) ->
  exists fs, GenerateFilters c = Ok (fs, mkCombiner [] [] [] ∅ ∅ (set_index c)).
Proof.
  intros H. apply GenerateFilters_total.
  exact (sets_have_constants_AddFilters IsFoldable HasParameter scalar_value
           fuel exprs _ _ _ H sets_have_constants_new).
Qed.

(** [a = b], [a > 3] and [b <= 9]: three filters come out. *)
Lemma GenerateFilters_returns_after_AddFilters_witness :
  exists c,
    example_AddFilters 5 FilterCombiner_new
      [BoundComparison COMPARE_EQUAL (column 0) (column 1);
       BoundComparison COMPARE_GREATERTHAN (column 0) (int_constant 3);
       BoundComparison COMPARE_LESSTHANOREQUALTO (column 1) (int_constant 9)]
    = Ok (c, [SUCCESS; SUCCESS; SUCCESS]) /\
    exists fs, GenerateFilters c = Ok (fs, mkCombiner [] [] [] ∅ ∅ (set_index c)).
Proof.
  eexists. split; [vm_compute; reflexivity|].
  apply (GenerateFilters_returns_after_AddFilters example_IsFoldable example_HasParameter
           example_scalar_value 5
           [BoundComparison COMPARE_EQUAL (column 0) (column 1);
            BoundComparison COMPARE_GREATERTHAN (column 0) (int_constant 3);
            BoundComparison COMPARE_LESSTHANOREQUALTO (column 1) (int_constant 9)]
           _ [SUCCESS; SUCCESS; SUCCESS]).
  vm_compute. reflexivity.
Defined.

Import ScanLaws.

(** ** The first loop of GenerateTableScanFilters *)

Lemma pushed_delete cv em0 em set tf :
  pushed cv em0 em tf -> pushed cv em0 (delete set em) tf.
Proof.
  intros (s & cl & tbl & H1 & H2 & H3 & H4). exists s, cl, tbl.
  repeat split; try assumption.
  apply lookup_delete_None. right. assumption.
Qed.

Lemma pushed_out_app cv em0 tfs more set :
  pushed_out cv em0 tfs set -> pushed_out cv em0 (tfs ++ more) set.
Proof.
  intros (cl & tbl & col & H1 & H2 & H3). exists cl, tbl, col.
  split; [assumption|]. split; [assumption|].
  intros info Hin. apply elem_of_app. left. apply H3. assumption.
Qed.

Lemma scan_constant_values_pushed column_ids cv em0 : forall entries tfs em tfs' em',
  scan_constant_values column_ids entries tfs em = Ok (tfs', em') ->
  (forall set cl, (set, cl) ∈ entries -> cv !! set = Some cl) ->
  (forall set, em !! set = em0 !! set \/
               (em !! set = None /\ pushed_out cv em0 tfs set)) ->
  Forall (pushed cv em0 em) tfs ->
  (forall set, em' !! set = em0 !! set \/
               (em' !! set = None /\ pushed_out cv em0 tfs' set)) /\
  Forall (pushed cv em0 em') tfs'.
Proof.
  induction entries as [|[set cl] entries IH]; intros tfs em tfs' em' H Hcv Hem Htfs.
  - simpl in H. inversion H; subst. auto.
  - assert (Hrest : forall set' cl', (set', cl') ∈ entries -> cv !! set' = Some cl').
    { intros set' cl' Hin. apply Hcv. right. assumption. }
    assert (Hset : cv !! set = Some cl) by (apply Hcv; left).
    cbn [scan_constant_values] in H.
    destruct cl as [|first rest]; [exact (IH _ _ _ _ H Hrest Hem Htfs)|].
    destruct (_ && _); [|exact (IH _ _ _ _ H Hrest Hem Htfs)].
    destruct (em !! set) as [es|] eqn:Ees; [|discriminate].
    destruct es as [|e es]; [exact (IH _ _ _ _ H Hrest Hem Htfs)|].
    destruct e; try exact (IH _ _ _ _ H Hrest Hem Htfs).
    destruct es; [|exact (IH _ _ _ _ H Hrest Hem Htfs)].
    inv_bind H. rename a into column_id.
    destruct (column_id =? COLUMN_IDENTIFIER_ROW_ID); [inversion H; subst; auto|].
    assert (Hbucket : em0 !! set = Some [BoundColumnRef table_index column_index]).
    { destruct (Hem set) as [Heq|[Hnone _]]; congruence. }
    apply IH in H; try assumption.
    + intros s. destruct (decide (s = set)) as [->|Hne].
      * right. split; [apply lookup_delete_eq|].
        exists (first :: rest), table_index, column_index.
        split; [exact Hset|]. split; [exact Hbucket|].
        intros info Hin. apply elem_of_app. right.
        apply list_elem_of_fmap. exists info. split; [reflexivity | assumption].
      * rewrite lookup_delete_ne by congruence.
        destruct (Hem s) as [Heq|[Hnone Hout]]; [left; assumption|].
        right. split; [assumption|]. apply pushed_out_app. assumption.
    + apply Forall_app. split.
      * eapply Forall_impl; [exact Htfs|]. intros tf. apply pushed_delete.
      * apply Forall_forall. intros tf [info [-> Hinfo]]%list_elem_of_fmap.
        eexists set, _, _. simpl.
        split; [exact Hset|]. split; [destruct info; exact Hinfo|].
        split; [exact Hbucket|]. apply lookup_delete_eq.
Qed.

(** X20. The first loop of [GenerateTableScanFilters], run on the
    constants and the buckets of a combiner: every table filter that it
    emits is a bound that [constant_values] lists for a set whose bucket is
    a single column reference, to the column of the filter, and that
    bucket is erased from [equivalence_map].  Every bucket of the combiner
    is either left as it was, or it is such a bucket, erased, with all the
    bounds of its set among the table filters. *)
Theorem first_loop_pushes_bounds_of_single_columns column_ids c tfs left :
  scan_constant_values column_ids (map_to_list (constant_values c)) []
    (equivalence_map c) = Ok (tfs, left) ->
  Forall (pushed (constant_values c) (equivalence_map c) left) tfs /\
  (forall set,
     left !! set = equivalence_map c !! set \/
     (left !! set = None /\
      pushed_out (constant_values c) (equivalence_map c) tfs set)).
Proof.
  intros H.
  apply (scan_constant_values_pushed column_ids (constant_values c) (equivalence_map c))
    in H as [H1 H2]; auto.
  intros set cl Hin. apply elem_of_map_to_list in Hin. exact Hin.
Qed.

(** After [a > 3], [b = c], [a <= 9] and [c = 7] the two bounds of [a] are
    pushed to the scan; [b] and [c] share a bucket and stay. *)
Lemma first_loop_pushes_bounds_of_single_columns_witness :
  scan_constant_values [10; 11; 12] (map_to_list (constant_values scan_example)) []
    (equivalence_map scan_example)
  = Ok ([mkTableFilter (Value_Numeric INTEGER 3) COMPARE_GREATERTHAN 0;
         mkTableFilter (Value_Numeric INTEGER 9) COMPARE_LESSTHANOREQUALTO 0],
        scan_example_left) /\
  Forall (pushed (constant_values scan_example) (equivalence_map scan_example)
            scan_example_left)
    [mkTableFilter (Value_Numeric INTEGER 3) COMPARE_GREATERTHAN 0;
     mkTableFilter (Value_Numeric INTEGER 9) COMPARE_LESSTHANOREQUALTO 0] /\
  (forall set,
     scan_example_left !! set = equivalence_map scan_example !! set \/
     (scan_example_left !! set = None /\
      pushed_out (constant_values scan_example) (equivalence_map scan_example)
        [mkTableFilter (Value_Numeric INTEGER 3) COMPARE_GREATERTHAN 0;
         mkTableFilter (Value_Numeric INTEGER 9) COMPARE_LESSTHANOREQUALTO 0] set)).
Proof.
  split; [vm_compute; reflexivity|].
  apply (first_loop_pushes_bounds_of_single_columns [10; 11; 12] scan_example
           [mkTableFilter (Value_Numeric INTEGER 3) COMPARE_GREATERTHAN 0;
            mkTableFilter (Value_Numeric INTEGER 9) COMPARE_LESSTHANOREQUALTO 0]
           scan_example_left).
  vm_compute. reflexivity.
Defined.

(** X21. The table filters of the first loop of [GenerateTableScanFilters]
    are implied by the predicates: after the predicates [exprs] were fed to
    [AddFilter] on a fresh combiner, each table filter that the loop emits
    is true of its column on every row on which all the predicates of
    [exprs] are true. *)
Theorem first_loop_table_filters_are_implied
    IsFoldable HasParameter scalar_value assignment fuel exprs c rs column_ids tfs left :
  AddFilters IsFoldable HasParameter scalar_value fuel FilterCombiner_new exprs
    = Ok (c, rs) ->
  Forall (fun e => satisfies IsFoldable HasParameter scalar_value assignment e = true)
         exprs ->
  scan_constant_values column_ids (map_to_list (constant_values c)) []
    (equivalence_map c) = Ok (tfs, left) ->
  Forall (fun tf => exists table_index,
            holds (operand_value IsFoldable scalar_value assignment
                     (BoundColumnRef table_index (tf_column_index tf)))
                  (tf_comparison_type tf) (tf_constant tf) = true) tfs.
Proof.
  intros Hadd Hall Hscan.
  assert (Hready : buckets_hold IsFoldable scalar_value assignment c).
  { eapply (AddFilters_ready IsFoldable HasParameter scalar_value assignment);
      [apply consistent_new | apply buckets_hold_new | exact Hall | exact Hadd]. }
  apply (scan_constant_values_pushed column_ids (constant_values c) (equivalence_map c))
    in Hscan as [_ Hpushed]; auto.
  2: { intros set cl Hin. apply elem_of_map_to_list in Hin. exact Hin. }
  eapply Forall_impl; [exact Hpushed|].
  intros tf (set & cl & tbl & Hcl & Hinfo & Hbucket & _). exists tbl.
  destruct Hready as [_ R2].
  exact (R2 set _ cl _ _ Hbucket Hcl ltac:(constructor) Hinfo).
Qed.

(** [a > 3], [b = c], [a <= 9] and [c = 7] on a row with [a = 5] and
    [b = c = 7]: the loop pushes [a > 3] and [a <= 9]. *)
Lemma first_loop_table_filters_are_implied_witness :
  example_AddFilters 5 FilterCombiner_new
    [BoundComparison COMPARE_GREATERTHAN (column 0) (int_constant 3);
     BoundComparison COMPARE_EQUAL (column 1) (column 2);
     BoundComparison COMPARE_LESSTHANOREQUALTO (column 0) (int_constant 9);
     BoundComparison COMPARE_EQUAL (column 2) (int_constant 7)]
  = Ok (scan_example, [SUCCESS; SUCCESS; SUCCESS; SUCCESS]) /\
  Forall (fun tf => exists table_index,
            holds (operand_value example_IsFoldable example_scalar_value
                     (fun e => match e with
                               | BoundColumnRef _ 0 => Value_Numeric INTEGER 5
                               | _ => Value_Numeric INTEGER 7
                               end)
                     (BoundColumnRef table_index (tf_column_index tf)))
                  (tf_comparison_type tf) (tf_constant tf) = true)
    [mkTableFilter (Value_Numeric INTEGER 3) COMPARE_GREATERTHAN 0;
     mkTableFilter (Value_Numeric INTEGER 9) COMPARE_LESSTHANOREQUALTO 0].
Proof.
  split; [vm_compute; reflexivity|].
  apply (first_loop_table_filters_are_implied example_IsFoldable example_HasParameter
           example_scalar_value _ 5
           [BoundComparison COMPARE_GREATERTHAN (column 0) (int_constant 3);
            BoundComparison COMPARE_EQUAL (column 1) (column 2);
            BoundComparison COMPARE_LESSTHANOREQUALTO (column 0) (int_constant 9);
            BoundComparison COMPARE_EQUAL (column 2) (int_constant 7)]
           scan_example [SUCCESS; SUCCESS; SUCCESS; SUCCESS] [10; 11; 12] _
           scan_example_left).
  - vm_compute. reflexivity.
  - repeat constructor.
  - vm_compute. reflexivity.
Defined.
